(** * OpNix: secrets module, [opnix env] command and the deployment engine

    A shallow embedding of the parts of OpNix that its specification makes
    claims about, and of the code around them:

    - [Regex]: the two anchored patterns the code matches strings against
      (the octal mode pattern of the NixOS module and [envNamePattern] of
      the [env] command), with a derivative-based matcher;
    - [Nix]: the NixOS module [services.onepassword-secrets]
      (options, assertions, generated manifest, unit script, [secretPaths]);
    - [Env]: the [opnix env] command of [cmd/opnix/main.go]
      ([validateEnvConfig], [envProcessor.Process], the renderers);
    - [Reference]: the error-handling options of the configuration
      reference and their documented defaults;
    - [Engine]: the declarative deployment engine (loader, hash store,
      change detector, materializer, notifier, orchestrator).  The module
      and the documentation call and configure it, its implementation is
      not among the sources; every definition of [Engine] is modelled from
      the specification and says so;
    - [Cli]: [run] and [handleError] of [cmd/opnix/main.go];
    - [Token]: [setToken] of [cmd/opnix/token.go];
    - [EnvCommand]: [envCommand.Run] with [validateConfigFile],
      [loadEnvConfig], [buildResolver] and [renderOutput];
    - [Script]: the unit script of the NixOS module, run by a shell,
      for paths that are single plain words.

    Definitions come first; the properties, with the inputs they are tried
    on, make the second half. *)

From Stdlib Require Import Ascii String List Bool Arith Lia.
From stdpp Require Import base tactics option list relations sorting
  strings pretty gmap fin_maps.

(** ** Characters and strings *)

(** The two characters that cannot be written inside a literal, and the
    other control characters [dotenvValue] escapes. *)
Definition ch_dquote : ascii := "034"%char.
Definition ch_squote : ascii := "039"%char.
Definition ch_newline : ascii := "010"%char.
Definition ch_return : ascii := "013"%char.
Definition ch_tab : ascii := "009"%char.
Definition ch_backslash : ascii := "092"%char.

Definition str1 (c : ascii) : string := String c EmptyString.

(** [(a <=? b)%char] on byte values. *)
Definition ascii_between (lo hi c : ascii) : bool :=
  (Ascii.leb lo c) && (Ascii.leb c hi).

Fixpoint string_forallb (p : ascii → bool) (s : string) : bool :=
  match s with
  | EmptyString => true
  | String c s' => p c && string_forallb p s'
  end.

Fixpoint string_existsb (p : ascii → bool) (s : string) : bool :=
  match s with
  | EmptyString => false
  | String c s' => p c || string_existsb p s'
  end.

Definition string_nonempty (s : string) : bool :=
  match s with EmptyString => false | String _ _ => true end.

(** ** Regular expressions *)

Module Regex.

(** A character class is a union of inclusive byte ranges, as in
    [[A-Z0-9_]]. *)
Definition class := list (ascii * ascii).

Definition in_class (cl : class) (c : ascii) : bool :=
  existsb (λ r, ascii_between (fst r) (snd r) c) cl.

Inductive regex : Type :=
| Void : regex
| Eps : regex
| Class : class → regex
| Seq : regex → regex → regex
| Alt : regex → regex → regex
| Star : regex → regex.

Fixpoint nullable (r : regex) : bool :=
  match r with
  | Void => false
  | Eps => true
  | Class _ => false
  | Seq r1 r2 => nullable r1 && nullable r2
  | Alt r1 r2 => nullable r1 || nullable r2
  | Star _ => true
  end.

(** Constructors that absorb [Void] and [Eps], so that the derivative of
    a pattern that can no longer match is [Void] itself. *)
Definition seq (r1 r2 : regex) : regex :=
  match r1, r2 with
  | Void, _ => Void
  | _, Void => Void
  | Eps, _ => r2
  | _, Eps => r1
  | _, _ => Seq r1 r2
  end.

Definition alt (r1 r2 : regex) : regex :=
  match r1, r2 with
  | Void, _ => r2
  | _, Void => r1
  | _, _ => Alt r1 r2
  end.

(** Brzozowski derivative of [r] by the character [c]. *)
Fixpoint deriv (c : ascii) (r : regex) : regex :=
  match r with
  | Void => Void
  | Eps => Void
  | Class cl => if in_class cl c then Eps else Void
  | Seq r1 r2 =>
      if nullable r1
      then alt (seq (deriv c r1) r2) (deriv c r2)
      else seq (deriv c r1) r2
  | Alt r1 r2 => alt (deriv c r1) (deriv c r2)
  | Star r1 => seq (deriv c r1) (Star r1)
  end.

(** Whole-string match: the patterns of the code are all of the shape
    [^...$], without the multi-line flag, so both anchors pin the match
    to the two ends of the subject. *)
Fixpoint matches (r : regex) (s : string) : bool :=
  match s with
  | EmptyString => nullable r
  | String c s' => matches (deriv c r) s'
  end.

(** [r{lo,hi}] with [lo <= hi]: [lo] mandatory copies, then [hi - lo]
    optional ones. *)
Fixpoint optional_copies (r : regex) (n : nat) : regex :=
  match n with
  | O => Eps
  | S n' => Alt Eps (Seq r (optional_copies r n'))
  end.

Fixpoint copies (r : regex) (n : nat) (tail : regex) : regex :=
  match n with
  | O => tail
  | S n' => Seq r (copies r n' tail)
  end.

Definition repeat (r : regex) (lo hi : nat) : regex :=
  copies r lo (optional_copies r (hi - lo)).

(** [[0-7]] *)
Definition octal_digit : class := [("0"%char, "7"%char)].

(** [^[0-7]{3,4}$], the pattern of the module's mode assertion. *)
Definition octal_mode : regex := repeat (Class octal_digit) 3 4.

(** [[A-Z]] and [[A-Z0-9_]] *)
Definition upper : class := [("A"%char, "Z"%char)].
Definition upper_digit_underscore : class :=
  [("A"%char, "Z"%char); ("0"%char, "9"%char); ("_"%char, "_"%char)].

(** [^[A-Z][A-Z0-9_]*$] *)
Definition env_name : regex :=
  Seq (Class upper) (Star (Class upper_digit_underscore)).

End Regex.

(** ** The NixOS module [services.onepassword-secrets] *)

Module Nix.

(** [options.services.onepassword-secrets.secrets.<name>] *)
Record secretOptions : Type := {
  reference : string;
  path : option string;                (* nullOr str, default null *)
  symlinks : list string;
  variables : gmap string string;      (* attrsOf str *)
  owner : string;
  group : string;
  mode : string;
}.

(** [options.services.onepassword-secrets] *)
Record moduleConfig : Type := {
  enable : bool;
  tokenFile : string;
  configFiles : list string;           (* listOf path *)
  outputDir : string;
  users : list string;
  secrets : gmap string secretOptions; (* attrsOf submodule *)
  pathTemplate : option string;        (* nullOr str, default null *)
  defaults : gmap string string;
}.

(** The option defaults of the module. *)
Definition secretDefaults (ref : string) : secretOptions :=
  {| reference := ref; path := None; symlinks := []; variables := ∅;
     owner := "root"; group := "root"; mode := "0600" |}.

Definition optionDefaults : moduleConfig :=
  {| enable := false; tokenFile := "/etc/opnix-token"; configFiles := [];
     outputDir := "/var/lib/opnix/secrets"; users := []; secrets := ∅;
     pathTemplate := None; defaults := ∅ |}.

Definition opnixGroup : string := "onepassword-secrets".

(** [builtins.attrNames]: the names of an attribute set, sorted. *)
Definition attrNames {A} (m : gmap string A) : list string :=
  merge_sort String.le (elements (dom m)).

(** [lib.mapAttrsToList f attrs] *)
Definition mapAttrsToList {A B} (f : string → A → B) (m : gmap string A)
    : list B :=
  omap (λ name, f name <$> m !! name) (attrNames m).

(** [lib.mapAttrs f attrs] *)
Definition mapAttrs {A B} (f : string → A → B) (m : gmap string A)
    : gmap string B :=
  map_imap (λ name x, Some (f name x)) m.

(** [lib.optional cond x] *)
Definition optional {A} (cond : bool) (x : A) : list A :=
  if cond then [x] else [].

(** One entry of the [secrets] array of a manifest, as the module writes
    it: the entry carries a [path] and no separate name. *)
Record manifestSecret : Type := {
  ms_path : string;
  ms_reference : string;
  ms_owner : string;
  ms_group : string;
  ms_mode : string;
  ms_symlinks : list string;
  ms_variables : gmap string string;
}.

(** The JSON document handed to [builtins.toJSON]. *)
Record manifest : Type := {
  m_secrets : list manifestSecret;
  m_pathTemplate : option string;
  m_defaults : gmap string string;
}.

(** A configuration file of the unit: a path given by the user, or the
    store file [pkgs.writeText] makes of the declarative secrets. *)
Inductive configFile : Type :=
| UserFile (p : string)
| StoreFile (name : string) (content : manifest).

Definition hasMultipleConfigs (cfg : moduleConfig) : bool :=
  bool_decide (configFiles cfg ≠ []).

Definition hasDeclarativeSecrets (cfg : moduleConfig) : bool :=
  bool_decide (secrets cfg ≠ ∅).

Definition configCount (cfg : moduleConfig) : nat :=
  length (List.filter (λ x : bool, x)
            [hasMultipleConfigs cfg; hasDeclarativeSecrets cfg]).

Definition declarativeEntry (name : string) (secret : secretOptions)
    : manifestSecret :=
  {| ms_path := match path secret with
                | Some p => p
                | None => name
                end;
     ms_reference := reference secret;
     ms_owner := owner secret;
     ms_group := group secret;
     ms_mode := mode secret;
     ms_symlinks := symlinks secret;
     ms_variables := variables secret |}.

(** [declarativeConfigFile]: [null] when there is no declarative secret. *)
Definition declarativeConfigFile (cfg : moduleConfig) : option configFile :=
  if hasDeclarativeSecrets cfg
  then Some (StoreFile "opnix-declarative-secrets.json"
               {| m_secrets := mapAttrsToList declarativeEntry (secrets cfg);
                  m_pathTemplate := pathTemplate cfg;
                  m_defaults := defaults cfg |})
  else None.

(** [allConfigFiles]; [lib.filter (f: f != null)] is [omap id], which also
    strips the option. *)
Definition allConfigFiles (cfg : moduleConfig) : list configFile :=
  omap id ((Some ∘ UserFile <$> configFiles cfg)
           ++ optional (hasDeclarativeSecrets cfg) (declarativeConfigFile cfg)).

(** An element of [assertions]. *)
Record assertion_ : Type := {
  assertion : bool;
  message : string;
}.

(** [builtins.match "^[0-7]{3,4}$" secret.mode != null] *)
Definition modeAssertion (m : string) : bool :=
  Regex.matches Regex.octal_mode m.

Definition assertions (cfg : moduleConfig) : list assertion_ :=
  [ {| assertion := bool_decide (0 < configCount cfg);
       message :=
         "OpNix: At least one of configFiles or secrets must be specified" |} ]
  ++ mjoin (mapAttrsToList (λ name secret,
       [ {| assertion := modeAssertion (mode secret);
            message := "OpNix secret '" +:+ name +:+ "': mode '"
                       +:+ mode secret
                       +:+ "' is not a valid octal permission (e.g., 0644, 0600)"
         |} ]) (secrets cfg)).

(** One run of [opnix secret] in the unit's script: the three texts the
    module pastes, unquoted, into the command line of the run.  The words
    the shell makes of them, which are what the tool is started with, are
    those of [Script.arguments]. *)
Record invocation : Type := {
  inv_token_file : string;
  inv_config : configFile;
  inv_output : string;
}.

(** The steps of [systemd.services.opnix-secrets.script], in order. *)
Inductive scriptStep : Type :=
| EnsureOutputDir (dir : string)             (* mkdir -p; chmod 750 *)
| FixTokenOwnership (token grp : string)     (* chown root:grp; chmod 640 *)
| ExitUnlessTokenExists (token : string)     (* exit 0 *)
| ExitUnlessTokenReadable (token : string)   (* exit 1 *)
| ExitUnlessTokenNonEmpty (token : string)   (* exit 1 *)
| Echo (line : string)
| RunSecretTool (inv : invocation).

Definition configFileName (f : configFile) : string :=
  match f with
  | UserFile p => p
  | StoreFile name _ => name
  end.

(** [lib.concatMapStringsSep "\n" (configFile: ...) allConfigFiles]: for
    every configuration file an [echo] and a command line, with the texts
    pasted into it. *)
Definition secretToolRuns (cfg : moduleConfig) : list scriptStep :=
  allConfigFiles cfg ≫= λ f,
    [ Echo ("Processing config file: " +:+ configFileName f);
      RunSecretTool {| inv_token_file := tokenFile cfg;
                       inv_config := f;
                       inv_output := outputDir cfg |} ].

Definition script (cfg : moduleConfig) : list scriptStep :=
  [ EnsureOutputDir (outputDir cfg);
    FixTokenOwnership (tokenFile cfg) opnixGroup;
    ExitUnlessTokenExists (tokenFile cfg);
    ExitUnlessTokenReadable (tokenFile cfg);
    ExitUnlessTokenNonEmpty (tokenFile cfg) ]
  ++ secretToolRuns cfg.

(** The tool runs of a script, in the order the script makes them. *)
Definition invocations (steps : list scriptStep) : list invocation :=
  omap (λ st, match st with RunSecretTool inv => Some inv | _ => None end)
       steps.

(** [services.onepassword-secrets.secretPaths] *)
Definition secretPaths (cfg : moduleConfig) : gmap string string :=
  mapAttrs (λ name secret,
              match path secret with
              | Some p => p
              | None => outputDir cfg +:+ "/" +:+ name
              end) (secrets cfg).

(** What the module contributes to the system: nothing unless enabled
    ([lib.mkIf cfg.enable]). *)
Record moduleOutput : Type := {
  out_assertions : list assertion_;
  out_script : list scriptStep;
  out_secretPaths : gmap string string;
}.

Definition config (cfg : moduleConfig) : option moduleOutput :=
  if enable cfg
  then Some {| out_assertions := assertions cfg;
               out_script := script cfg;
               out_secretPaths := secretPaths cfg |}
  else None.

(** Evaluation of the system configuration: NixOS refuses to build a
    system one of whose assertions is false and reports the messages of
    the failed ones; then no unit and no script exist. *)
Inductive evaluation : Type :=
| Disabled
| Rejected (messages : list string)
| Built (steps : list scriptStep) (paths : gmap string string).

Definition failedAssertions (l : list assertion_) : list string :=
  message <$> List.filter (λ a, negb (assertion a)) l.

Definition evaluate (cfg : moduleConfig) : evaluation :=
  match config cfg with
  | None => Disabled
  | Some out =>
      match failedAssertions (out_assertions out) with
      | [] => Built (out_script out) (out_secretPaths out)
      | msgs => Rejected msgs
      end
  end.

End Nix.

(** ** Results *)

(** A Go pair [(value, error)] of which exactly one side is meaningful. *)
Inductive result (E A : Type) : Type :=
| Ok (a : A)
| Err (e : E).
Arguments Ok {E A} a.
Arguments Err {E A} e.

Definition is_ok {E A} (r : result E A) : bool :=
  match r with Ok _ => true | Err _ => false end.

(** ** The [opnix env] command *)

Module Env.

(** The error values of [internal/errors] the command builds, kept as
    the constructor calls that make them; [ResolverFailure] stands for
    whatever error a [secretResolver] returns. *)
#[warnings="-register-all"]
Inductive error : Type :=
| ResolverFailure (msg : string)
| ConfigError (operation msg : string) (cause : option error)
| ConfigValidationError (field value msg : string)
    (suggestions : list string)
| WrapWithSuggestions (err : error) (operation component : string)
    (suggestions : list string).

Definition isConfigValidationError (e : error) : bool :=
  match e with ConfigValidationError _ _ _ _ => true | _ => false end.

Record envVariable : Type := {
  Name : string;
  Reference : string;
  Value : string;
  Optional : bool;
  PreserveWhitespace : bool;
  Description : string;
}.

Record envConfig : Type := {
  Vars : list envVariable;
  Format : string;
}.

Definition shouldTrim (v : envVariable) : bool :=
  negb (PreserveWhitespace v).

Record envSkippedVariable : Type := {
  SkippedName : string;
  SkippedErr : error;
}.

Record envResult : Type := {
  Values : gmap string string;
  Skipped : list envSkippedVariable;
}.

(** The interface [secretResolver].  A resolver talks to a vault, so a
    call returns the resolver's next state together with its answer. *)
Class secretResolver (R : Type) : Type :=
  ResolveSecret : R → string → result error string * R.

(** [staticResolver] *)
Inductive staticResolver : Type := StaticResolver.

#[global] Instance static_secretResolver : secretResolver staticResolver :=
  λ r _, (Err (ResolverFailure "no 1Password client configured"), r).

Section Processor.

(** [strings.TrimSpace] of the Go library. *)
Context (TrimSpace : string → string).
Context {R : Type} {resolver : secretResolver R}.

Definition trimmed (v : envVariable) (s : string) : string :=
  if shouldTrim v then TrimSpace s else s.

Definition resolveVariable (p : R) (variable : envVariable) (index : nat)
    : result error string * R :=
  if string_nonempty (Reference variable) then
    match ResolveSecret p (Reference variable) with
    | (Err err, p') =>
        (Err (WrapWithSuggestions err
                ("Resolving secret for env var " +:+ Name variable)
                "environment variable resolution"
                [ "Check that the 1Password reference '"
                    +:+ Reference variable +:+ "' exists";
                  "Ensure the service account has access to the vault and item"
                ]), p')
    | (Ok value, p') => (Ok (trimmed variable value), p')
    end
  else if string_nonempty (Value variable) then
    (Ok (trimmed variable (Value variable)), p)
  else
    (Err (ConfigError
            ("Processing env variable at index " +:+ pretty index)
            "Variable must define either 'reference' or 'value'"
            None), p).

(** The loop of [Process] from index [i] on, over the variables still to
    visit, with the result built so far. *)
Fixpoint processFrom (p : R) (i : nat) (vars : list envVariable)
    (res : envResult) : result error envResult * R :=
  match vars with
  | [] => (Ok res, p)
  | variable :: rest =>
      match resolveVariable p variable i with
      | (Err err, p') =>
          if Optional variable
          then processFrom p' (S i) rest
                 {| Values := Values res;
                    Skipped := Skipped res ++
                      [ {| SkippedName := Name variable;
                           SkippedErr := err |} ] |}
          else (Err err, p')
      | (Ok value, p') =>
          processFrom p' (S i) rest
            {| Values := <[Name variable := value]> (Values res);
               Skipped := Skipped res |}
      end
  end.

(** [envProcessor.Process]; [cfg = None] is the nil pointer. *)
Definition Process (p : R) (cfg : option envConfig)
    : result error envResult * R :=
  match cfg with
  | None =>
      (Err (ConfigError "Processing environment configuration"
              "Environment configuration cannot be nil" None), p)
  | Some cfg =>
      processFrom p 0 (Vars cfg) {| Values := ∅; Skipped := [] |}
  end.

End Processor.

(** [envNamePattern.MatchString] *)
Definition envNamePattern (s : string) : bool :=
  Regex.matches Regex.env_name s.

Definition example_config_hint : string :=
  "Example: {" +:+ str1 ch_dquote +:+ "vars" +:+ str1 ch_dquote +:+ ": [{"
  +:+ str1 ch_dquote +:+ "name" +:+ str1 ch_dquote +:+ ": "
  +:+ str1 ch_dquote +:+ "API_TOKEN" +:+ str1 ch_dquote +:+ ", "
  +:+ str1 ch_dquote +:+ "reference" +:+ str1 ch_dquote +:+ ": "
  +:+ str1 ch_dquote +:+ "op://Vault/Item/token" +:+ str1 ch_dquote +:+ "}]}".

(** The checks [validateEnvConfig] makes on the variable at index [i]. *)
Definition validateVariable (i : nat) (variable : envVariable)
    : option error :=
  let fieldPrefix := "env.vars[" +:+ pretty i +:+ "]" in
  if negb (string_nonempty (Name variable)) then
    Some (ConfigValidationError (fieldPrefix +:+ ".name") "<empty>"
            "Environment variable name cannot be empty"
            [ "Provide a unique uppercase variable name";
              "Example: API_TOKEN" ])
  else if negb (envNamePattern (Name variable)) then
    Some (ConfigValidationError (fieldPrefix +:+ ".name") (Name variable)
            "Environment variable names must use uppercase letters, numbers, and underscores"
            [ "Start with an uppercase letter";
              "Use uppercase letters, digits, and underscores only";
              "Example: DATABASE_PASSWORD" ])
  else
    let hasReference := string_nonempty (Reference variable) in
    let hasValue := string_nonempty (Value variable) in
    if hasReference && hasValue then
      Some (ConfigValidationError fieldPrefix (Name variable)
              "Specify either 'reference' or 'value', not both"
              [ "Remove the 'value' field to use a 1Password reference";
                "Or remove the 'reference' field to use a static value" ])
    else if negb hasReference && negb hasValue then
      Some (ConfigValidationError fieldPrefix (Name variable)
              "Environment variable must define a 1Password reference or static value"
              [ "Add a 'reference': " +:+ str1 ch_dquote
                  +:+ "op://Vault/Item/field" +:+ str1 ch_dquote;
                "Or add a 'value' for static configuration" ])
    else None.

Fixpoint validateFrom (i : nat) (vars : list envVariable) : option error :=
  match vars with
  | [] => None
  | variable :: rest =>
      match validateVariable i variable with
      | Some err => Some err
      | None => validateFrom (S i) rest
      end
  end.

(** [validateEnvConfig]; [None] is the nil error. *)
Definition validateEnvConfig (cfg : envConfig) : option error :=
  match Vars cfg with
  | [] =>
      Some (ConfigValidationError "env.vars" "<empty>"
              "Environment configuration must define at least one variable"
              [ "Add variables under the 'vars' array"; example_config_hint ])
  | _ => validateFrom 0 (Vars cfg)
  end.

Definition isSupportedFormat (format : string) : bool :=
  bool_decide (format = "shell") || bool_decide (format = "dotenv")
  || bool_decide (format = "json").

(** [strings.ReplaceAll s old new] for a non-empty [old]: the leftmost
    occurrences, not overlapping.  [skip] counts the bytes of a matched
    occurrence still to drop.  Every call of the command passes a pattern
    of one byte; the empty pattern is not modelled and leaves [s] as is. *)
Fixpoint replaceFrom (skip : nat) (s old new : string) : string :=
  match s with
  | EmptyString => EmptyString
  | String c s' =>
      match skip with
      | S k => replaceFrom k s' old new
      | O =>
          if String.prefix old s
          then new +:+ replaceFrom (String.length old - 1) s' old new
          else String c (replaceFrom 0 s' old new)
      end
  end.

Definition ReplaceAll (s old new : string) : string :=
  match old with
  | EmptyString => s
  | _ => replaceFrom 0 s old new
  end.

(** [strings.ContainsAny s chars] for [chars] made of ASCII characters. *)
Definition ContainsAny (s chars : string) : bool :=
  string_existsb (λ c, string_existsb (λ d, bool_decide (c = d)) chars) s.

Definition shellQuote (value : string) : string :=
  if negb (string_nonempty value) then "''"
  else "'" +:+ ReplaceAll value "'"
                 ("'" +:+ str1 ch_dquote +:+ "'" +:+ str1 ch_dquote +:+ "'")
           +:+ "'".

Definition dotenvSpecials : string :=
  " #" +:+ str1 ch_dquote +:+ "'" +:+ str1 ch_newline +:+ str1 ch_return
  +:+ str1 ch_tab.

Definition dotenvValue (value : string) : string :=
  if negb (string_nonempty value) then ""
  else if ContainsAny value dotenvSpecials then
    let escaped := ReplaceAll value (str1 ch_backslash)
                     (str1 ch_backslash +:+ str1 ch_backslash) in
    let escaped := ReplaceAll escaped (str1 ch_dquote)
                     (str1 ch_backslash +:+ str1 ch_dquote) in
    let escaped := ReplaceAll escaped (str1 ch_newline)
                     (str1 ch_backslash +:+ "n") in
    let escaped := ReplaceAll escaped (str1 ch_return)
                     (str1 ch_backslash +:+ "r") in
    let escaped := ReplaceAll escaped (str1 ch_tab)
                     (str1 ch_backslash +:+ "t") in
    str1 ch_dquote +:+ escaped +:+ str1 ch_dquote
  else value.

(** [sort.Strings]: ascending in the byte-wise order of Go strings. *)
Definition sortStrings (keys : list string) : list string :=
  merge_sort String.le keys.

(** [values[key]]: the zero value for a key that is not there. *)
Definition index (values : gmap string string) (key : string) : string :=
  default "" (values !! key).

(** A [range] over a Go map visits every key once, in an order the
    language leaves open and that may differ from one loop to the next.
    The renderers take the order of their loop as an argument;
    [rangeOrder values order] says that [order] is one the loop can take. *)
Definition rangeOrder (values : gmap string string) (order : list string)
    : Prop :=
  order ≡ₚ (map_to_list values).*1.

Definition shellLine (values : gmap string string) (key : string) : string :=
  "export " +:+ key +:+ "=" +:+ shellQuote (index values key)
  +:+ str1 ch_newline.

Definition dotenvLine (values : gmap string string) (key : string) : string :=
  key +:+ "=" +:+ dotenvValue (index values key) +:+ str1 ch_newline.

(** [renderShell]: the keys are collected in range order and sorted, and
    one [Fprintf] per key appends to the builder. *)
Definition renderShell (order : list string) (values : gmap string string)
    : string :=
  let keys := sortStrings order in
  foldl (λ b key, b +:+ shellLine values key) "" keys.

Definition renderDotenv (order : list string) (values : gmap string string)
    : string :=
  let keys := sortStrings order in
  foldl (λ b key, b +:+ dotenvLine values key) "" keys.

End Env.

(** ** The configuration reference *)

Module Reference.

(** The options [systemdIntegration.errorHandling] of the configuration
    reference, with the defaults it documents. *)
Record errorHandling : Type := {
  rollbackOnFailure : bool;
  continueOnError : bool;
  maxRetries : nat;
}.

Definition errorHandlingDefaults : errorHandling :=
  {| rollbackOnFailure := false;
     continueOnError := true;
     maxRetries := 3 |}.

End Reference.

(** ** The deployment engine

    The sources at hand contain the callers of the engine (the unit script
    of the module runs [opnix secret]) and the documentation of its
    options, not the engine.  All of [Engine] is therefore written after
    the specification: sections 3 and 4 for the data and the components,
    section 4.7 for the orchestrator.

    What the model leaves out: symbolic links, parent directories, the
    ordering hints [after] of the notifier, and time (backoff intervals,
    the overall deadline).  The worker pool of section 5 appears as the
    freedom of the orchestrator to take the secrets in any order. *)

Module Engine.

(** *** Data model (section 3) *)

(** Modelled from the spec: the variant [ServiceAction] of section 9, absent
    from the sources. *)
Inductive ServiceAction : Type :=
| Simple (service : string)
| Detailed (service : string) (restart : bool) (signal : option string)
    (after : list string).

#[global] Instance ServiceAction_eq_dec : EqDecision ServiceAction.
Proof. solve_decision. Defined.

(** Modelled from the spec: the name of the service an action is about
    (section 9). *)
Definition serviceName (a : ServiceAction) : string :=
  match a with
  | Simple n => n
  | Detailed n _ _ _ => n
  end.

(** Modelled from the spec: [SecretSpec] of section 3, absent from the
    sources. *)
Record SecretSpec : Type := {
  name : string;
  reference : string;
  path : option string;
  owner : option string;
  group : option string;
  mode : option string;
  symlinks : list string;
  variables : gmap string string;
  services : list ServiceAction;
}.

#[global] Instance SecretSpec_eq_dec : EqDecision SecretSpec.
Proof. solve_decision. Defined.

(** Modelled from the spec: [SecretManifest] of section 3, absent from the
    sources. *)
Record SecretManifest : Type := {
  secrets : list SecretSpec;
  pathTemplate : option string;
  defaults : gmap string string;
}.

(** Modelled from the spec: the causes of a [ConfigError] section 4.1 lists,
    absent from the sources. *)
Inductive ConfigError : Type :=
| EmptyManifest
| EmptyName
| DuplicateSecret (secret : string)
| BadReference (secret ref : string)
| BadMode (secret mode_ : string)
| MissingVariable (variable : string)
| PathCollision (destination : string).

(** *** Manifest loader (section 4.1) *)

(** Modelled from the spec: expansion of the [{var}] placeholders of a path
    template, absent from the sources. [opened] holds the name read since an
    opening brace; a brace never closed stays as it is written. A
    placeholder without a value is the [ConfigError] that names it. *)
Fixpoint expandFrom (env : string → option string) (opened : option string)
    (s : string) : result ConfigError string :=
  match s with
  | EmptyString =>
      match opened with
      | None => Ok ""
      | Some v => Ok ("{" +:+ v)
      end
  | String c s' =>
      match opened with
      | None =>
          if bool_decide (c = "{"%char) then expandFrom env (Some "") s'
          else match expandFrom env None s' with
               | Ok r => Ok (String c r)
               | Err e => Err e
               end
      | Some v =>
          if bool_decide (c = "}"%char) then
            match env v with
            | None => Err (MissingVariable v)
            | Some x =>
                match expandFrom env None s' with
                | Ok r => Ok (x +:+ r)
                | Err e => Err e
                end
            end
          else expandFrom env (Some (v +:+ str1 c)) s'
      end
  end.

(** Modelled from the spec: expansion of a whole template, absent from the
    sources: [expandFrom] started outside a placeholder. *)
Definition expandTemplate (env : string → option string) (template : string)
    : result ConfigError string :=
  expandFrom env None template.

(** Modelled from the spec: the values a template can use are the secret's
    [variables], then the manifest's [defaults]; [{name}] is the secret's
    name (the specification's example uses it without binding it). *)
Definition templateEnv (defaults_ : gmap string string) (s : SecretSpec)
    (v : string) : option string :=
  match variables s !! v with
  | Some x => Some x
  | None =>
      match defaults_ !! v with
      | Some x => Some x
      | None => if bool_decide (v = "name") then Some (name s) else None
      end
  end.

(** Modelled from the spec: the destination of a secret: its explicit path,
    else the path template, else [outputDir/name]; placeholders of an
    explicit path are expanded as well. *)
Definition resolvePath (outputDir : string) (m : SecretManifest)
    (s : SecretSpec) : result ConfigError string :=
  match path s with
  | Some p => expandTemplate (templateEnv (defaults m) s) p
  | None =>
      match pathTemplate m with
      | Some t => expandTemplate (templateEnv (defaults m) s) t
      | None => Ok (outputDir +:+ "/" +:+ name s)
      end
  end.

(** Modelled from the spec: merging in file-list order. A name seen before
    is dropped when its spec is the same and is an error when it differs. *)
Fixpoint mergeSecrets (acc new : list SecretSpec)
    : result ConfigError (list SecretSpec) :=
  match new with
  | [] => Ok acc
  | s :: rest =>
      match List.find (λ t, bool_decide (name t = name s)) acc with
      | None => mergeSecrets (acc ++ [s]) rest
      | Some t =>
          if bool_decide (t = s) then mergeSecrets acc rest
          else Err (DuplicateSecret (name s))
      end
  end.

(** Modelled from the spec: merging of the manifests in file-list order,
    absent from the sources. The specification does not say how the
    templates and defaults of several manifests combine; the first template
    given and the defaults of the earlier manifest win. *)
Fixpoint mergeManifests (acc : SecretManifest) (ms : list SecretManifest)
    : result ConfigError SecretManifest :=
  match ms with
  | [] => Ok acc
  | m :: rest =>
      match mergeSecrets (secrets acc) (secrets m) with
      | Err e => Err e
      | Ok l =>
          mergeManifests
            {| secrets := l;
               pathTemplate := match pathTemplate acc with
                               | Some t => Some t
                               | None => pathTemplate m
                               end;
               defaults := defaults acc ∪ defaults m |} rest
      end
  end.

(** Modelled from the spec: the manifest the merge starts from, absent from
    the sources. *)
Definition emptyManifest : SecretManifest :=
  {| secrets := []; pathTemplate := None; defaults := ∅ |}.

(** Modelled from the spec: the vault locator grammar
    [scheme://vault/item/field]: a scheme without [:] or [/], then three
    non-empty segments without [/]. *)
Definition not_slash : Regex.class :=
  [("000"%char, "."%char); ("0"%char, "255"%char)].
(** Modelled from the spec: the characters of a scheme in the vault locator
    grammar: any but [:] and [/]. *)
Definition not_slash_colon : Regex.class :=
  [("000"%char, "."%char); ("0"%char, "9"%char); (";"%char, "255"%char)].
(** Modelled from the spec: a literal character of the vault locator
    grammar. *)
Definition lit (c : ascii) : Regex.regex := Regex.Class [(c, c)].
(** Modelled from the spec: one or more characters of a class, for the parts
    of a vault locator. *)
Definition plus (cl : Regex.class) : Regex.regex :=
  Regex.Seq (Regex.Class cl) (Regex.Star (Regex.Class cl)).
(** Modelled from the spec: the pattern of [scheme://vault/item/field]. *)
Definition locator : Regex.regex :=
  Regex.Seq (plus not_slash_colon)
    (Regex.Seq (lit ":") (Regex.Seq (lit "/") (Regex.Seq (lit "/")
      (Regex.Seq (plus not_slash) (Regex.Seq (lit "/")
        (Regex.Seq (plus not_slash) (Regex.Seq (lit "/")
          (plus not_slash)))))))).

(** Modelled from the spec: the check of [reference] against the vault
    locator grammar (section 4.1), absent from the sources. *)
Definition validReference (r : string) : bool := Regex.matches locator r.
(** Modelled from the spec: the check of [mode] against [^[0-7]{3,4}$]
    (sections 3 and 4.1) in the loader, absent from the sources. *)
Definition validMode (m : string) : bool :=
  Regex.matches Regex.octal_mode m.

(** Modelled from the spec: the per-secret checks of section 4.1. *)
Definition validateSpec (s : SecretSpec) : option ConfigError :=
  if negb (string_nonempty (name s)) then Some EmptyName
  else if negb (validReference (reference s))
  then Some (BadReference (name s) (reference s))
  else match mode s with
       | Some m => if validMode m then None else Some (BadMode (name s) m)
       | None => None
       end.

(** Modelled from the spec: the per-secret checks over the merged manifest,
    the first failure reported. *)
Fixpoint validateSpecs (l : list SecretSpec) : option ConfigError :=
  match l with
  | [] => None
  | s :: rest =>
      match validateSpec s with
      | Some e => Some e
      | None => validateSpecs rest
      end
  end.

(** Modelled from the spec: a secret of the validated, path-resolved
    manifest the loader returns (section 4.1): its spec and its destination. *)
Record Secret : Type := {
  spec : SecretSpec;
  dest : string;
}.

#[global] Instance Secret_eq_dec : EqDecision Secret.
Proof. solve_decision. Defined.

(** Modelled from the spec: resolution of every destination; two secrets
    with the same destination are a [ConfigError] (sections 3 and 4.1). *)
Fixpoint resolvePaths (outputDir : string) (m : SecretManifest)
    (done : list Secret) (l : list SecretSpec)
    : result ConfigError (list Secret) :=
  match l with
  | [] => Ok done
  | s :: rest =>
      match resolvePath outputDir m s with
      | Err e => Err e
      | Ok p =>
          if bool_decide (p ∈ dest <$> done) then Err (PathCollision p)
          else resolvePaths outputDir m (done ++ [ {| spec := s; dest := p |} ])
                 rest
      end
  end.

(** Modelled from the spec: the loader of section 4.1: merge, validate,
    resolve the destinations and reject collisions. It touches nothing but
    its arguments. *)
Definition load (outputDir : string) (sources : list SecretManifest)
    : result ConfigError (list Secret) :=
  match mergeManifests emptyManifest sources with
  | Err e => Err e
  | Ok m =>
      match secrets m with
      | [] => Err EmptyManifest
      | _ =>
          match validateSpecs (secrets m) with
          | Some e => Err e
          | None => resolvePaths outputDir m [] (secrets m)
          end
      end
  end.

(** *** Capabilities and persistent state (sections 3, 4.2, 4.3, 6) *)

(** Modelled from the spec: the failures of [resolve] (section 4.2). *)
Inductive ResolutionError : Type := NotFound | AuthDenied | Unavailable.

(** Modelled from the spec: the causes of a [FilesystemError] (section 7). *)
Inductive FilesystemError : Type :=
| PermissionDenied
| DiskExhausted
| SymlinkConflict (conflicting : string).

(** Modelled from the spec: what the notifier asks of a service (section
    4.6): restart, or a signal. *)
Inductive Action : Type := Restart | Signal (signal : string).

(** Modelled from the spec: a call of the service notification capability
    (section 6). *)
Record Notification : Type := {
  service : string;
  action : Action;
}.

(** Modelled from the spec: what the engine is given from outside: the
    resolver, asked for a reference at its n-th attempt; the failure, if
    any, of a change to the file at a path; the answer of the init system to
    a notification; the time of the run. *)
Record Capabilities : Type := {
  resolve : string → nat → result ResolutionError string;
  fault : string → option FilesystemError;
  notifyOk : Notification → bool;
  clock : nat;
}.

(** Modelled from the spec: [HashRecord] and the Hash Store of section 3,
    absent from the sources. *)
Record HashRecord : Type := {
  secretName : string;
  contentHash : string;
  lastAppliedAt : nat;
}.

(** Modelled from the spec: a file of the host: content, owner, group and
    mode (section 4.5). *)
Record File : Type := {
  content : string;
  fileOwner : option string;
  fileGroup : option string;
  fileMode : option string;
}.

(** Modelled from the spec: the status of a [DeploymentOutcome] (section 3). *)
Inductive Status : Type := Unchanged | Written | Failed | Skipped.

(** Modelled from the spec: why a secret is [Failed]: a [ResolutionError] or
    a [FilesystemError] (section 7). *)
Inductive Failure : Type :=
| ResolutionFailure (e : ResolutionError)
| FilesystemFailure (e : FilesystemError).

(** Modelled from the spec: [DeploymentOutcome] of section 3, absent from
    the sources. *)
Record DeploymentOutcome : Type := {
  outcomeOf : string;
  status : Status;
  failure : option Failure;
}.

(** Modelled from the spec: the states of the orchestrator (section 4.7);
    the terminal state [Failed] is [FailedRun] here. *)
Inductive Phase : Type :=
| Loading | Resolving | Writing | Committing | Notifying | Done
| FailedRun.

(** Modelled from the spec: what a run does to the world, in the order it
    does it: the atomic write of a secret, the restoring of a preserved
    copy, the commit of the Hash Store, a notification. *)
Inductive Event : Type :=
| WroteFile (secret destination bytes : string)
| Restored (destination : string)
| Committed (mapping : gmap string HashRecord)
| Notified (n : Notification).

(** Modelled from the spec: the classes of the change detector (section
    4.4); [Same] is the digest-identical case. *)
Inductive Classification : Type := New | Changed | Same.

(** Modelled from the spec: the exit contract of section 6. *)
Inductive RunStatus : Type := Success | PartialFailure | RunFailure.

(** Modelled from the spec: the state of a run. [disk] is the Hash Store
    file and [store] the mapping in memory; [fs] holds the files by path;
    [preserved] the copies kept for a rollback; [trace] the events so far. *)
Record State : Type := {
  phase : Phase;
  manifest : list Secret;
  pending : list Secret;
  resolved : list (Secret * string);
  outcomes : list DeploymentOutcome;
  store : gmap string HashRecord;
  disk : gmap string HashRecord;
  fs : gmap string File;
  preserved : list (string * option File);
  configError : option ConfigError;
  warnings : list Notification;
  trace : list Event;
}.

Section Orchestrator.

(** The cryptographic digest of the change detector. *)
Context (digest : string → string).
(** The policy, the output directory, the capabilities and the manifest
    sources of the run. *)
Context (policy : Reference.errorHandling) (outputDir : string).
Context (caps : Capabilities) (sources : list SecretManifest).

(** Modelled from the spec: section 4.2: [Unavailable] is tried again, at
    most [maxRetries] times; the other failures are final. *)
Fixpoint resolveWithRetry (ref : string) (attempt retries : nat)
    : result ResolutionError string :=
  match resolve caps ref attempt with
  | Ok b => Ok b
  | Err Unavailable =>
      match retries with
      | O => Err Unavailable
      | S k => resolveWithRetry ref (S attempt) k
      end
  | Err e => Err e
  end.

(** Modelled from the spec: resolution of a secret, retries included
    (sections 4.2 and 4.7). *)
Definition resolveSecret (s : Secret) : result ResolutionError string :=
  resolveWithRetry (reference (spec s)) 0 (Reference.maxRetries policy).

(** Modelled from the spec: the change detector of section 4.4. *)
Definition classify (st : gmap string HashRecord) (s : Secret)
    (bytes : string) : Classification :=
  match st !! name (spec s) with
  | None => New
  | Some r =>
      if bool_decide (contentHash r = digest bytes) then Same else Changed
  end.

(** Modelled from the spec: owner, group and mode applied again to a file
    whose content stays (sections 4.4 and 4.5). *)
Definition withAttributes (s : Secret) (f : File) : File :=
  {| content := content f;
     fileOwner := owner (spec s);
     fileGroup := group (spec s);
     fileMode := mode (spec s) |}.

(** Modelled from the spec: the file written for a secret: the resolved
    bytes with the owner, group and mode of the spec (section 4.5). *)
Definition newFile (s : Secret) (bytes : string) : File :=
  {| content := bytes;
     fileOwner := owner (spec s);
     fileGroup := group (spec s);
     fileMode := mode (spec s) |}.

(** Modelled from the spec: what the materializer made of one secret: its
    status, the files, the mapping in memory and the events. *)
Record Materialized : Type := {
  mat_status : Status;
  mat_fs : gmap string File;
  mat_store : gmap string HashRecord;
  mat_events : list Event;
}.

(** Modelled from the spec: the file materializer of section 4.5 on one
    secret.  A secret whose digest is the stored one keeps its content and
    has its attributes applied again.  A new or changed secret is written
    in one atomic step, and only then is its [HashRecord] made.  The fault
    of the destination, if there is one, fails the secret in both cases and
    leaves the destination and the store as they were. *)
Definition materialize (st : gmap string HashRecord) (files : gmap string File)
    (s : Secret) (bytes : string) : result FilesystemError Materialized :=
  match fault caps (dest s) with
  | Some e => Err e
  | None =>
      match classify st s bytes with
      | Same =>
          Ok {| mat_status := Unchanged;
                mat_fs := alter (withAttributes s) (dest s) files;
                mat_store := st;
                mat_events := [] |}
      | New | Changed =>
          Ok {| mat_status := Written;
                mat_fs := <[dest s := newFile s bytes]> files;
                mat_store :=
                  <[name (spec s) :=
                      {| secretName := name (spec s);
                         contentHash := digest bytes;
                         lastAppliedAt := clock caps |}]> st;
                mat_events := [WroteFile (name (spec s)) (dest s) bytes] |}
      end
  end.

(** Modelled from the spec: whether some secret is marked [Failed] (section
    4.7). *)
Definition hasFailed (l : list DeploymentOutcome) : bool :=
  existsb (λ o, match status o with Failed => true | _ => false end) l.

(** Modelled from the spec: whether the secret has been [Written] in this
    run (section 4.6). *)
Definition isWritten (l : list DeploymentOutcome) (s : Secret) : bool :=
  existsb (λ o, bool_decide (outcomeOf o = name (spec s))
                && match status o with Written => true | _ => false end) l.

(** Modelled from the spec: section 4.6: restart unless a signal is
    configured; a detailed entry that asks for neither is left alone. *)
Definition notificationOf (a : ServiceAction) : option Notification :=
  match a with
  | Simple n => Some {| service := n; action := Restart |}
  | Detailed n restart signal _ =>
      match signal with
      | Some sg => Some {| service := n; action := Signal sg |}
      | None =>
          if restart then Some {| service := n; action := Restart |}
          else None
      end
  end.

(** Modelled from the spec: one notification per service name, the first one
    met (section 4.6). *)
Fixpoint dedupServices (seen : list string) (l : list Notification)
    : list Notification :=
  match l with
  | [] => []
  | n :: rest =>
      if bool_decide (service n ∈ seen) then dedupServices seen rest
      else n :: dedupServices (service n :: seen) rest
  end.

(** Modelled from the spec: the services of the secrets written in this run,
    each once. *)
Definition notifications (m : list Secret) (l : list DeploymentOutcome)
    : list Notification :=
  dedupServices []
    (m ≫= λ s, if isWritten l s then omap notificationOf (services (spec s))
               else []).

(** Modelled from the spec: the worker pool of section 5 leaves the order of
    the secrets open: every way to take one element out of a list. *)
Fixpoint picks {A} (l : list A) : list (A * list A) :=
  match l with
  | [] => []
  | x :: rest => (x, rest) :: (prod_map id (cons x) <$> picks rest)
  end.

(** Modelled from the spec: the orchestrator is [Resolving] while a secret
    is still to resolve and [Writing] afterwards (section 4.7). *)
Definition workPhase (pending_ : list Secret) : Phase :=
  match pending_ with
  | [] => Writing
  | _ => Resolving
  end.

(** Modelled from the spec: the preserved copies put back (section 4.7,
    [rollbackOnFailure]); a destination that did not exist before the run is
    removed, which returns the files to their pre-run state. *)
Definition restore (saved : list (string * option File))
    (files : gmap string File) : gmap string File :=
  foldr (λ po acc, match po.2 with
                   | Some f => <[po.1 := f]> acc
                   | None => delete po.1 acc
                   end) files saved.

(** Modelled from the spec: the state a run starts in, on the Hash Store
    file and the files of the host. *)
Definition initial (disk_ : gmap string HashRecord) (files : gmap string File)
    : State :=
  {| phase := Loading; manifest := []; pending := []; resolved := [];
     outcomes := []; store := ∅; disk := disk_; fs := files;
     preserved := []; configError := None; warnings := []; trace := [] |}.

(** Modelled from the spec: Loading (sections 4.1, 4.3, 4.7, 7): a
    [ConfigError] ends the run before anything is touched. Otherwise the
    Hash Store is read once and, under [rollbackOnFailure], the previous
    content of every destination is kept. *)
Definition loadStep (st : State) : State :=
  match load outputDir sources with
  | Err e =>
      {| phase := FailedRun; manifest := manifest st; pending := pending st;
         resolved := resolved st; outcomes := outcomes st; store := store st;
         disk := disk st; fs := fs st; preserved := preserved st;
         configError := Some e; warnings := warnings st; trace := trace st |}
  | Ok m =>
      {| phase := workPhase m; manifest := m; pending := m;
         resolved := []; outcomes := []; store := disk st;
         disk := disk st; fs := fs st;
         preserved := if Reference.rollbackOnFailure policy
                      then (λ s, (dest s, fs st !! dest s)) <$> m
                      else [];
         configError := None; warnings := warnings st; trace := trace st |}
  end.

(** Modelled from the spec: the end of a run that failed (section 4.7):
    under [rollbackOnFailure] the kept copies are put back; the Hash Store
    file is not touched and nobody is notified. *)
Definition abort (st : State) : State :=
  {| phase := FailedRun; manifest := manifest st; pending := pending st;
     resolved := resolved st; outcomes := outcomes st; store := store st;
     disk := disk st;
     fs := if Reference.rollbackOnFailure policy
           then restore (preserved st) (fs st) else fs st;
     preserved := preserved st; configError := configError st;
     warnings := warnings st;
     trace := if Reference.rollbackOnFailure policy
              then trace st ++ (Restored ∘ fst <$> preserved st)
              else trace st |}.

(** Modelled from the spec: a secret that failed is marked [Failed]; the run
    goes on under [continueOnError] and is aborted otherwise (section 4.7). *)
Definition failSecret (st : State) (s : Secret) (why : Failure)
    (pending_ : list Secret) (resolved_ : list (Secret * string)) : State :=
  let marked :=
    {| phase := workPhase pending_; manifest := manifest st;
       pending := pending_; resolved := resolved_;
       outcomes := outcomes st ++
         [ {| outcomeOf := name (spec s); status := Failed;
              failure := Some why |} ];
       store := store st; disk := disk st; fs := fs st;
       preserved := preserved st; configError := configError st;
       warnings := warnings st; trace := trace st |} in
  if Reference.continueOnError policy then marked else abort marked.

(** Modelled from the spec: resolving the pending secret [s]; [rest] are the
    other pending ones. *)
Definition resolveStep (st : State) (pick : Secret * list Secret) : State :=
  let '(s, rest) := pick in
  match resolveSecret s with
  | Err e => failSecret st s (ResolutionFailure e) rest (resolved st)
  | Ok bytes =>
      {| phase := workPhase rest; manifest := manifest st; pending := rest;
         resolved := resolved st ++ [(s, bytes)]; outcomes := outcomes st;
         store := store st; disk := disk st; fs := fs st;
         preserved := preserved st; configError := configError st;
         warnings := warnings st; trace := trace st |}
  end.

(** Modelled from the spec: materializing the resolved secret [s]. *)
Definition writeStep (st : State)
    (pick : (Secret * string) * list (Secret * string)) : State :=
  let '((s, bytes), rest) := pick in
  match materialize (store st) (fs st) s bytes with
  | Err e => failSecret st s (FilesystemFailure e) (pending st) rest
  | Ok m =>
      {| phase := workPhase (pending st); manifest := manifest st;
         pending := pending st; resolved := rest;
         outcomes := outcomes st ++
           [ {| outcomeOf := name (spec s); status := mat_status m;
                failure := None |} ];
         store := mat_store m; disk := disk st; fs := mat_fs m;
         preserved := preserved st; configError := configError st;
         warnings := warnings st; trace := trace st ++ mat_events m |}
  end.

(** Modelled from the spec: the barrier after the last secret (sections 4.7
    and 5): a run with a failed secret is rolled back under
    [rollbackOnFailure]; otherwise the commit follows. *)
Definition finishStep (st : State) : State :=
  if hasFailed (outcomes st)
     && (Reference.rollbackOnFailure policy
         || negb (Reference.continueOnError policy))
  then abort st
  else
    {| phase := Committing; manifest := manifest st; pending := pending st;
       resolved := resolved st; outcomes := outcomes st; store := store st;
       disk := disk st; fs := fs st; preserved := preserved st;
       configError := configError st; warnings := warnings st;
       trace := trace st |}.

(** Modelled from the spec: [commit] (section 4.3): the mapping in memory
    replaces the Hash Store file. *)
Definition commitStep (st : State) : State :=
  {| phase := Notifying; manifest := manifest st; pending := pending st;
     resolved := resolved st; outcomes := outcomes st; store := store st;
     disk := store st; fs := fs st; preserved := preserved st;
     configError := configError st; warnings := warnings st;
     trace := trace st ++ [Committed (store st)] |}.

(** Modelled from the spec: the single pass of the notifier (section 4.6); a
    notification that fails becomes a warning (section 7). *)
Definition notifyStep (st : State) : State :=
  let ns := notifications (manifest st) (outcomes st) in
  {| phase := Done; manifest := manifest st; pending := pending st;
     resolved := resolved st; outcomes := outcomes st; store := store st;
     disk := disk st; fs := fs st; preserved := preserved st;
     configError := configError st;
     warnings := warnings st ++ List.filter (λ n, negb (notifyOk caps n)) ns;
     trace := trace st ++ (Notified <$> ns) |}.

(** Modelled from the spec: the state machine of section 4.7. The states a
    run can move to from [st]: while secrets are left, any pending one may
    be resolved and any resolved one materialized. *)
Definition next (st : State) : list State :=
  match phase st with
  | Loading => [loadStep st]
  | Resolving | Writing =>
      match pending st, resolved st with
      | [], [] => [finishStep st]
      | _, _ => (resolveStep st <$> picks (pending st))
                ++ (writeStep st <$> picks (resolved st))
      end
  | Committing => [commitStep st]
  | Notifying => [notifyStep st]
  | Done | FailedRun => []
  end.

(** Modelled from the spec: one move of the orchestrator. *)
Definition step (st st' : State) : Prop := st' ∈ next st.

(** Modelled from the spec: the states a run can be in. *)
Definition reachable (st0 st : State) : Prop := rtc step st0 st.

(** Modelled from the spec: the run under the schedule that always takes the
    first possible move. *)
Fixpoint run (fuel : nat) (st : State) : State :=
  match fuel with
  | O => st
  | S k =>
      match next st with
      | [] => st
      | st' :: _ => run k st'
      end
  end.

(** Modelled from the spec: the report of a finished run (section 6). *)
Definition overall (st : State) : option RunStatus :=
  match phase st with
  | Done => Some (if hasFailed (outcomes st) then PartialFailure else Success)
  | FailedRun => Some RunFailure
  | _ => None
  end.

(** Modelled from the spec: the number of commits among the events. *)
Definition commits (t : list Event) : nat :=
  length (List.filter (λ e, match e with Committed _ => true | _ => false end)
            t).

(** Modelled from the spec: the events that put content into a file. *)
Definition rewrites (t : list Event) : list Event :=
  List.filter (λ e, match e with
                    | WroteFile _ _ _ | Restored _ => true
                    | _ => false
                    end) t.

(** Modelled from the spec: the notifications among the events. *)
Definition notified (t : list Event) : list Notification :=
  omap (λ e, match e with Notified n => Some n | _ => None end) t.

End Orchestrator.

End Engine.


(** ** The command line: [run] and [handleError] *)

Module Cli.

Definition nl : string := str1 ch_newline.

(** A Go [error] as [run] and [handleError] look at it: a structured
    [*errors.OpnixError] with the text its [Error] method renders, an
    error made of a message, or an error that [fmt.Errorf] wraps with
    [%w] after a prefix.  Only the first has the dynamic type the type
    assertion of [handleError] asks for. *)
Inductive goError : Type :=
| OpnixError (rendered : string)
| PlainError (msg : string)
| Wrapped (prefix : string) (cause : goError).

(** [err.Error()] *)
Fixpoint Error (err : goError) : string :=
  match err with
  | OpnixError rendered => rendered
  | PlainError msg => msg
  | Wrapped prefix cause => prefix +:+ Error cause
  end.

(** [strings.Contains s substr] *)
Fixpoint Contains (s substr : string) : bool :=
  String.prefix substr s
  || match s with
     | EmptyString => false
     | String _ s' => Contains s' substr
     end.

(** What [printUsage] writes to the standard error; the list of commands
    it is given is not consulted. *)
Definition printUsage : string :=
  "Usage: opnix <command> [options]" +:+ nl +:+ nl
  +:+ "Available commands:" +:+ nl
  +:+ "  secret    Manage and retrieve secrets from 1Password" +:+ nl
  +:+ "  token     Manage the 1Password service account token" +:+ nl
  +:+ "  env       Resolve environment variables for development shells"
  +:+ nl +:+ nl
  +:+ "Use 'opnix <command> -h' for command-specific help" +:+ nl.

(** What [handleError] writes to the standard error; [None] is nil. *)
Definition handleError (err : option goError) : string :=
  match err with
  | None => ""
  | Some (OpnixError rendered) => rendered +:+ nl
  | Some err =>
      let errMsg := Error err in
      if Contains errMsg "no such file or directory" then
        "ERROR: File not found" +:+ nl
        +:+ "  " +:+ errMsg +:+ nl
        +:+ nl +:+ "  Suggestions:" +:+ nl
        +:+ "  1. Check the file path is correct" +:+ nl
        +:+ "  2. Verify the file exists: ls -la <path>" +:+ nl
      else if Contains errMsg "permission denied" then
        "ERROR: Permission denied" +:+ nl
        +:+ "  " +:+ errMsg +:+ nl
        +:+ nl +:+ "  Suggestions:" +:+ nl
        +:+ "  1. Check file/directory permissions" +:+ nl
        +:+ "  2. Run with appropriate privileges if needed" +:+ nl
      else
        "ERROR: " +:+ errMsg +:+ nl
  end.

Section Run.

(** Everything a command can read and change: its own fields, the file
    system, the terminal. *)
Context {W : Type}.

(** The interface [command]. *)
Record command : Type := {
  Name : string;
  Init : list string → W → option goError * W;
  Run : W → option goError * W;
}.

(** What a call of [run] leaves behind: the exit code, what [run]
    itself has written to the standard error, and the world. *)
Record exit : Type := {
  code : nat;
  report : string;
  world : W;
}.

(** The loop of [run] over the commands still to compare with the
    subcommand, and what follows the loop. *)
Fixpoint runFrom (cmds : list command) (subcommand : string)
    (rest : list string) (w : W) : exit :=
  match cmds with
  | [] =>
      {| code := 1;
         report := "Unknown command: " +:+ subcommand +:+ nl +:+ printUsage;
         world := w |}
  | cmd :: cmds' =>
      if bool_decide (Name cmd = subcommand) then
        match Init cmd rest w with
        | (Some err, w1) =>
            {| code := 1;
               report := handleError
                 (Some (Wrapped ("failed to initialize " +:+ Name cmd +:+ ": ")
                          err));
               world := w1 |}
        | (None, w1) =>
            match Run cmd w1 with
            | (Some err, w2) =>
                {| code := 1; report := handleError (Some err); world := w2 |}
            | (None, w2) => {| code := 0; report := ""; world := w2 |}
            end
        end
      else runFrom cmds' subcommand rest w
  end.

(** [run args cmds]; [args] is [os.Args], the program name first. *)
Definition run (args : list string) (cmds : list command) (w : W) : exit :=
  match args with
  | _ :: subcommand :: rest => runFrom cmds subcommand rest w
  | _ => {| code := 1; report := printUsage; world := w |}
  end.

End Run.

Arguments command : clear implicits.
Arguments exit : clear implicits.

End Cli.

(** ** The [opnix token] command *)

Module Token.

(** [tokenFileMode = 0600], and the [0755] of the directory. *)
Definition tokenFileMode : N := 6 * 64.
Definition directoryMode : N := 7 * 64 + 5 * 8 + 5.

(** The fields of [tokenCommand] that [Init] has filled in; [Run] calls
    [setToken] for the action [set]. *)
Record tokenCommand : Type := {
  path : string;
  action : string;
}.

(** The standard input: the bytes that can be read, and the error that
    ends them; [None] is [io.EOF]. *)
Record input : Type := {
  data : string;
  ending : option Cli.goError;
}.

(** The results of the successive calls [reader.ReadString('\n')] on the
    bytes [s], the bytes [line] being already read since the last
    delimiter: every line that ends with the delimiter, the delimiter
    included, and last the bytes that come after the last delimiter, which
    the reader returns together with the error that ends the input. *)
Fixpoint readStrings (line s : string) : list string * string :=
  match s with
  | EmptyString => ([], line)
  | String c s' =>
      if bool_decide (c = ch_newline) then
        let '(lines, last) := readStrings "" s' in
        ((line +:+ str1 c) :: lines, last)
      else readStrings (line +:+ str1 c) s'
  end.

(** What a call leaves behind: the error, the file system, and what has
    been written to the standard error. *)
Record outcome (F : Type) : Type := {
  err : option Cli.goError;
  files : F;
  stderr : string;
}.
Arguments err {F} o.
Arguments files {F} o.
Arguments stderr {F} o.

Section Os.

(** The file system, with [filepath.Dir], [os.MkdirAll], [os.WriteFile]
    and [strings.TrimSpace] of the Go library. *)
Context {F : Type}.
Context (Dir : string → string).
Context (MkdirAll : string → N → F → option Cli.goError * F).
Context (WriteFile : string → string → N → F → option Cli.goError * F).
Context (TrimSpace : string → string).

Definition prompt : string :=
  "Please paste your 1Password service account token (press Ctrl+D when done):"
  +:+ Cli.nl.

Definition setToken (t : tokenCommand) (stdin : input) (fs : F)
    : outcome F :=
  match MkdirAll (Dir (path t)) directoryMode fs with
  | (Some e, fs1) =>
      {| err := Some (Cli.Wrapped "failed to create directory: " e);
         files := fs1; stderr := "" |}
  | (None, fs1) =>
      (* the loop appends every line read without error to the builder;
         the call that returns the error ends it *)
      let token := foldl (λ b line, b +:+ line) ""
                         (readStrings "" (data stdin)).1 in
      match ending stdin with
      | Some e =>
          {| err := Some (Cli.Wrapped "error reading input: " e);
             files := fs1; stderr := prompt |}
      | None =>
          let tokenStr := TrimSpace token in
          if negb (string_nonempty tokenStr) then
            {| err := Some (Cli.PlainError "token cannot be empty");
               files := fs1; stderr := prompt |}
          else
            match WriteFile (path t) tokenStr tokenFileMode fs1 with
            | (Some e, fs2) =>
                {| err := Some (Cli.Wrapped "failed to write token file: " e);
                   files := fs2; stderr := prompt |}
            | (None, fs2) =>
                {| err := None; files := fs2;
                   stderr := prompt +:+ "Token successfully stored at "
                             +:+ path t +:+ Cli.nl |}
            end
      end
  end.

End Os.

End Token.

(** ** The [opnix env] command: [Run] and what it calls *)

Module EnvCommand.

(** An error of [os.Stat] or [os.ReadFile], of which the command asks
    only [os.IsNotExist]. *)
Inductive osError : Type :=
| NotExist
| OtherOsError (msg : string).

Definition IsNotExist (e : osError) : bool :=
  match e with NotExist => true | OtherOsError _ => false end.

(** The errors [Run] returns: those of [Env], [errors.FileOperationError]
    and the [fmt.Errorf] of [renderOutput]. *)
Inductive runError : Type :=
| EnvError (e : Env.error)
| FileOperationError (operation path msg : string) (cause : osError)
| UnknownFormat (format : string).

(** The fields of [envCommand] that [Run] reads. *)
Record envCommand (R : Type) : Type := {
  configPath : string;
  tokenFile : string;
  format : string;
  loadConfig : string → result runError Env.envConfig;
  newClient : string → result runError R;
}.
Arguments configPath {R} e.
Arguments tokenFile {R} e.
Arguments format {R} e.
Arguments loadConfig {R} e.
Arguments newClient {R} e.

(** The value of the interface [secretResolver] that [buildResolver]
    returns: a client, or the [staticResolver]. *)
Inductive builtResolver (R : Type) : Type :=
| Client (r : R)
| Static.
Arguments Client {R} r.
Arguments Static {R}.

#[global] Instance builtResolver_secretResolver {R : Type}
    {resolver : Env.secretResolver R} : Env.secretResolver (builtResolver R) :=
  λ b ref,
    match b with
    | Client r =>
        let '(answer, r') := Env.ResolveSecret r ref in (answer, Client r')
    | Static =>
        let '(answer, _) := Env.ResolveSecret Env.StaticResolver ref in
        (answer, Static)
    end.

(** What a call of [Run] leaves behind: the error, what has been printed,
    and the resolver, if one was built, in the state [Process] left it. *)
Record outcome (R : Type) : Type := {
  err : option runError;
  stdout : string;
  stderr : string;
  built : option (builtResolver R);
}.
Arguments err {R} o.
Arguments stdout {R} o.
Arguments stderr {R} o.
Arguments built {R} o.

Section Command.

(** [strings.TrimSpace], [strings.ToLower], [os.Stat], [os.ReadFile],
    [json.Unmarshal] into an [envConfig] and [json.MarshalIndent] of a map
    with the indent of two spaces; the text [%v] prints for an error; the
    order in which a [range] visits the keys of a map. *)
Context (TrimSpace ToLower : string → string).
Context (Stat : string → option osError).
Context (ReadFile : string → result osError string).
Context (Unmarshal : string → result Env.error Env.envConfig).
Context (MarshalIndent : gmap string string → result Env.error string).
Context (errorText : Env.error → string).
Context (range : gmap string string → list string).
Context {R : Type} {resolver : Env.secretResolver R}.

Definition validateConfigFile (e : envCommand R) : option runError :=
  match Stat (configPath e) with
  | Some err =>
      if IsNotExist err then
        Some (FileOperationError "Checking environment configuration file"
                (configPath e)
                "Environment configuration file does not exist" err)
      else
        Some (FileOperationError "Checking environment configuration file"
                (configPath e)
                "Failed to access environment configuration file" err)
  | None => None
  end.

(** The loop of [buildResolver] over the variables still to visit. *)
Fixpoint buildResolverFrom (e : envCommand R) (vars : list Env.envVariable)
    : result runError (builtResolver R) :=
  match vars with
  | [] => Ok Static
  | variable :: rest =>
      if string_nonempty (Env.Reference variable) then
        match newClient e (tokenFile e) with
        | Ok client => Ok (Client client)
        | Err err => Err err
        end
      else buildResolverFrom e rest
  end.

Definition buildResolver (e : envCommand R) (cfg : Env.envConfig)
    : result runError (builtResolver R) :=
  buildResolverFrom e (Env.Vars cfg).

Definition loadEnvConfig (path : string) : result runError Env.envConfig :=
  match ReadFile path with
  | Err err =>
      Err (FileOperationError "Loading environment configuration" path
             "Failed to read environment config file" err)
  | Ok data =>
      match Unmarshal data with
      | Err err =>
          Err (EnvError
                 (Env.ConfigError "Parsing environment configuration"
                    "Invalid JSON format in environment config file"
                    (Some err)))
      | Ok cfg =>
          match Env.validateEnvConfig cfg with
          | Some err => Err (EnvError err)
          | None => Ok cfg
          end
      end
  end.

Definition renderOutput (values : gmap string string) (format : string)
    : result runError string :=
  if bool_decide (format = "shell") then
    Ok (Env.renderShell (range values) values)
  else if bool_decide (format = "dotenv") then
    Ok (Env.renderDotenv (range values) values)
  else if bool_decide (format = "json") then
    match MarshalIndent values with
    | Err err =>
        Err (EnvError
               (Env.ConfigError "Rendering environment variables"
                  "Failed to marshal JSON output" (Some err)))
    | Ok data => Ok (data +:+ Cli.nl)
    end
  else Err (UnknownFormat format).

(** The format [Run] renders in: the flag, else the format of the
    configuration, else [shell]; in lower case. *)
Definition selectFormat (e : envCommand R) (cfg : Env.envConfig) : string :=
  ToLower (if string_nonempty (format e) then format e
           else if string_nonempty (Env.Format cfg) then Env.Format cfg
           else "shell").

(** The warnings [Run] prints for the skipped variables. *)
Definition warnings (skipped : list Env.envSkippedVariable) : string :=
  foldl (λ b s, b +:+ "WARNING: Skipped optional env var "
                  +:+ Env.SkippedName s +:+ ": "
                  +:+ errorText (Env.SkippedErr s) +:+ Cli.nl)
        "" skipped.

Definition failed (err : runError) (warned : string)
    (r : option (builtResolver R)) : outcome R :=
  {| err := Some err; stdout := ""; stderr := warned; built := r |}.

Definition Run (e : envCommand R) : outcome R :=
  match validateConfigFile e with
  | Some err => failed err "" None
  | None =>
      match loadConfig e (configPath e) with
      | Err err => failed err "" None
      | Ok cfg =>
          let format := selectFormat e cfg in
          if negb (Env.isSupportedFormat format) then
            failed (EnvError
                      (Env.ConfigValidationError "env.format" format
                         "Unsupported format specified"
                         [ "Use one of: shell, dotenv, json";
                           "Example: opnix env -format shell" ]))
                   "" None
          else
            match buildResolver e cfg with
            | Err err => failed err "" None
            | Ok r =>
                match Env.Process TrimSpace r (Some cfg) with
                | (Err err, r') => failed (EnvError err) "" (Some r')
                | (Ok result, r') =>
                    let warned := warnings (Env.Skipped result) in
                    match renderOutput (Env.Values result) format with
                    | Err err => failed err warned (Some r')
                    | Ok output =>
                        {| err := None; stdout := output; stderr := warned;
                           built := Some r' |}
                    end
                end
            end
      end
  end.

End Command.

End EnvCommand.

(** ** The unit script of the NixOS module, as a shell runs it

    The module pastes [outputDir], [tokenFile] and the configuration files
    into the text of the script as they are, without quotes, so the shell
    reads them as a part of its own syntax.  The model reads a pasted text
    only when it is a single plain word; for any other text the script is
    [Unread]: a blank splits the text into several words, and the other
    characters are quotes, expansions, patterns or operators of the shell. *)

Module Script.

(** The characters the shell takes as they are wherever they stand in a
    word: letters, digits and [/], [.], [_], [-]. *)
Definition plain (c : ascii) : bool :=
  ascii_between "a" "z" c || ascii_between "A" "Z" c
  || ascii_between "0" "9" c
  || bool_decide (c = "/"%char) || bool_decide (c = "."%char)
  || bool_decide (c = "_"%char) || bool_decide (c = "-"%char).

(** A text the shell reads as one word that is itself: not empty, made of
    plain characters, and not starting like an option. *)
Definition isWord (s : string) : bool :=
  match s with
  | EmptyString => false
  | String c _ => negb (bool_decide (c = "-"%char)) && string_forallb plain s
  end.

(** A text that stands for itself between double quotes, as the line of an
    [echo] does: plain characters, blanks and colons. *)
Definition isQuotable (s : string) : bool :=
  string_forallb (λ c, plain c || bool_decide (c = " "%char)
                       || bool_decide (c = ":"%char)) s.

(** An argument of a command: a word the script writes, or the path of a
    configuration file, which for the file the module makes is its path in
    the store. *)
Inductive argument : Type :=
| Word (w : string)
| PathOf (f : Nix.configFile).

(** The arguments the secret tool is started with by the command line
    [opnix secret -token-file T -config C -output O] of the script, when
    the three pasted texts are words.  A file of the store is pasted as
    [/nix/store/<hash>-<name>], a word when its name is one. *)
Definition arguments (inv : Nix.invocation) : option (list argument) :=
  if isWord (Nix.inv_token_file inv)
     && isWord (Nix.configFileName (Nix.inv_config inv))
     && isWord (Nix.inv_output inv)
  then Some [ Word "secret";
              Word "-token-file"; Word (Nix.inv_token_file inv);
              Word "-config"; PathOf (Nix.inv_config inv);
              Word "-output"; Word (Nix.inv_output inv) ]
  else None.

(** The external commands of the script, with their arguments. *)
Inductive extCommand : Type :=
| MkdirP (dir : string)
| Chmod (mode path : string)
| Chown (owner path : string)
| OpnixSecret (args : list argument).

(** What the script finds on the host: the answers of the tests [-f],
    [-r] and [-s] at the place where the script makes them, and the exit
    status of the [n]-th external command it runs. *)
Record host : Type := {
  isFile : string → bool;
  isReadable : string → bool;
  hasSize : string → bool;
  status : nat → extCommand → nat;
}.

(** The shell while it runs the script: the number of external commands
    run so far, the status of the last command, and the argument lists of
    the runs of the secret tool that have been started. *)
Record shell : Type := {
  count : nat;
  last : nat;
  toolRuns : list (list argument);
}.

(** The script goes on, or has come to an end with an exit status, or
    holds a text the model does not read. *)
Inductive progress : Type :=
| Running (sh : shell)
| Exited (exitStatus : nat) (sh : shell)
| Unread.

Definition started (c : extCommand) : list (list argument) :=
  match c with OpnixSecret args => [args] | _ => [] end.

Section Execute.

(** Whether the shell runs with [errexit] ([set -e]): a command that
    fails then ends the script with its status; without it the script
    goes on. *)
Context (errexit : bool) (h : host).

Definition command (c : extCommand) (sh : shell) : progress :=
  let s := status h (count sh) c in
  let sh' := {| count := S (count sh); last := s;
                toolRuns := toolRuns sh ++ started c |} in
  if errexit && negb (s =? 0) then Exited s sh' else Running sh'.

Fixpoint commands (cs : list extCommand) (sh : shell) : progress :=
  match cs with
  | [] => Running sh
  | c :: cs' =>
      match command c sh with
      | Running sh' => commands cs' sh'
      | other => other
      end
  end.

(** A command that always succeeds: [echo], or an [if] none of whose
    branches is taken. *)
Definition succeed (sh : shell) : shell :=
  {| count := count sh; last := 0; toolRuns := toolRuns sh |}.

Definition step (st : Nix.scriptStep) (sh : shell) : progress :=
  match st with
  | Nix.EnsureOutputDir dir =>
      if isWord dir then commands [MkdirP dir; Chmod "750" dir] sh
      else Unread
  | Nix.FixTokenOwnership token grp =>
      if isWord token && isWord grp then
        if isFile h token
        then commands [Chown ("root:" +:+ grp) token; Chmod "640" token] sh
        else Running (succeed sh)
      else Unread
  | Nix.ExitUnlessTokenExists token =>
      if isWord token then
        if negb (isFile h token) then Exited 0 (succeed sh)
        else Running (succeed sh)
      else Unread
  | Nix.ExitUnlessTokenReadable token =>
      if isWord token then
        if negb (isReadable h token) then Exited 1 (succeed sh)
        else Running (succeed sh)
      else Unread
  | Nix.ExitUnlessTokenNonEmpty token =>
      if isWord token then
        if negb (hasSize h token) then Exited 1 (succeed sh)
        else Running (succeed sh)
      else Unread
  | Nix.Echo line =>
      if isQuotable line then Running (succeed sh) else Unread
  | Nix.RunSecretTool inv =>
      match arguments inv with
      | Some args => commands [OpnixSecret args] sh
      | None => Unread
      end
  end.

Fixpoint steps (l : list Nix.scriptStep) (sh : shell) : progress :=
  match l with
  | [] => Running sh
  | st :: l' =>
      match step st sh with
      | Running sh' => steps l' sh'
      | other => other
      end
  end.

(** The exit status of the script and the argument lists of the tool runs
    it has started; a script that reaches its end exits with the status of
    its last command.  [None] for a script the model does not read. *)
Definition execute (l : list Nix.scriptStep)
    : option (nat * list (list argument)) :=
  match steps l {| count := 0; last := 0; toolRuns := [] |} with
  | Running sh => Some (last sh, toolRuns sh)
  | Exited s sh => Some (s, toolRuns sh)
  | Unread => None
  end.

End Execute.

End Script.
(** * Properties *)

(** ** What the patterns accept, stated without the matcher *)

Definition octalDigit (c : ascii) : Prop :=
  c ∈ ["0"; "1"; "2"; "3"; "4"; "5"; "6"; "7"]%char.

(** Three or four octal digits. *)
Definition OctalMode (m : string) : Prop :=
  (String.length m = 3 ∨ String.length m = 4)
  ∧ Forall octalDigit (list_ascii_of_string m).

Definition upperLetter (c : ascii) : Prop :=
  65 ≤ nat_of_ascii c ≤ 90.

Definition nameChar (c : ascii) : Prop :=
  upperLetter c ∨ 48 ≤ nat_of_ascii c ≤ 57 ∨ c = "_"%char.

(** An upper-case letter followed by upper-case letters, digits and
    underscores. *)
Definition EnvName (s : string) : Prop :=
  match s with
  | EmptyString => False
  | String c rest =>
      upperLetter c ∧ Forall nameChar (list_ascii_of_string rest)
  end.


(** ** Inputs the statements below are tried on *)

Definition dbpass_secret : Nix.secretOptions :=
  {| Nix.reference := "op://Homelab/Database/password";
     Nix.path := None; Nix.symlinks := [];
     Nix.variables := {["service" := "pg"]};
     Nix.owner := "root"; Nix.group := "root"; Nix.mode := "0644" |}.

(** The configuration of the specification's template example. *)
Definition templated_config : Nix.moduleConfig :=
  {| Nix.enable := true; Nix.tokenFile := "/etc/opnix-token";
     Nix.configFiles := []; Nix.outputDir := "/var/lib/opnix/secrets";
     Nix.users := []; Nix.secrets := {["dbpass" := dbpass_secret]};
     Nix.pathTemplate := Some "/etc/secrets/{service}/{name}";
     Nix.defaults := {["environment" := "prod"]} |}.

(** Two manifest files and a declarative secret. *)
Definition several_sources_config : Nix.moduleConfig :=
  {| Nix.enable := true; Nix.tokenFile := "/etc/opnix-token";
     Nix.configFiles := ["database-secrets.json"; "api-secrets.json"];
     Nix.outputDir := "/var/lib/opnix/secrets";
     Nix.users := []; Nix.secrets := {["dbpass" := dbpass_secret]};
     Nix.pathTemplate := None; Nix.defaults := ∅ |}.

(** Two manifests that give the secret [dbpass] different references. *)
Definition dbpass_spec (ref : string) : Engine.SecretSpec :=
  {| Engine.name := "dbpass"; Engine.reference := ref;
     Engine.path := None; Engine.owner := None; Engine.group := None;
     Engine.mode := Some "0644"; Engine.symlinks := [];
     Engine.variables := {["service" := "pg"]};
     Engine.services := [Engine.Simple "postgresql"] |}.



(** The manifest of the specification's template example. *)
Definition templated_manifest : Engine.SecretManifest :=
  {| Engine.secrets := [dbpass_spec "op://Homelab/Database/password"];
     Engine.pathTemplate := Some "/etc/secrets/{service}/{name}";
     Engine.defaults := {["environment" := "prod"]} |}.

(** ** Well-formed environment configurations *)

Definition ExactlyOneSource (v : Env.envVariable) : Prop :=
  (Env.Reference v ≠ "" ∧ Env.Value v = "")
  ∨ (Env.Reference v = "" ∧ Env.Value v ≠ "").

Definition WellFormedVariable (v : Env.envVariable) : Prop :=
  EnvName (Env.Name v) ∧ ExactlyOneSource v.

Definition WellFormedEnvConfig (cfg : Env.envConfig) : Prop :=
  Env.Vars cfg ≠ [] ∧ Forall WellFormedVariable (Env.Vars cfg).

Definition envVar (n ref val : string) (opt : bool) : Env.envVariable :=
  {| Env.Name := n; Env.Reference := ref; Env.Value := val;
     Env.Optional := opt; Env.PreserveWhitespace := false;
     Env.Description := "" |}.

(** A resolver for trying [Process]: it knows one reference and records
    the references it is asked for. *)
Definition loggingResolver : Env.secretResolver (list string) :=
  λ log ref,
    (if bool_decide (ref = "op://Homelab/API/token") then Ok "s3cr3t"
     else Err (Env.ResolverFailure "item not found"),
     log ++ [ref]).

(** The number of newline characters of a text, which is its number of
    lines when every line is terminated. *)
Fixpoint lineCount (s : string) : nat :=
  match s with
  | EmptyString => 0
  | String c s' => (if bool_decide (c = ch_newline) then 1 else 0)
                   + lineCount s'
  end.

Fixpoint concatStrings (l : list string) : string :=
  match l with
  | [] => ""
  | s :: rest => s +:+ concatStrings rest
  end.

Definition singleLine (s : string) : Prop := lineCount s = 0.

(** A value of two lines, and a map of three variables. *)
Definition multiline_values : gmap string string :=
  {["KEY" := "a" +:+ str1 ch_newline +:+ "b"]}.

Definition three_values : gmap string string :=
  <["B" := "x y"]> (<["A" := "it's"]> (<["C" := ""]> ∅)).

(** The template example with [service] bound nowhere. *)
Definition unbound_spec : Engine.SecretSpec :=
  {| Engine.name := "dbpass";
     Engine.reference := "op://Homelab/Database/password";
     Engine.path := None; Engine.owner := None; Engine.group := None;
     Engine.mode := Some "0644"; Engine.symlinks := [];
     Engine.variables := ∅;
     Engine.services := [Engine.Simple "postgresql"] |}.

Definition unbound_manifest : Engine.SecretManifest :=
  {| Engine.secrets := [unbound_spec];
     Engine.pathTemplate := Some "/etc/secrets/{service}/{name}";
     Engine.defaults := {["environment" := "prod"]} |}.

(** A text in which the brace [b] does not occur. *)
Definition noBrace (b : ascii) (s : string) : Prop :=
  string_forallb (λ c, negb (bool_decide (c = b))) s = true.

(** ** The moves of the orchestrator, one constructor per kind *)

Section Moves.

Context (digest : string → string).
Context (policy : Reference.errorHandling) (outputDir : string).
Context (caps : Engine.Capabilities) (sources : list Engine.SecretManifest).

Definition working (ph : Engine.Phase) : Prop :=
  ph = Engine.Resolving ∨ ph = Engine.Writing.

Definition committed (ph : Engine.Phase) : bool :=
  match ph with
  | Engine.Notifying | Engine.Done => true
  | _ => false
  end.

Inductive Move : Engine.State → Engine.State → Prop :=
| MoveLoad st :
    Engine.phase st = Engine.Loading →
    Move st (Engine.loadStep policy outputDir sources st)
| MoveResolve st s pre post :
    working (Engine.phase st) →
    Engine.pending st = pre ++ s :: post →
    Move st (Engine.resolveStep policy caps st (s, pre ++ post))
| MoveWrite st s bytes pre post :
    working (Engine.phase st) →
    Engine.resolved st = pre ++ (s, bytes) :: post →
    Move st (Engine.writeStep digest policy caps st ((s, bytes), pre ++ post))
| MoveFinish st :
    working (Engine.phase st) →
    Engine.pending st = [] →
    Engine.resolved st = [] →
    Move st (Engine.finishStep policy st)
| MoveCommit st :
    Engine.phase st = Engine.Committing →
    Move st (Engine.commitStep st)
| MoveNotify st :
    Engine.phase st = Engine.Notifying →
    Move st (Engine.notifyStep caps st).

(** A record of the store that is either inherited from the Hash Store
    file the run started with, or was made for a secret of the manifest
    when the bytes it digests were written to that secret's destination. *)
Definition backed (disk0 : gmap string Engine.HashRecord)
    (st : Engine.State) (n : string) (r : Engine.HashRecord) : Prop :=
  disk0 !! n = Some r
  ∨ ∃ s bytes,
      s ∈ Engine.manifest st
      ∧ Engine.name (Engine.spec s) = n
      ∧ Engine.secretName r = n
      ∧ Engine.WroteFile n (Engine.dest s) bytes ∈ Engine.trace st
      ∧ Engine.contentHash r = digest bytes.

(** Every secret of the manifest has been given an outcome. *)
Definition allMarked (st : Engine.State) : Prop :=
  ∀ s, s ∈ Engine.manifest st →
       ∃ o, o ∈ Engine.outcomes st
            ∧ Engine.outcomeOf o = Engine.name (Engine.spec s).

(** What holds of every state of a run started on the Hash Store file
    [disk0] and the files [fs0]. *)
Record Core (disk0 : gmap string Engine.HashRecord)
    (fs0 : gmap string Engine.File) (st : Engine.State) : Prop := {
  core_loading :
    Engine.phase st = Engine.Loading → st = Engine.initial disk0 fs0;
  core_commits :
    Engine.commits (Engine.trace st)
    = if committed (Engine.phase st) then 1 else 0;
  core_notified :
    Engine.phase st ≠ Engine.Done →
    Engine.notified (Engine.trace st) = [];
  core_disk :
    Engine.disk st
    = if committed (Engine.phase st) then Engine.store st
      else disk0;
  core_store :
    ∀ n r, Engine.store st !! n = Some r → backed disk0 st n r;
  core_barrier :
    Engine.phase st = Engine.Committing ∨ committed (Engine.phase st) = true →
    Engine.pending st = [] ∧ Engine.resolved st = [];
  core_cover :
    ∀ s, s ∈ Engine.manifest st →
         s ∈ Engine.pending st ∨ s ∈ (Engine.resolved st).*1
         ∨ ∃ o, o ∈ Engine.outcomes st
                ∧ Engine.outcomeOf o = Engine.name (Engine.spec s);
  core_pending :
    ∀ s, s ∈ Engine.pending st → s ∈ Engine.manifest st;
  core_resolved :
    ∀ s bytes, (s, bytes) ∈ Engine.resolved st →
               s ∈ Engine.manifest st
               ∧ Engine.resolveSecret policy caps s = Ok bytes;
  core_strict :
    Reference.continueOnError policy = false →
    Engine.hasFailed (Engine.outcomes st) = true →
    Engine.phase st = Engine.FailedRun;
}.

(** A secret is settled against a store [d] when another run has nothing
    to write for it: it does not resolve, or its destination fails, both of
    which mark a run as failed; or [d] holds the digest of the bytes it
    resolves to. *)
Definition settled (d : gmap string Engine.HashRecord) (failed : bool)
    (s : Engine.Secret) : Prop :=
  match Engine.resolveSecret policy caps s with
  | Err _ => failed = true
  | Ok bytes =>
      match Engine.fault caps (Engine.dest s) with
      | Some _ => failed = true
      | None =>
          ∃ r, d !! Engine.name (Engine.spec s) = Some r
               ∧ Engine.contentHash r = digest bytes
      end
  end.

(** What a run keeps true on its way to a commit. *)
Record Settling (st : Engine.State) : Prop := {
  settling_names :
    NoDup ((Engine.name ∘ Engine.spec) <$> Engine.manifest st);
  settling_manifest :
    ∀ m, Engine.load outputDir sources = Ok m →
         Engine.phase st ≠ Engine.Loading →
         Engine.manifest st = m;
  settling_each :
    ∀ s, s ∈ Engine.manifest st →
         s ∈ Engine.pending st ∨ s ∈ (Engine.resolved st).*1
         ∨ settled (Engine.store st)
             (Engine.hasFailed (Engine.outcomes st)) s;
  settling_policy :
    Engine.phase st = Engine.Committing ∨ committed (Engine.phase st) = true →
    Engine.hasFailed (Engine.outcomes st) = true →
    Reference.rollbackOnFailure policy = false
    ∧ Reference.continueOnError policy = true;
}.

(** What a run keeps true when it starts on a store [d] against which
    every secret of the manifest [m] is settled, over the files [files]. *)
Record Idle (d : gmap string Engine.HashRecord) (failed : bool)
    (files : gmap string Engine.File) (m : list Engine.Secret)
    (st : Engine.State) : Prop := {
  idle_store :
    Engine.phase st ≠ Engine.Loading →
    Engine.phase st ≠ Engine.FailedRun →
    Engine.store st = d;
  idle_rewrites : Engine.rewrites (Engine.trace st) = [];
  idle_notified : Engine.notified (Engine.trace st) = [];
  idle_outcomes :
    ∀ o, o ∈ Engine.outcomes st → Engine.status o ≠ Engine.Written;
  idle_failed :
    Engine.hasFailed (Engine.outcomes st) = true → failed = true;
  idle_content :
    ∀ p, Engine.content <$> Engine.fs st !! p
         = Engine.content <$> files !! p;
  idle_manifest :
    ∀ s, s ∈ Engine.manifest st → s ∈ m;
}.

End Moves.

(** ** Hosts *)

(** What a run leaves on a host, with the events of all the runs the
    host has seen. *)
Record Host : Type := {
  hostDisk : gmap string Engine.HashRecord;
  hostFiles : gmap string Engine.File;
  hostHistory : list Engine.Event;
}.

(** The hosts that runs of the engine produce from a host without a Hash
    Store: every run has its own policy, capabilities and manifest sources,
    and may end, or be cut short, in any state it can reach. *)
Inductive Installed (digest : string → string) : Host → Prop :=
| Pristine files :
    Installed digest
      {| hostDisk := ∅; hostFiles := files; hostHistory := [] |}
| AfterRun h policy outputDir caps sources st :
    Installed digest h →
    Engine.reachable digest policy outputDir caps sources
      (Engine.initial (hostDisk h) (hostFiles h)) st →
    Installed digest
      {| hostDisk := Engine.disk st; hostFiles := Engine.fs st;
         hostHistory := hostHistory h ++ Engine.trace st |}.

(** The record [r] of the secret [n] digests bytes that the events say
    were written for [n]. *)
Definition durable (digest : string → string) (history : list Engine.Event)
    (n : string) (r : Engine.HashRecord) : Prop :=
  ∃ destination bytes,
    Engine.WroteFile n destination bytes ∈ history
    ∧ Engine.contentHash r = digest bytes.

(** The file that stands at the destination of the secret [n] in the state
    [st] has the content the record [r] digests. *)
Definition onFile (digest : string → string) (st : Engine.State)
    (n : string) (r : Engine.HashRecord) : Prop :=
  ∃ s f,
    s ∈ Engine.manifest st
    ∧ Engine.name (Engine.spec s) = n
    ∧ Engine.fs st !! Engine.dest s = Some f
    ∧ Engine.contentHash r = digest (Engine.content f).

(** What a run started on the Hash Store file [disk0] keeps true of the
    files: no two secrets share a destination, and, unless the run has
    failed, every record of the mapping in memory is the one of [disk0] or
    has its content on file. *)
Record Kept (digest : string → string)
    (disk0 : gmap string Engine.HashRecord) (st : Engine.State) : Prop := {
  kept_dests : NoDup (Engine.dest <$> Engine.manifest st);
  kept_store :
    Engine.phase st ≠ Engine.FailedRun →
    ∀ n r, Engine.store st !! n = Some r →
           disk0 !! n = Some r ∨ onFile digest st n r;
}.

(** The content of the record [r] of [n] has once been on file: a run the
    host has seen was in a state that held [r] for [n] in its mapping
    while the file at the destination of [n] had the content [r]
    digests. *)
Definition onceOnFile (digest : string → string) (h : Host)
    (n : string) (r : Engine.HashRecord) : Prop :=
  ∃ h0 policy outputDir caps sources st,
    Installed digest h0
    ∧ Engine.reachable digest policy outputDir caps sources
        (Engine.initial (hostDisk h0) (hostFiles h0)) st
    ∧ (hostHistory h0 ++ Engine.trace st) `prefix_of` hostHistory h
    ∧ Engine.store st !! n = Some r
    ∧ onFile digest st n r.

(** ** A small deployment to try the orchestrator on *)

Definition secret_of (n ref svc : string) : Engine.SecretSpec :=
  {| Engine.name := n; Engine.reference := ref;
     Engine.path := None; Engine.owner := Some "root";
     Engine.group := Some "root"; Engine.mode := Some "0600";
     Engine.symlinks := [];
     Engine.variables := {["service" := svc]};
     Engine.services := [Engine.Simple svc] |}.

Definition two_secrets_manifest : Engine.SecretManifest :=
  {| Engine.secrets :=
       [ secret_of "dbpass" "op://Homelab/Database/password" "pg";
         secret_of "apikey" "op://Homelab/API/token" "web" ];
     Engine.pathTemplate := Some "/etc/secrets/{service}/{name}";
     Engine.defaults := {["environment" := "prod"]} |}.

(** A vault that answers every reference, on a healthy file system. *)
Definition healthy : Engine.Capabilities :=
  {| Engine.resolve := λ ref _, Ok ("value of " +:+ ref);
     Engine.fault := λ _, None;
     Engine.notifyOk := λ _, true;
     Engine.clock := 42 |}.

(** The same vault when the destination of [apikey] cannot be written. *)
Definition disk_full : Engine.Capabilities :=
  {| Engine.resolve := λ ref _, Ok ("value of " +:+ ref);
     Engine.fault := λ p, if bool_decide (p = "/etc/secrets/web/apikey")
                          then Some Engine.DiskExhausted else None;
     Engine.notifyOk := λ _, true;
     Engine.clock := 42 |}.

Definition strict_policy : Reference.errorHandling :=
  {| Reference.rollbackOnFailure := false;
     Reference.continueOnError := false;
     Reference.maxRetries := 3 |}.

(** A stand-in for the digest; the statements hold for any function. *)
Definition toy_digest (bytes : string) : string := "digest of " +:+ bytes.

(** ** Quoting, read back *)

(** The text [f] gives for each character of [s], joined. *)
Fixpoint escapeWith (f : ascii → string) (s : string) : string :=
  match s with
  | EmptyString => EmptyString
  | String c s' => f c +:+ escapeWith f s'
  end.

(** A single quote becomes [' " ' " '] (close the quotes, a single quote
    between double quotes, open the quotes again); any other character
    stays. *)
Definition shellEscape (c : ascii) : string :=
  if bool_decide (c = ch_squote)
  then "'" +:+ str1 ch_dquote +:+ "'" +:+ str1 ch_dquote +:+ "'"
  else str1 c.

(** The five characters that get a backslash escape between the double
    quotes of a dotenv value. *)
Definition dotenvEscape (c : ascii) : string :=
  if bool_decide (c = ch_backslash) then str1 ch_backslash +:+ str1 ch_backslash
  else if bool_decide (c = ch_dquote) then str1 ch_backslash +:+ str1 ch_dquote
  else if bool_decide (c = ch_newline) then str1 ch_backslash +:+ "n"
  else if bool_decide (c = ch_return) then str1 ch_backslash +:+ "r"
  else if bool_decide (c = ch_tab) then str1 ch_backslash +:+ "t"
  else str1 c.

(** How a shell reads a word made of quoted parts, after the quoting rules
    of POSIX (Shell Command Language, 2.2.2 and 2.2.3): between single
    quotes every character stands for itself; between double quotes every
    character other than [$], [`], [\] and the double quote stands for
    itself; the parts are joined.  [None] for a word outside this
    fragment: an unquoted part, an escape or an expansion between double
    quotes, a quote left open.  This is the reading the development shell
    gives a word of the output of [opnix env -format shell] when it
    evaluates it; what it evaluates is not the output itself but what
    [commandSubstitution] keeps of it. *)
Inductive quoting : Type := Unquoted | SingleQuoted | DoubleQuoted.

Fixpoint readWord (q : quoting) (s : string) : option string :=
  match s with
  | EmptyString =>
      match q with Unquoted => Some EmptyString | _ => None end
  | String c s' =>
      match q with
      | Unquoted =>
          if bool_decide (c = ch_squote) then readWord SingleQuoted s'
          else if bool_decide (c = ch_dquote) then readWord DoubleQuoted s'
          else None
      | SingleQuoted =>
          if bool_decide (c = ch_squote) then readWord Unquoted s'
          else String c <$> readWord SingleQuoted s'
      | DoubleQuoted =>
          if bool_decide (c = ch_dquote) then readWord Unquoted s'
          else if bool_decide (c = "$"%char) || bool_decide (c = "`"%char)
                  || bool_decide (c = ch_backslash)
          then None
          else String c <$> readWord DoubleQuoted s'
      end
  end.

(** The development shell takes the output of [opnix env -format shell]
    through a command substitution, [output="$(opnix env ...)"], before it
    evaluates it.  The shell, which is bash, drops the NUL bytes of the
    output and removes every newline at its end. *)
Definition ch_nul : ascii := "000"%char.

Fixpoint dropNUL (s : string) : string :=
  match s with
  | EmptyString => EmptyString
  | String c s' =>
      if bool_decide (c = ch_nul) then dropNUL s' else String c (dropNUL s')
  end.

Fixpoint stripNewlines (s : string) : string :=
  match s with
  | EmptyString => EmptyString
  | String c s' =>
      match stripNewlines s' with
      | EmptyString =>
          if bool_decide (c = ch_newline) then EmptyString else str1 c
      | rest => String c rest
      end
  end.

Definition commandSubstitution (s : string) : string :=
  stripNewlines (dropNUL s).

(** The value has no NUL byte. *)
Definition noNUL (s : string) : bool :=
  string_forallb (λ c, negb (bool_decide (c = ch_nul))) s.

(** The line of the output for [key], as the development shell receives
    it. *)
Definition substitutedLine (values : gmap string string) (key : string)
    : string :=
  "export " +:+ dropNUL key +:+ "="
  +:+ dropNUL (Env.shellQuote (Env.index values key)) +:+ str1 ch_newline.

(** The text up to the closing double quote, with the five escapes
    undone; [escaped] says that the character before was a backslash. *)
Fixpoint unescape (escaped : bool) (s : string) : string :=
  match s with
  | EmptyString => EmptyString
  | String c s' =>
      if escaped then
        String (if bool_decide (c = "n"%char) then ch_newline
                else if bool_decide (c = "r"%char) then ch_return
                else if bool_decide (c = "t"%char) then ch_tab
                else c)
               (unescape false s')
      else if bool_decide (c = ch_backslash) then unescape true s'
      else if bool_decide (c = ch_dquote) then EmptyString
      else String c (unescape false s')
  end.

(** A value of a dotenv line, read back. *)
Definition dotenvRead (s : string) : string :=
  match s with
  | EmptyString => EmptyString
  | String c s' => if bool_decide (c = ch_dquote) then unescape false s' else s
  end.

(** ** Variables of an environment configuration *)

(** A variable with a static value and no reference. *)
Definition StaticVariable (v : Env.envVariable) : Prop :=
  Env.Reference v = "" ∧ Env.Value v ≠ "".

(** The last variable of the list with the name [name]. *)
Definition lastNamed (name : string) (vars : list Env.envVariable)
    : option Env.envVariable :=
  last (List.filter (λ v, bool_decide (Env.Name v = name)) vars).

(** The error [resolveVariable] makes of the resolver's error [cause] for
    the variable [v]. *)
Definition resolutionFailure (v : Env.envVariable) (cause : Env.error)
    : Env.error :=
  Env.WrapWithSuggestions cause
    ("Resolving secret for env var " +:+ Env.Name v)
    "environment variable resolution"
    [ "Check that the 1Password reference '" +:+ Env.Reference v
        +:+ "' exists";
      "Ensure the service account has access to the vault and item" ].

(** A text without a newline in it ends no line; [endsLine] says that a
    text is empty or ends with a newline. *)
Fixpoint endsLine (s : string) : bool :=
  match s with
  | EmptyString => true
  | String c EmptyString => bool_decide (c = ch_newline)
  | String _ s' => endsLine s'
  end.

(** ** Further inputs *)

(** Leading and trailing blanks and newlines removed: [strings.TrimSpace]
    on texts of letters, digits, blanks and newlines. *)
Fixpoint trimLeft (s : string) : string :=
  match s with
  | String c s' =>
      if bool_decide (c = " "%char) || bool_decide (c = ch_newline)
      then trimLeft s' else s
  | EmptyString => EmptyString
  end.

Fixpoint trimRight (s : string) : string :=
  match s with
  | EmptyString => EmptyString
  | String c s' =>
      match trimRight s' with
      | EmptyString =>
          if bool_decide (c = " "%char) || bool_decide (c = ch_newline)
          then EmptyString else String c EmptyString
      | t => String c t
      end
  end.

Definition trimBlanks (s : string) : string := trimRight (trimLeft s).

(** A file system that keeps the calls made on it and lets them succeed. *)
Inductive fsCall : Type :=
| MadeDir (dir : string) (mode : N)
| Wrote (path content : string) (mode : N).

Definition recordMkdirAll (dir : string) (mode : N) (fs : list fsCall)
    : option Cli.goError * list fsCall :=
  (None, fs ++ [MadeDir dir mode]).

Definition recordWriteFile (path content : string) (mode : N)
    (fs : list fsCall) : option Cli.goError * list fsCall :=
  (None, fs ++ [Wrote path content mode]).

(** The directory of the default token path. *)
Definition etcDir (p : string) : string := "/etc".

(** Two commands that count their calls in the world. *)
Definition countingCommand (name : string) (fails : bool)
    : Cli.command (list string) :=
  {| Cli.Name := name;
     Cli.Init := λ args w, (None, w ++ ["init " +:+ name]);
     Cli.Run := λ w,
       (if fails then Some (Cli.PlainError "open x: permission denied")
        else None, w ++ ["run " +:+ name]) |}.

(** A host with a token in place and every command succeeding, and one
    without a token file. *)
Definition readyHost : Script.host :=
  {| Script.isFile := λ _, true; Script.isReadable := λ _, true;
     Script.hasSize := λ _, true; Script.status := λ _ _, 0 |}.

Definition freshHost : Script.host :=
  {| Script.isFile := λ _, false; Script.isReadable := λ _, false;
     Script.hasSize := λ _, false; Script.status := λ _ _, 0 |}.

(** A configuration of static values, one name given twice. *)
Definition static_config : Env.envConfig :=
  {| Env.Vars := [ envVar "STAGE" "" " dev " false;
                   envVar "REGION" "" "eu" false;
                   envVar "STAGE" "" "prod" false ];
     Env.Format := "dotenv" |}.

(** A configuration with a reference the [loggingResolver] knows and an
    optional one it does not know. *)
Definition mixed_config : Env.envConfig :=
  {| Env.Vars := [ envVar "API_TOKEN" "op://Homelab/API/token" "" false;
                   envVar "DB_PASSWORD" "op://Homelab/Database/password" ""
                     true;
                   envVar "STAGE" "" "dev" false ];
     Env.Format := "" |}.

(** A configuration whose reference the [loggingResolver] does not know. *)
Definition failing_config : Env.envConfig :=
  {| Env.Vars := [ envVar "STAGE" "" "dev" false;
                   envVar "DB_PASSWORD" "op://Homelab/Database/password" ""
                     false ];
     Env.Format := "" |}.

(** ** The messages of the module and the guards of its script *)

Definition noSourceMessage : string :=
  "OpNix: At least one of configFiles or secrets must be specified".

Definition modeMessage (name mode : string) : string :=
  "OpNix secret '" +:+ name +:+ "': mode '" +:+ mode
  +:+ "' is not a valid octal permission (e.g., 0644, 0600)".

(** The model reads the step [st]: the texts pasted into it are words. *)
Definition readable (st : Nix.scriptStep) : bool :=
  match st with
  | Nix.EnsureOutputDir dir => Script.isWord dir
  | Nix.FixTokenOwnership token grp =>
      Script.isWord token && Script.isWord grp
  | Nix.ExitUnlessTokenExists token
  | Nix.ExitUnlessTokenReadable token
  | Nix.ExitUnlessTokenNonEmpty token => Script.isWord token
  | Nix.Echo line => Script.isQuotable line
  | Nix.RunSecretTool inv => bool_decide (is_Some (Script.arguments inv))
  end.

(** The argument lists of the tool runs of a script the model reads. *)
Definition toolArguments (steps : list Nix.scriptStep)
    : list (list Script.argument) :=
  omap Script.arguments (Nix.invocations steps).

(** The command line the script holds for the configuration file [f]. *)
Definition commandLine (cfg : Nix.moduleConfig) (f : Nix.configFile)
    : list Script.argument :=
  [ Script.Word "secret";
    Script.Word "-token-file"; Script.Word (Nix.tokenFile cfg);
    Script.Word "-config"; Script.PathOf f;
    Script.Word "-output"; Script.Word (Nix.outputDir cfg) ].

(** The paths of the configuration are single plain words. *)
Definition plainPaths (cfg : Nix.moduleConfig) : Prop :=
  Script.isWord (Nix.tokenFile cfg) = true
  ∧ Script.isWord (Nix.outputDir cfg) = true
  ∧ Forall (λ p, Script.isWord p = true) (Nix.configFiles cfg).

(** The host lets the script go past the step [st]. *)
Definition passes (h : Script.host) (st : Nix.scriptStep) : Prop :=
  match st with
  | Nix.ExitUnlessTokenExists token => Script.isFile h token = true
  | Nix.ExitUnlessTokenReadable token => Script.isReadable h token = true
  | Nix.ExitUnlessTokenNonEmpty token => Script.hasSize h token = true
  | _ => True
  end.

(** The step [st] is a guard that ends the script with the status [s]. *)
Definition stops (h : Script.host) (st : Nix.scriptStep) (s : nat) : Prop :=
  match st with
  | Nix.ExitUnlessTokenExists token => Script.isFile h token = false ∧ s = 0
  | Nix.ExitUnlessTokenReadable token =>
      Script.isReadable h token = false ∧ s = 1
  | Nix.ExitUnlessTokenNonEmpty token =>
      Script.hasSize h token = false ∧ s = 1
  | _ => False
  end.

(** What [Process] makes of [mixed_config] with the [loggingResolver]. *)
Definition mixed_result : Env.envResult :=
  {| Env.Values := <["STAGE" := "dev"]> (<["API_TOKEN" := "s3cr3t"]> ∅);
     Env.Skipped :=
       [ {| Env.SkippedName := "DB_PASSWORD";
            Env.SkippedErr :=
              resolutionFailure
                (envVar "DB_PASSWORD" "op://Homelab/Database/password" ""
                   true)
                (Env.ResolverFailure "item not found") |} ] |}.

(** Commands that load the configurations above; the first cannot make a
    client. *)
Definition static_command : EnvCommand.envCommand (list string) :=
  {| EnvCommand.configPath := "opnix-env.json";
     EnvCommand.tokenFile := "/etc/opnix-token";
     EnvCommand.format := "";
     EnvCommand.loadConfig := λ _, Ok static_config;
     EnvCommand.newClient := λ _,
       Err (EnvCommand.FileOperationError "Reading token file"
              "/etc/opnix-token" "Failed to read token file"
              EnvCommand.NotExist) |}.

Definition mixed_command : EnvCommand.envCommand (list string) :=
  {| EnvCommand.configPath := "opnix-env.json";
     EnvCommand.tokenFile := "/etc/opnix-token";
     EnvCommand.format := "SHELL";
     EnvCommand.loadConfig := λ _, Ok mixed_config;
     EnvCommand.newClient := λ _, Ok [] |}.

(** Lower case for the formats tried here. *)
Definition lowerFormat (s : string) : string :=
  if bool_decide (s = "SHELL") then "shell" else s.

(** A token pasted with a second line that no newline ends. *)
Definition pasted_token : Token.input :=
  {| Token.data := "ops_abc" +:+ str1 ch_newline +:+ "xyz";
     Token.ending := None |}.

Definition set_token : Token.tokenCommand :=
  {| Token.path := "/etc/opnix-token"; Token.action := "set" |}.

(** A name in lower case after a well-formed variable. *)
Definition lower_case_name : Env.envVariable :=
  envVar "db_password" "" "hunter2" false.

(** A command with the loader [loadEnvConfig], on a file that holds
    [failing_config]. *)
Definition default_loader_command : EnvCommand.envCommand (list string) :=
  {| EnvCommand.configPath := "opnix-env.json";
     EnvCommand.tokenFile := "/etc/opnix-token";
     EnvCommand.format := "";
     EnvCommand.loadConfig :=
       EnvCommand.loadEnvConfig (λ _, Ok "{}") (λ _, Ok failing_config);
     EnvCommand.newClient := λ _, Ok [] |}.
(** ** Lemmas on the matcher *)

Local Arguments Regex.in_class : simpl never.

Lemma matches_Void s : Regex.matches Regex.Void s = false.
Proof. induction s as [|c s IH]; [done|]. simpl. exact IH. Qed.

Lemma matches_Eps s :
  Regex.matches Regex.Eps s = negb (string_nonempty s).
Proof. destruct s as [|c s]; [done|]. simpl. apply matches_Void. Qed.

Lemma matches_Star_Class cl s :
  Regex.matches (Regex.Star (Regex.Class cl)) s
  = string_forallb (Regex.in_class cl) s.
Proof.
  induction s as [|c s IH]; [done|].
  simpl. destruct (Regex.in_class cl c); simpl.
  - exact IH.
  - apply matches_Void.
Qed.

Lemma string_forallb_Forall (p : ascii → bool) (P : ascii → Prop) s :
  (∀ c, p c = true ↔ P c) →
  string_forallb p s = true ↔ Forall P (list_ascii_of_string s).
Proof.
  intros Hp. induction s as [|c s IH]; simpl.
  - split; [constructor|done].
  - rewrite andb_true_iff, Forall_cons, IH, Hp. done.
Qed.

Lemma in_class_octal c :
  Regex.in_class Regex.octal_digit c = true ↔ octalDigit c.
Proof.
  unfold octalDigit.
  assert (Regex.in_class Regex.octal_digit c
          = bool_decide (c ∈ ["0"; "1"; "2"; "3"; "4"; "5"; "6"; "7"]%char))
    as ->.
  { destruct c as [[] [] [] [] [] [] [] []]; vm_compute; reflexivity. }
  apply bool_decide_eq_true.
Qed.

Lemma ascii_leb_le a b :
  Ascii.leb a b = true ↔ nat_of_ascii a ≤ nat_of_ascii b.
Proof.
  unfold Ascii.leb, Ascii.compare, nat_of_ascii.
  destruct (N.compare_spec (N_of_ascii a) (N_of_ascii b)); split; intros;
    try done; lia.
Qed.

Lemma ascii_between_spec lo hi c :
  ascii_between lo hi c = true
  ↔ nat_of_ascii lo ≤ nat_of_ascii c ≤ nat_of_ascii hi.
Proof.
  unfold ascii_between. rewrite andb_true_iff, !ascii_leb_le. done.
Qed.

Lemma in_class_upper c :
  Regex.in_class Regex.upper c = true ↔ upperLetter c.
Proof.
  unfold Regex.in_class, Regex.upper, upperLetter. simpl.
  rewrite orb_false_r, ascii_between_spec. done.
Qed.

Lemma in_class_nameChar c :
  Regex.in_class Regex.upper_digit_underscore c = true ↔ nameChar c.
Proof.
  unfold Regex.in_class, Regex.upper_digit_underscore, nameChar, upperLetter.
  simpl. rewrite orb_false_r, !orb_true_iff, !ascii_between_spec.
  change (nat_of_ascii "A") with 65. change (nat_of_ascii "Z") with 90.
  change (nat_of_ascii "0") with 48. change (nat_of_ascii "9") with 57.
  change (nat_of_ascii "_") with 95.
  assert (Hunderscore : 95 ≤ nat_of_ascii c ≤ 95 ↔ c = "_"%char).
  { split.
    - intros H. assert (nat_of_ascii c = 95) as Hc by lia.
      by rewrite <- (ascii_nat_embedding c), Hc.
    - by intros ->. }
  rewrite Hunderscore. done.
Qed.

(** The mode pattern accepts exactly the strings of three or four octal
    digits. *)
Lemma octal_mode_matches m :
  Regex.matches Regex.octal_mode m = true ↔ OctalMode m.
Proof.
  unfold OctalMode.
  destruct m as [|c1 [|c2 [|c3 [|c4 [|c5 m]]]]]; simpl;
    try (split; [done | intros [[?|?] _]; done]).
  - destruct (Regex.in_class Regex.octal_digit c1); simpl;
      (split; [done | intros [[?|?] _]; done]).
  - destruct (Regex.in_class Regex.octal_digit c1); simpl;
      [destruct (Regex.in_class Regex.octal_digit c2); simpl|];
      (split; [done | intros [[?|?] _]; done]).
  - rewrite !Forall_cons, <- !in_class_octal.
    destruct (Regex.in_class Regex.octal_digit c1); simpl;
      [destruct (Regex.in_class Regex.octal_digit c2); simpl;
       [destruct (Regex.in_class Regex.octal_digit c3); simpl|]|];
      split; try done; try (intros; split; [by left|by repeat split]);
      intros [_ (?&?&?&_)]; done.
  - rewrite !Forall_cons, <- !in_class_octal.
    destruct (Regex.in_class Regex.octal_digit c1); simpl;
      [destruct (Regex.in_class Regex.octal_digit c2); simpl;
       [destruct (Regex.in_class Regex.octal_digit c3); simpl;
        [destruct (Regex.in_class Regex.octal_digit c4); simpl|]|]|];
      split; try done; try (intros; split; [by right|by repeat split]);
      intros [_ (?&?&?&?&_)]; done.
  - split; [|intros [[?|?] _]; done].
    destruct (Regex.in_class Regex.octal_digit c1); simpl;
      [destruct (Regex.in_class Regex.octal_digit c2); simpl;
       [destruct (Regex.in_class Regex.octal_digit c3); simpl;
        [destruct (Regex.in_class Regex.octal_digit c4); simpl|]|]|];
      rewrite ?matches_Void; done.
Qed.

(** [envNamePattern] accepts exactly the names of the shape [EnvName]. *)
Lemma env_name_matches s :
  Regex.matches Regex.env_name s = true ↔ EnvName s.
Proof.
  destruct s as [|c s]; [done|].
  unfold EnvName. rewrite <- in_class_upper.
  rewrite <- (string_forallb_Forall _ _ s in_class_nameChar).
  simpl. destruct (Regex.in_class Regex.upper c); simpl.
  - rewrite matches_Star_Class. split; [done|]. by intros [_ ?].
  - rewrite matches_Void. split; [done|]. by intros [? _].
Qed.

(** ** The NixOS module *)

Lemma attrNames_elem_of {A} (m : gmap string A) k :
  k ∈ Nix.attrNames m ↔ is_Some (m !! k).
Proof.
  unfold Nix.attrNames. rewrite merge_sort_Permutation, elem_of_elements.
  apply elem_of_dom.
Qed.

Lemma elem_of_mapAttrsToList {A B} (f : string → A → B) (m : gmap string A) x :
  x ∈ Nix.mapAttrsToList f m ↔ ∃ k a, m !! k = Some a ∧ x = f k a.
Proof.
  unfold Nix.mapAttrsToList. rewrite list_elem_of_omap. split.
  - intros (k & _ & Hk). destruct (m !! k) as [a|] eqn:Hm; simplify_eq/=.
    by exists k, a.
  - intros (k & a & Hm & ->). exists k. split.
    + apply attrNames_elem_of. by rewrite Hm.
    + by rewrite Hm.
Qed.

Lemma failedAssertions_nil l :
  Nix.failedAssertions l = [] ↔ Forall (λ a, Nix.assertion a = true) l.
Proof.
  unfold Nix.failedAssertions. induction l as [|a l IH]; simpl.
  - split; [constructor|done].
  - rewrite Forall_cons. destruct (Nix.assertion a); simpl.
    + rewrite IH. tauto.
    + split; [done|]. by intros [? _].
Qed.

(** The assertions of an enabled module all hold exactly when a source of
    secrets is configured and every declared mode passes the match. *)
Lemma assertions_hold cfg :
  Forall (λ a, Nix.assertion a = true) (Nix.assertions cfg)
  ↔ 0 < Nix.configCount cfg
    ∧ ∀ k secret, Nix.secrets cfg !! k = Some secret →
                  Nix.modeAssertion (Nix.mode secret) = true.
Proof.
  unfold Nix.assertions. rewrite Forall_app, Forall_singleton. simpl.
  rewrite bool_decide_eq_true, Forall_forall.
  apply and_iff_compat_l. split.
  - intros H k secret Hk.
    apply (H (Nix.Build_assertion_ (Nix.modeAssertion (Nix.mode secret))
                ("OpNix secret '" +:+ k +:+ "': mode '" +:+ Nix.mode secret
                 +:+ "' is not a valid octal permission (e.g., 0644, 0600)"))).
    apply list_elem_of_join. eexists. split; [|apply elem_of_mapAttrsToList].
    + apply list_elem_of_singleton. reflexivity.
    + by exists k, secret.
  - intros H a (l & Ha & Hl)%list_elem_of_join.
    apply elem_of_mapAttrsToList in Hl as (k & secret & Hk & ->).
    apply list_elem_of_singleton in Ha as ->. simpl. by eapply H.
Qed.

Lemma evaluate_cases cfg :
  Nix.enable cfg = true →
  (Forall (λ a, Nix.assertion a = true) (Nix.assertions cfg)
   ∧ Nix.evaluate cfg = Nix.Built (Nix.script cfg) (Nix.secretPaths cfg))
  ∨ (¬ Forall (λ a, Nix.assertion a = true) (Nix.assertions cfg)
     ∧ ∃ msgs, Nix.evaluate cfg = Nix.Rejected msgs).
Proof.
  intros H. unfold Nix.evaluate, Nix.config. rewrite H. simpl.
  pose proof (failedAssertions_nil (Nix.assertions cfg)) as Hnil.
  destruct (Nix.failedAssertions (Nix.assertions cfg)) as [|msg msgs].
  - left. split; [by apply Hnil|done].
  - right. split; [|by eauto]. intros Hall. by apply Hnil in Hall.
Qed.

(** C7: the module accepts a secret's mode exactly when it is three or
    four octal digits: ["0644"] passes and ["abc"] does not.  A configuration
    with a mode that does not pass is rejected when the system is evaluated:
    no unit script exists, so no secret is resolved or written. *)
Theorem mode_validation (cfg : Nix.moduleConfig) :
  Nix.enable cfg = true →
  0 < Nix.configCount cfg →
  (∀ m, Nix.modeAssertion m = true ↔ OctalMode m)
  ∧ Nix.modeAssertion "0644" = true
  ∧ Nix.modeAssertion "abc" = false
  ∧ ((∃ steps paths, Nix.evaluate cfg = Nix.Built steps paths)
     ↔ ∀ k secret, Nix.secrets cfg !! k = Some secret →
                   OctalMode (Nix.mode secret))
  ∧ ((∃ msgs, Nix.evaluate cfg = Nix.Rejected msgs)
     ↔ ∃ k secret, Nix.secrets cfg !! k = Some secret
                   ∧ ¬ OctalMode (Nix.mode secret)).
Proof.
  intros Hen Hcount.
  split_and!; [apply octal_mode_matches|done|done|..].
  - destruct (evaluate_cases cfg Hen) as [[Hall ->]|[Hsome [msgs ->]]].
    + split; [|by eauto]. intros _ k secret Hk.
      apply octal_mode_matches.
      apply assertions_hold in Hall as [_ Hall]. by eapply Hall.
    + split; [by intros (?&?&?)|]. intros Hoct. exfalso. apply Hsome.
      apply assertions_hold. split; [done|]. intros k secret Hk.
      apply octal_mode_matches. by eapply Hoct.
  - destruct (evaluate_cases cfg Hen) as [[Hall ->]|[Hsome [msgs ->]]].
    + split; [by intros [? ?]|]. intros (k & secret & Hk & Hbad).
      exfalso. apply Hbad, octal_mode_matches.
      apply assertions_hold in Hall as [_ Hall]. by eapply Hall.
    + split; [|by eauto]. intros _.
      apply not_Forall_Exists in Hsome; [|apply _].
      apply Exists_exists in Hsome as (a & Ha & Hbad).
      unfold Nix.assertions in Ha.
      apply elem_of_app in Ha as [Ha|Ha].
      * apply list_elem_of_singleton in Ha as ->. simpl in Hbad.
        by rewrite bool_decide_eq_true in Hbad.
      * apply list_elem_of_join in Ha as (l & Ha & Hl).
        apply elem_of_mapAttrsToList in Hl as (k & secret & Hk & ->).
        apply list_elem_of_singleton in Ha as ->. simpl in Hbad.
        exists k, secret. split; [done|]. by rewrite <- octal_mode_matches.
Qed.

Lemma mode_validation_witness :
  (∀ m, Nix.modeAssertion m = true ↔ OctalMode m)
  ∧ Nix.modeAssertion "0644" = true
  ∧ Nix.modeAssertion "abc" = false
  ∧ ((∃ steps paths, Nix.evaluate templated_config = Nix.Built steps paths)
     ↔ ∀ k secret, Nix.secrets templated_config !! k = Some secret →
                   OctalMode (Nix.mode secret))
  ∧ ((∃ msgs, Nix.evaluate templated_config = Nix.Rejected msgs)
     ↔ ∃ k secret, Nix.secrets templated_config !! k = Some secret
                   ∧ ¬ OctalMode (Nix.mode secret)).
Proof.
  apply (mode_validation templated_config).
  - reflexivity.
  - vm_compute. lia.
Defined.

Lemma secretPaths_lookup cfg k :
  Nix.secretPaths cfg !! k
  = (λ secret, match Nix.path secret with
               | Some p => p
               | None => Nix.outputDir cfg +:+ "/" +:+ k
               end) <$> Nix.secrets cfg !! k.
Proof.
  unfold Nix.secretPaths, Nix.mapAttrs. rewrite map_lookup_imap.
  by destruct (Nix.secrets cfg !! k).
Qed.

(** C4: [secretPaths] never consults [pathTemplate].  For the secret of
    the specification's template example, declared without a path, it
    yields [outputDir/name], although the template is set, is handed to the
    tool in the generated manifest, and expands to another destination. *)
Theorem secretPaths_ignores_pathTemplate :
  Nix.path dbpass_secret = None
  ∧ Nix.pathTemplate templated_config = Some "/etc/secrets/{service}/{name}"
  ∧ Nix.secretPaths templated_config !! "dbpass"
    = Some "/var/lib/opnix/secrets/dbpass"
  ∧ Engine.expandTemplate
      (λ v, (Nix.variables dbpass_secret ∪ Nix.defaults templated_config
             ∪ {["name" := "dbpass"]}) !! v)
      "/etc/secrets/{service}/{name}"
    = Ok "/etc/secrets/pg/dbpass"
  ∧ Nix.declarativeConfigFile templated_config
    = Some (Nix.StoreFile "opnix-declarative-secrets.json"
              {| Nix.m_secrets :=
                   [ {| Nix.ms_path := "dbpass";
                        Nix.ms_reference := "op://Homelab/Database/password";
                        Nix.ms_owner := "root"; Nix.ms_group := "root";
                        Nix.ms_mode := "0644"; Nix.ms_symlinks := [];
                        Nix.ms_variables := {["service" := "pg"]} |} ];
                 Nix.m_pathTemplate := Some "/etc/secrets/{service}/{name}";
                 Nix.m_defaults := {["environment" := "prod"]} |}).
Proof. split_and!; by vm_compute. Qed.

Lemma invocations_app l1 l2 :
  Nix.invocations (l1 ++ l2) = Nix.invocations l1 ++ Nix.invocations l2.
Proof. apply omap_app. Qed.

Lemma invocations_secretToolRuns cfg :
  Nix.invocations (Nix.secretToolRuns cfg)
  = (λ f, {| Nix.inv_token_file := Nix.tokenFile cfg;
             Nix.inv_config := f;
             Nix.inv_output := Nix.outputDir cfg |})
    <$> Nix.allConfigFiles cfg.
Proof.
  unfold Nix.secretToolRuns.
  induction (Nix.allConfigFiles cfg) as [|f l IH]; [done|].
  rewrite bind_cons, invocations_app, IH. done.
Qed.

Lemma allConfigFiles_eq cfg :
  Nix.allConfigFiles cfg
  = (Nix.UserFile <$> Nix.configFiles cfg)
    ++ option_list (Nix.declarativeConfigFile cfg).
Proof.
  unfold Nix.allConfigFiles. rewrite omap_app. f_equal.
  - induction (Nix.configFiles cfg) as [|p l IH]; [done|].
    rewrite !fmap_cons. simpl. f_equal. exact IH.
  - unfold Nix.optional, Nix.declarativeConfigFile.
    by destruct (Nix.hasDeclarativeSecrets cfg).
Qed.

(** *** Paths that are single words of the script *)

Lemma isWord_plain s :
  Script.isWord s = true → string_forallb Script.plain s = true.
Proof.
  destruct s as [|c s]; [done|]. unfold Script.isWord.
  by intros [_ ?]%andb_prop.
Qed.

Lemma string_forallb_app p a b :
  string_forallb p (a +:+ b) = string_forallb p a && string_forallb p b.
Proof.
  induction a as [|c a IH]; [done|].
  change (String c a +:+ b) with (String c (a +:+ b)).
  cbn [string_forallb]. by rewrite IH, andb_assoc.
Qed.

Lemma string_forallb_impl (p q : ascii → bool) s :
  (∀ c, p c = true → q c = true) →
  string_forallb p s = true → string_forallb q s = true.
Proof.
  intros Hpq. induction s as [|c s IH]; [done|]. cbn [string_forallb].
  intros [Hc Hs]%andb_prop. by rewrite (Hpq c Hc), IH.
Qed.

(** The line of an [echo] that names a word stands for itself. *)
Lemma isQuotable_processing name :
  Script.isWord name = true →
  Script.isQuotable ("Processing config file: " +:+ name) = true.
Proof.
  intros Hname%isWord_plain. unfold Script.isQuotable.
  rewrite string_forallb_app. apply andb_true_intro. split; [done|].
  revert Hname. apply string_forallb_impl. by intros c ->.
Qed.

Lemma toolArguments_app l1 l2 :
  toolArguments (l1 ++ l2) = toolArguments l1 ++ toolArguments l2.
Proof. unfold toolArguments. by rewrite invocations_app, omap_app. Qed.

Lemma allConfigFiles_names cfg :
  plainPaths cfg →
  Forall (λ f, Script.isWord (Nix.configFileName f) = true)
         (Nix.allConfigFiles cfg).
Proof.
  intros (_ & _ & Hfiles). rewrite allConfigFiles_eq.
  apply Forall_app. split.
  - apply Forall_fmap. exact Hfiles.
  - unfold Nix.declarativeConfigFile.
    destruct (Nix.hasDeclarativeSecrets cfg); repeat constructor.
Qed.

Lemma arguments_commandLine cfg f :
  plainPaths cfg → Script.isWord (Nix.configFileName f) = true →
  Script.arguments {| Nix.inv_token_file := Nix.tokenFile cfg;
                      Nix.inv_config := f;
                      Nix.inv_output := Nix.outputDir cfg |}
  = Some (commandLine cfg f).
Proof.
  intros (Htoken & Hout & _) Hf. unfold Script.arguments.
  cbn [Nix.inv_token_file Nix.inv_config Nix.inv_output].
  by rewrite Htoken, Hout, Hf.
Qed.

(** With plain paths the model reads the whole script, and the script
    holds one command line for every configuration file. *)
Lemma script_readable cfg :
  plainPaths cfg → Forall (λ st, readable st = true) (Nix.script cfg).
Proof.
  intros Hplain. pose proof Hplain as (Htoken & Hout & _).
  unfold Nix.script. repeat (apply Forall_cons; split);
    cbn [readable]; rewrite ?Htoken, ?Hout; try done.
  unfold Nix.secretToolRuns.
  pose proof (allConfigFiles_names cfg Hplain) as Hnames.
  induction Hnames as [|f fs Hf _ IH]; [constructor|].
  rewrite bind_cons. repeat (apply Forall_cons; split); [| |exact IH].
  - cbn [readable]. by apply isQuotable_processing.
  - cbn [readable]. rewrite (arguments_commandLine cfg f Hplain Hf).
    by apply bool_decide_eq_true_2.
Qed.

Lemma toolArguments_script cfg :
  plainPaths cfg →
  toolArguments (Nix.script cfg) = commandLine cfg <$> Nix.allConfigFiles cfg.
Proof.
  intros Hplain. unfold toolArguments.
  unfold Nix.script. rewrite invocations_app.
  change (Nix.invocations [_; _; _; _; _]) with (@nil Nix.invocation).
  rewrite app_nil_l, invocations_secretToolRuns.
  pose proof (allConfigFiles_names cfg Hplain) as Hnames.
  induction Hnames as [|f fs Hf _ IH]; [done|].
  rewrite fmap_cons. cbn [omap list_omap].
  by rewrite (arguments_commandLine cfg f Hplain Hf), IH.
Qed.




(** ** The [env] command: validation *)

Lemma string_nonempty_true s : string_nonempty s = true ↔ s ≠ "".
Proof. by destruct s. Qed.

Lemma string_nonempty_false s : string_nonempty s = false ↔ s = "".
Proof. by destruct s. Qed.

Lemma EnvName_nonempty s : EnvName s → s ≠ "".
Proof. by destruct s. Qed.

Lemma validateVariable_None i v :
  Env.validateVariable i v = None ↔ WellFormedVariable v.
Proof.
  unfold Env.validateVariable, WellFormedVariable, ExactlyOneSource,
    Env.envNamePattern.
  rewrite <- env_name_matches.
  destruct (string_nonempty (Env.Name v)) eqn:Hn; simpl.
  - destruct (Regex.matches Regex.env_name (Env.Name v)); simpl;
      [|split; [done|by intros [? _]]].
    rewrite <- !string_nonempty_true, <- !string_nonempty_false.
    destruct (string_nonempty (Env.Reference v)),
             (string_nonempty (Env.Value v)); simpl;
      intuition congruence.
  - split; [done|]. intros [Hm _].
    apply string_nonempty_false in Hn. rewrite Hn in Hm. done.
Qed.

Lemma validateVariable_error i v e :
  Env.validateVariable i v = Some e → Env.isConfigValidationError e = true.
Proof.
  unfold Env.validateVariable. intros H.
  repeat (match type of H with
          | (if ?b then _ else _) = _ => destruct b
          end; simplify_eq/=; try done).
Qed.

Lemma validateFrom_None i vars :
  Env.validateFrom i vars = None ↔ Forall WellFormedVariable vars.
Proof.
  revert i. induction vars as [|v vars IH]; intros i; simpl.
  - split; [constructor|done].
  - rewrite Forall_cons, <- (validateVariable_None i v), <- (IH (S i)).
    destruct (Env.validateVariable i v); intuition congruence.
Qed.

Lemma validateFrom_error i vars e :
  Env.validateFrom i vars = Some e → Env.isConfigValidationError e = true.
Proof.
  revert i. induction vars as [|v vars IH]; intros i; simpl; [done|].
  destruct (Env.validateVariable i v) eqn:Hv.
  - intros [= <-]. by eapply validateVariable_error.
  - apply IH.
Qed.

(** C9: [validateEnvConfig] returns nil exactly for a configuration with
    at least one variable all of whose variables have a name of the shape
    [^[A-Z][A-Z0-9_]*$] and exactly one of [reference] and [value]
    non-empty; in every other case it returns a [ConfigValidationError]. *)
Theorem validateEnvConfig_spec (cfg : Env.envConfig) :
  (Env.validateEnvConfig cfg = None ↔ WellFormedEnvConfig cfg)
  ∧ (Env.validateEnvConfig cfg = None
     ∨ ∃ field value msg suggestions,
         Env.validateEnvConfig cfg
         = Some (Env.ConfigValidationError field value msg suggestions)).
Proof.
  unfold Env.validateEnvConfig, WellFormedEnvConfig.
  destruct (Env.Vars cfg) as [|v vars] eqn:Hvars.
  - split; [split; [done|by intros [? _]]|]. right. by do 4 eexists.
  - split.
    + rewrite validateFrom_None. split; [by split|by intros [_ ?]].
    + destruct (Env.validateFrom 0 (v :: vars)) as [e|] eqn:He; [|by left].
      right. apply validateFrom_error in He.
      destruct e; try done. by do 4 eexists.
Qed.

(** ** The [env] command: [Process] *)

Section ProcessFacts.

Context (TrimSpace : string → string).
Context {R : Type} {resolver : Env.secretResolver R}.

Lemma processFrom_app (p : R) i pre rest res :
  Env.processFrom TrimSpace p i (pre ++ rest) res
  = match Env.processFrom TrimSpace p i pre res with
    | (Ok res1, p1) =>
        Env.processFrom TrimSpace p1 (i + length pre) rest res1
    | (Err e, p1) => (Err e, p1)
    end.
Proof.
  revert p i res. induction pre as [|v pre IH]; intros p i res; simpl.
  - by rewrite Nat.add_0_r.
  - destruct (Env.resolveVariable TrimSpace p v i) as [[value|e] p'].
    + rewrite IH. by rewrite Nat.add_succ_comm.
    + destruct (Env.Optional v); [|done].
      rewrite IH. by rewrite Nat.add_succ_comm.
Qed.

(** [Process] fails only on a variable that is not optional, and with
    the error of that variable. *)
Lemma processFrom_error (p : R) i vars res e p' :
  Env.processFrom TrimSpace p i vars res = (Err e, p') →
  ∃ pre v post res1 p1,
    vars = pre ++ v :: post
    ∧ Env.Optional v = false
    ∧ Env.processFrom TrimSpace p i pre res = (Ok res1, p1)
    ∧ Env.resolveVariable TrimSpace p1 v (i + length pre) = (Err e, p').
Proof.
  revert p i res. induction vars as [|v vars IH]; intros p i res; simpl;
    [done|].
  destruct (Env.resolveVariable TrimSpace p v i) as [[value|e'] q] eqn:Hv.
  - intros (pre & w & post & res1 & p1 & -> & Hopt & Hpre & Hw)%IH.
    exists (v :: pre), w, post, res1, p1. simpl. rewrite Hv.
    rewrite <- Nat.add_succ_comm. done.
  - destruct (Env.Optional v) eqn:Hopt.
    + intros (pre & w & post & res1 & p1 & -> & Hoptw & Hpre & Hw)%IH.
      exists (v :: pre), w, post, res1, p1. simpl. rewrite Hv, Hopt.
      rewrite <- Nat.add_succ_comm. done.
    + intros [= <- <-]. exists [], v, vars, res, p. simpl.
      rewrite Nat.add_0_r. done.
Qed.

(** What has been skipped stays skipped. *)
Lemma processFrom_Skipped (p : R) i vars res res' p' :
  Env.processFrom TrimSpace p i vars res = (Ok res', p') →
  Env.Skipped res `prefix_of` Env.Skipped res'.
Proof.
  revert p i res. induction vars as [|v vars IH]; intros p i res; simpl.
  - by intros [= <- <-].
  - destruct (Env.resolveVariable TrimSpace p v i) as [[value|e'] q].
    + intros Hrest%IH. done.
    + destruct (Env.Optional v); [|done].
      intros Hrest%IH. simpl in Hrest.
      etrans; [|exact Hrest]. by apply prefix_app_r.
Qed.

(** C8: when the variables before [v] have been processed and [v] fails
    to resolve with [err]: if [v] is not optional, [Process] returns [err]
    and no result, and the resolver is left in the state of that failure,
    whatever variables follow; if [v] is optional, the loop goes on with the
    variables that follow, [v] and [err] appended to [Skipped], where they
    stay.  [Process] never fails for another reason than a variable that is
    not optional. *)
Theorem Process_failure_policy (p p1 p2 : R) (fmt : string)
    (pre post : list Env.envVariable) (v : Env.envVariable)
    (res1 : Env.envResult) (err : Env.error) :
  Env.Process TrimSpace p (Some {| Env.Vars := pre; Env.Format := fmt |})
    = (Ok res1, p1) →
  Env.resolveVariable TrimSpace p1 v (length pre) = (Err err, p2) →
  let cfg := {| Env.Vars := pre ++ v :: post; Env.Format := fmt |} in
  let skipped := {| Env.SkippedName := Env.Name v; Env.SkippedErr := err |} in
  (Env.Optional v = false →
     Env.Process TrimSpace p (Some cfg) = (Err err, p2)
     ∧ Env.Process TrimSpace p (Some cfg)
       = Env.Process TrimSpace p
           (Some {| Env.Vars := pre ++ [v]; Env.Format := fmt |}))
  ∧ (Env.Optional v = true →
     Env.Process TrimSpace p (Some cfg)
     = Env.processFrom TrimSpace p2 (S (length pre)) post
         {| Env.Values := Env.Values res1;
            Env.Skipped := Env.Skipped res1 ++ [skipped] |}
     ∧ ∀ res p', Env.Process TrimSpace p (Some cfg) = (Ok res, p') →
                 skipped ∈ Env.Skipped res)
  ∧ (∀ e p', Env.Process TrimSpace p (Some cfg) = (Err e, p') →
       ∃ pre' w post' res' q,
         pre ++ v :: post = pre' ++ w :: post'
         ∧ Env.Optional w = false
         ∧ Env.Process TrimSpace p
             (Some {| Env.Vars := pre'; Env.Format := fmt |}) = (Ok res', q)
         ∧ Env.resolveVariable TrimSpace q w (length pre') = (Err e, p')).
Proof.
  unfold Env.Process. simpl. intros Hpre Hv.
  assert (Hcont : Env.Optional v = true →
     Env.processFrom TrimSpace p 0 (pre ++ v :: post)
       {| Env.Values := ∅; Env.Skipped := [] |}
     = Env.processFrom TrimSpace p2 (S (length pre)) post
         {| Env.Values := Env.Values res1;
            Env.Skipped := Env.Skipped res1 ++
              [ {| Env.SkippedName := Env.Name v; Env.SkippedErr := err |} ]
         |}).
  { intros Hopt. rewrite processFrom_app, Hpre. simpl. by rewrite Hv, Hopt. }
  split_and!.
  - intros Hopt. rewrite !processFrom_app, Hpre. simpl. by rewrite Hv, Hopt.
  - intros Hopt. split; [by apply Hcont|].
    intros res p'. rewrite (Hcont Hopt). intros Hres%processFrom_Skipped.
    simpl in Hres. eapply elem_of_prefix; [|exact Hres].
    apply elem_of_app. right. by apply list_elem_of_singleton.
  - intros e p' He. apply processFrom_error in He. exact He.
Qed.

End ProcessFacts.

Lemma Process_failure_policy_witness :
  let TrimSpace := λ s : string, s in
  let pre := [envVar "API_TOKEN" "op://Homelab/API/token" "" false] in
  let v := envVar "LOCAL_DB_PASSWORD" "op://Homelab/Database/password" ""
             true in
  let post := [envVar "STATIC_ENV" "" "dev" false] in
  ∃ res,
    Env.Process (resolver := loggingResolver) TrimSpace []
      (Some {| Env.Vars := pre ++ v :: post; Env.Format := "" |})
    = (Ok res, ["op://Homelab/API/token"; "op://Homelab/Database/password"])
    ∧ Env.SkippedName <$> Env.Skipped res = ["LOCAL_DB_PASSWORD"]
    ∧ Env.Values res !! "STATIC_ENV" = Some "dev".
Proof.
  intros TrimSpace pre v post.
  pose proof (Process_failure_policy (resolver := loggingResolver) TrimSpace
    [] ["op://Homelab/API/token"]
    ["op://Homelab/API/token"; "op://Homelab/Database/password"]
    "" pre post v
    {| Env.Values := {["API_TOKEN" := "s3cr3t"]}; Env.Skipped := [] |}
    (Env.WrapWithSuggestions (Env.ResolverFailure "item not found")
       "Resolving secret for env var LOCAL_DB_PASSWORD"
       "environment variable resolution"
       [ "Check that the 1Password reference 'op://Homelab/Database/password' exists";
         "Ensure the service account has access to the vault and item" ])
    eq_refl eq_refl) as (_ & Hopt & _).
  destruct (Hopt eq_refl) as [Heq _].
  eexists. split; [rewrite Heq; reflexivity|]. split; reflexivity.
Defined.

(** ** The [env] command: renderers *)

Lemma app_cons c a b : String c a +:+ b = String c (a +:+ b).
Proof. reflexivity. Qed.

Lemma app_empty_l s : "" +:+ s = s.
Proof. reflexivity. Qed.

Lemma app_empty_r s : s +:+ "" = s.
Proof. induction s as [|c s IH]; [done|]. by rewrite app_cons, IH. Qed.

Lemma app_assoc_string a b c : (a +:+ b) +:+ c = a +:+ (b +:+ c).
Proof. induction a as [|x a IH]; [done|]. by rewrite !app_cons, IH. Qed.

Lemma foldl_append {A} (f : A → string) (l : list A) acc :
  foldl (λ b k, b +:+ f k) acc l = acc +:+ concatStrings (f <$> l).
Proof.
  revert acc. induction l as [|k l IH]; intros acc; simpl.
  - by rewrite app_empty_r.
  - by rewrite IH, app_assoc_string.
Qed.

Lemma lineCount_app a b : lineCount (a +:+ b) = lineCount a + lineCount b.
Proof.
  induction a as [|c a IH]; [done|].
  rewrite app_cons. simpl. rewrite IH. lia.
Qed.

Lemma lineCount_concat (l : list string) :
  lineCount (concatStrings l) = sum_list (lineCount <$> l).
Proof.
  induction l as [|s l IH]; [done|].
  csimpl. by rewrite lineCount_app, IH.
Qed.

(** Replacing a one-byte pattern goes byte by byte. *)
Lemma replaceFrom_byte c new d s :
  Env.replaceFrom 0 (String d s) (String c "") new
  = if bool_decide (c = d) then new +:+ Env.replaceFrom 0 s (String c "") new
    else String d (Env.replaceFrom 0 s (String c "") new).
Proof.
  simpl. destruct (ascii_dec c d) as [->|Hne].
  - rewrite bool_decide_eq_true_2 by done. by destruct s.
  - by rewrite bool_decide_eq_false_2.
Qed.

Lemma lineCount_replace_other c new s :
  c ≠ ch_newline → lineCount new = 0 →
  lineCount (Env.ReplaceAll s (String c "") new) = lineCount s.
Proof.
  intros Hc Hnew. unfold Env.ReplaceAll. simpl.
  induction s as [|d s IH]; [done|].
  rewrite replaceFrom_byte. case_bool_decide as Hd.
  - subst d. rewrite lineCount_app, Hnew, IH. simpl.
    by rewrite bool_decide_eq_false_2.
  - simpl. by rewrite IH.
Qed.

Lemma lineCount_replace_newline new s :
  lineCount new = 0 →
  lineCount (Env.ReplaceAll s (String ch_newline "") new) = 0.
Proof.
  intros Hnew. unfold Env.ReplaceAll. simpl.
  induction s as [|d s IH]; [done|].
  rewrite replaceFrom_byte. case_bool_decide as Hd.
  - by rewrite lineCount_app, Hnew, IH.
  - simpl. rewrite IH. by rewrite bool_decide_eq_false_2.
Qed.

Lemma lineCount_shellQuote v : lineCount (Env.shellQuote v) = lineCount v.
Proof.
  unfold Env.shellQuote, str1. destruct (string_nonempty v) eqn:Hv; cbn [negb].
  - rewrite !lineCount_app, lineCount_replace_other; [simpl; lia|done|done].
  - apply string_nonempty_false in Hv. by subst v.
Qed.

Lemma dotenvSpecials_newline c :
  string_existsb (λ d, bool_decide (c = d)) Env.dotenvSpecials = false →
  c ≠ ch_newline.
Proof. intros H ->. vm_compute in H. done. Qed.

Lemma ContainsAny_newline v :
  Env.ContainsAny v Env.dotenvSpecials = false → lineCount v = 0.
Proof.
  unfold Env.ContainsAny.
  induction v as [|c v IH]; [done|].
  cbn [string_existsb lineCount].
  intros [Hc Hv]%orb_false_iff. apply dotenvSpecials_newline in Hc.
  rewrite (IH Hv), bool_decide_eq_false_2; done.
Qed.

Lemma lineCount_dotenvValue v : lineCount (Env.dotenvValue v) = 0.
Proof.
  unfold Env.dotenvValue, str1. destruct (string_nonempty v); cbn [negb]; [|done].
  destruct (Env.ContainsAny v Env.dotenvSpecials) eqn:Hany.
  - rewrite !lineCount_app.
    rewrite lineCount_replace_other; [|done..].
    rewrite lineCount_replace_other; [|done..].
    rewrite lineCount_replace_newline; done.
  - by apply ContainsAny_newline.
Qed.

Lemma lineCount_shellLine values k :
  lineCount (Env.shellLine values k)
  = lineCount k + lineCount (Env.index values k) + 1.
Proof.
  unfold Env.shellLine. rewrite !lineCount_app, lineCount_shellQuote.
  simpl. lia.
Qed.

Lemma lineCount_dotenvLine values k :
  lineCount (Env.dotenvLine values k) = lineCount k + 1.
Proof.
  unfold Env.dotenvLine. rewrite !lineCount_app, lineCount_dotenvValue.
  simpl. lia.
Qed.

Lemma sum_list_const (l : list string) (f : string → nat) n :
  (∀ k, k ∈ l → f k = n) → sum_list (f <$> l) = length l * n.
Proof.
  induction l as [|k l IH]; intros H; [done|].
  csimpl. rewrite IH, (H k); [lia|by left|].
  intros k' Hk'. apply H. by right.
Qed.

(** Any two sorted arrangements of the same keys coincide, so what
    [sort.Strings] returns is fixed by the set of keys, whatever the
    algorithm and the order the keys arrive in. *)
Lemma sortStrings_sorted l : Sorted String.le (Env.sortStrings l).
Proof. apply (Sorted_merge_sort String.le). Qed.

Lemma sortStrings_perm l : Env.sortStrings l ≡ₚ l.
Proof. apply merge_sort_Permutation. Qed.

Lemma sortStrings_unique l keys :
  Sorted String.le keys → keys ≡ₚ l → Env.sortStrings l = keys.
Proof.
  intros Hs Hp. apply (Sorted_unique String.le).
  - apply sortStrings_sorted.
  - exact Hs.
  - by rewrite sortStrings_perm.
Qed.

Lemma renderShell_eq order values :
  Env.renderShell order values
  = concatStrings (Env.shellLine values <$> Env.sortStrings order).
Proof. unfold Env.renderShell. by rewrite foldl_append. Qed.

Lemma renderDotenv_eq order values :
  Env.renderDotenv order values
  = concatStrings (Env.dotenvLine values <$> Env.sortStrings order).
Proof. unfold Env.renderDotenv. by rewrite foldl_append. Qed.

(** C10, as amended: for every order in which the keys of the map are
    visited, [renderShell] and [renderDotenv] emit one entry per variable,
    each ended by a newline, in ascending order of the names; the output
    depends on the key-value pairs only.  An entry is one line of text when
    the name has no newline in it and, for [renderShell], the value has
    none either: [dotenvValue] escapes a newline, [shellQuote] copies it. *)
Theorem render_sorted_deterministic (values values' : gmap string string)
    (order order' : list string) :
  Env.rangeOrder values order →
  Env.rangeOrder values' order' →
  (∀ k, values !! k = values' !! k) →
  ∃ keys,
    Sorted String.le keys
    ∧ NoDup keys
    ∧ (∀ k, k ∈ keys ↔ is_Some (values !! k))
    ∧ length keys = size values
    ∧ Env.renderShell order values
      = concatStrings
          ((λ k, "export " +:+ k +:+ "="
                 +:+ Env.shellQuote (Env.index values k)
                 +:+ str1 ch_newline) <$> keys)
    ∧ Env.renderDotenv order values
      = concatStrings
          ((λ k, k +:+ "=" +:+ Env.dotenvValue (Env.index values k)
                 +:+ str1 ch_newline) <$> keys)
    ∧ Env.renderShell order values = Env.renderShell order' values'
    ∧ Env.renderDotenv order values = Env.renderDotenv order' values'
    ∧ ((∀ k, k ∈ keys → singleLine k) →
       lineCount (Env.renderDotenv order values) = size values)
    ∧ ((∀ k v, values !! k = Some v → singleLine k ∧ singleLine v) →
       lineCount (Env.renderShell order values) = size values).
Proof.
  unfold Env.rangeOrder. intros Ho Ho' Heq.
  apply map_eq in Heq. subst values'.
  assert (Hkeys : ∀ k, k ∈ Env.sortStrings order ↔ is_Some (values !! k)).
  { intros k. rewrite sortStrings_perm, Ho, list_elem_of_fmap. split.
    - intros ([k' v] & -> & Hkv%elem_of_map_to_list). by exists v.
    - intros [v Hv]. exists (k, v). split; [done|].
      by apply elem_of_map_to_list. }
  assert (Hlen : length (Env.sortStrings order) = size values).
  { by rewrite sortStrings_perm, Ho, length_fmap, length_map_to_list. }
  assert (Hsame : Env.sortStrings order = Env.sortStrings order').
  { apply sortStrings_unique; [apply sortStrings_sorted|].
    by rewrite sortStrings_perm, Ho, Ho'. }
  exists (Env.sortStrings order). split_and!.
  - apply sortStrings_sorted.
  - rewrite sortStrings_perm, Ho. apply NoDup_fst_map_to_list.
  - exact Hkeys.
  - exact Hlen.
  - apply renderShell_eq.
  - apply renderDotenv_eq.
  - by rewrite !renderShell_eq, Hsame.
  - by rewrite !renderDotenv_eq, Hsame.
  - intros Hsingle.
    rewrite renderDotenv_eq, lineCount_concat, <- list_fmap_compose.
    rewrite (sum_list_const _ _ 1); [lia|].
    intros k Hk. unfold compose.
    rewrite lineCount_dotenvLine, (Hsingle k Hk). done.
  - intros Hsingle.
    rewrite renderShell_eq, lineCount_concat, <- list_fmap_compose.
    rewrite (sum_list_const _ _ 1); [lia|].
    intros k Hk. unfold compose. rewrite lineCount_shellLine.
    apply Hkeys in Hk as [v Hv]. destruct (Hsingle k v Hv) as [Hk0 Hv0].
    unfold Env.index. rewrite Hv. simpl. rewrite Hk0, Hv0. done.
Qed.

Lemma render_sorted_deterministic_witness :
  Env.renderShell ["B"; "C"; "A"] three_values
  = Env.renderShell ["A"; "B"; "C"] three_values
  ∧ Env.renderDotenv ["B"; "C"; "A"] three_values
    = Env.renderDotenv ["A"; "B"; "C"] three_values
  ∧ lineCount (Env.renderDotenv ["B"; "C"; "A"] three_values) = 3.
Proof.
  assert (Ho : Env.rangeOrder three_values ["B"; "C"; "A"]).
  { apply (bool_decide_unpack
             (["B"; "C"; "A"] ≡ₚ (map_to_list three_values).*1)).
    vm_compute. exact I. }
  assert (Ho' : Env.rangeOrder three_values ["A"; "B"; "C"]).
  { apply (bool_decide_unpack
             (["A"; "B"; "C"] ≡ₚ (map_to_list three_values).*1)).
    vm_compute. exact I. }
  destruct (render_sorted_deterministic three_values three_values
              ["B"; "C"; "A"] ["A"; "B"; "C"] Ho Ho' (λ k, eq_refl))
    as (keys & _ & _ & Hkeys & _ & _ & _ & Hshell & Hdotenv & Hlines & _).
  split_and!; [exact Hshell|exact Hdotenv|].
  rewrite Hlines; [reflexivity|].
  intros k [v Hv]%Hkeys. unfold three_values in Hv.
  repeat (apply lookup_insert_Some in Hv as [[<- _]|[_ Hv]]; [reflexivity|]).
  by rewrite lookup_empty in Hv.
Defined.

(** C10, the claim as stated fails: a value of two lines makes
    [renderShell] emit two lines for one variable. *)
Lemma renderShell_entry_spans_lines :
  Env.rangeOrder multiline_values ["KEY"]
  ∧ size multiline_values = 1
  ∧ Env.renderShell ["KEY"] multiline_values
    = "export KEY='a" +:+ str1 ch_newline +:+ "b'" +:+ str1 ch_newline
  ∧ lineCount (Env.renderShell ["KEY"] multiline_values) = 2.
Proof.
  split_and!; by vm_compute.
Qed.

(** ** The engine: manifest loader *)

(** Text without an opening brace is copied. *)
Lemma expandFrom_text env text s :
  noBrace "{" text →
  Engine.expandFrom env None (text +:+ s)
  = match Engine.expandFrom env None s with
    | Ok r => Ok (text +:+ r)
    | Err e => Err e
    end.
Proof.
  unfold noBrace. induction text as [|c text IH]; intros Hno.
  - rewrite app_empty_l. by destruct (Engine.expandFrom env None s).
  - cbn [string_forallb] in Hno. apply andb_true_iff in Hno as [Hc Hno].
    apply negb_true_iff, bool_decide_eq_false in Hc.
    rewrite app_cons. cbn [Engine.expandFrom].
    rewrite bool_decide_eq_false_2 by done. rewrite (IH Hno).
    by destruct (Engine.expandFrom env None s).
Qed.

(** A placeholder is replaced by the value of its name. *)
Lemma expandFrom_placeholder env acc v s :
  noBrace "}" v →
  Engine.expandFrom env (Some acc) (v +:+ String "}" s)
  = match env (acc +:+ v) with
    | None => Err (Engine.MissingVariable (acc +:+ v))
    | Some x =>
        match Engine.expandFrom env None s with
        | Ok r => Ok (x +:+ r)
        | Err e => Err e
        end
    end.
Proof.
  unfold noBrace. revert acc. induction v as [|c v IH]; intros acc Hno.
  - rewrite app_empty_l, app_empty_r. cbn [Engine.expandFrom].
    by rewrite bool_decide_eq_true_2.
  - cbn [string_forallb] in Hno. apply andb_true_iff in Hno as [Hc Hno].
    apply negb_true_iff, bool_decide_eq_false in Hc.
    rewrite app_cons. cbn [Engine.expandFrom].
    rewrite bool_decide_eq_false_2 by done. rewrite (IH _ Hno).
    unfold str1. by rewrite app_assoc_string.
Qed.

Lemma expandFrom_open env s :
  Engine.expandFrom env None (String "{" s)
  = Engine.expandFrom env (Some "") s.
Proof. cbn [Engine.expandFrom]. by rewrite bool_decide_eq_true_2. Qed.

(** The template of the specification's example, for any values. *)
Lemma expand_service_name env :
  Engine.expandTemplate env "/etc/secrets/{service}/{name}"
  = match env "service" with
    | None => Err (Engine.MissingVariable "service")
    | Some x =>
        match env "name" with
        | None => Err (Engine.MissingVariable "name")
        | Some n => Ok ("/etc/secrets/" +:+ x +:+ "/" +:+ n)
        end
    end.
Proof.
  unfold Engine.expandTemplate.
  change "/etc/secrets/{service}/{name}"
    with ("/etc/secrets/" +:+ String "{" ("service" +:+ String "}"
            ("/" +:+ String "{" ("name" +:+ String "}" "")))).
  rewrite expandFrom_text by done.
  rewrite expandFrom_open, expandFrom_placeholder by done.
  rewrite app_empty_l.
  destruct (env "service") as [x|]; [|done].
  rewrite expandFrom_text by done.
  rewrite expandFrom_open, expandFrom_placeholder by done.
  rewrite app_empty_l.
  destruct (env "name") as [n|]; [|done].
  cbn [Engine.expandFrom]. by rewrite app_empty_r.
Qed.

Lemma resolvePath_service_template outputDir m s :
  Engine.path s = None →
  Engine.pathTemplate m = Some "/etc/secrets/{service}/{name}" →
  Engine.resolvePath outputDir m s
  = match Engine.templateEnv (Engine.defaults m) s "service" with
    | None => Err (Engine.MissingVariable "service")
    | Some x =>
        match Engine.templateEnv (Engine.defaults m) s "name" with
        | None => Err (Engine.MissingVariable "name")
        | Some n => Ok ("/etc/secrets/" +:+ x +:+ "/" +:+ n)
        end
    end.
Proof.
  intros Hp Ht. unfold Engine.resolvePath.
  rewrite Hp, Ht. apply expand_service_name.
Qed.

Lemma load_single outputDir m s :
  Engine.secrets m = [s] →
  Engine.validateSpec s = None →
  Engine.load outputDir [m]
  = match Engine.resolvePath outputDir m s with
    | Ok p => Ok [ {| Engine.spec := s; Engine.dest := p |} ]
    | Err e => Err e
    end.
Proof.
  intros Hs Hv. unfold Engine.load. simpl. rewrite Hs. simpl.
  rewrite Hv. unfold Engine.resolvePath. simpl.
  rewrite (left_id_L ∅ (∪)).
  destruct (Engine.path s); [by destruct (Engine.expandTemplate _ _)|].
  destruct (Engine.pathTemplate m); [by destruct (Engine.expandTemplate _ _)|].
  done.
Qed.

(** C5: under the template ["/etc/secrets/{service}/{name}"] and the
    defaults [{environment: "prod"}], the secret [dbpass] with variables
    [{service: "pg"}] is given the destination ["/etc/secrets/pg/dbpass"];
    and whenever [service] is in neither the variables of a secret nor the
    defaults, resolving its path, and with it loading the manifest, fails
    with the [ConfigError] that names [service]. *)
Theorem template_expansion (outputDir : string)
    (m : Engine.SecretManifest) (s : Engine.SecretSpec) :
  Engine.secrets m = [s] →
  Engine.validateSpec s = None →
  Engine.path s = None →
  Engine.pathTemplate m = Some "/etc/secrets/{service}/{name}" →
  Engine.variables s !! "service" = None →
  Engine.defaults m !! "service" = None →
  Engine.resolvePath outputDir m s = Err (Engine.MissingVariable "service")
  ∧ Engine.load outputDir [m] = Err (Engine.MissingVariable "service")
  ∧ Engine.resolvePath outputDir templated_manifest
      (dbpass_spec "op://Homelab/Database/password")
    = Ok "/etc/secrets/pg/dbpass"
  ∧ Engine.load outputDir [templated_manifest]
    = Ok [ {| Engine.spec := dbpass_spec "op://Homelab/Database/password";
              Engine.dest := "/etc/secrets/pg/dbpass" |} ].
Proof.
  intros Hs Hv Hp Ht Hvar Hdef.
  assert (Hres : Engine.resolvePath outputDir m s
                 = Err (Engine.MissingVariable "service")).
  { rewrite resolvePath_service_template by done.
    unfold Engine.templateEnv. by rewrite Hvar, Hdef. }
  split_and!.
  - exact Hres.
  - by rewrite (load_single _ _ _ Hs Hv), Hres.
  - by rewrite resolvePath_service_template.
  - rewrite (load_single _ _ (dbpass_spec "op://Homelab/Database/password"));
      [|done|by vm_compute].
    by rewrite resolvePath_service_template.
Qed.

Lemma template_expansion_witness :
  Engine.resolvePath "/var/lib/opnix/secrets" unbound_manifest unbound_spec
  = Err (Engine.MissingVariable "service")
  ∧ Engine.load "/var/lib/opnix/secrets" [unbound_manifest]
    = Err (Engine.MissingVariable "service")
  ∧ Engine.resolvePath "/var/lib/opnix/secrets" templated_manifest
      (dbpass_spec "op://Homelab/Database/password")
    = Ok "/etc/secrets/pg/dbpass"
  ∧ Engine.load "/var/lib/opnix/secrets" [templated_manifest]
    = Ok [ {| Engine.spec := dbpass_spec "op://Homelab/Database/password";
              Engine.dest := "/etc/secrets/pg/dbpass" |} ].
Proof.
  apply (template_expansion "/var/lib/opnix/secrets" unbound_manifest
           unbound_spec); reflexivity.
Defined.

(** *** Names are unique after loading *)

Lemma find_name_None (acc : list Engine.SecretSpec) s :
  List.find (λ t, bool_decide (Engine.name t = Engine.name s)) acc = None →
  Engine.name s ∉ Engine.name <$> acc.
Proof.
  induction acc as [|t acc IH]; [intros _; apply not_elem_of_nil|].
  cbn [List.find]. case_bool_decide as Hn; [done|]. intros Hf.
  rewrite fmap_cons. apply not_elem_of_cons. split; [congruence|by apply IH].
Qed.

Lemma mergeSecrets_NoDup acc new l :
  Engine.mergeSecrets acc new = Ok l →
  NoDup (Engine.name <$> acc) →
  NoDup (Engine.name <$> l).
Proof.
  revert acc. induction new as [|s new IH]; intros acc; simpl.
  - by intros [= <-].
  - destruct (List.find _ acc) as [t|] eqn:Hfind.
    + case_bool_decide; [|done]. apply IH.
    + intros Hm Hnd. apply (IH _ Hm).
      rewrite fmap_app. apply NoDup_app. split_and!; [done| |].
      * intros n Hn [->|[]%elem_of_nil]%elem_of_cons.
        by apply find_name_None in Hfind.
      * apply NoDup_singleton.
Qed.

Lemma mergeManifests_NoDup acc ms m :
  Engine.mergeManifests acc ms = Ok m →
  NoDup (Engine.name <$> Engine.secrets acc) →
  NoDup (Engine.name <$> Engine.secrets m).
Proof.
  revert acc. induction ms as [|m0 ms IH]; intros acc; simpl.
  - by intros [= <-].
  - destruct (Engine.mergeSecrets (Engine.secrets acc) (Engine.secrets m0))
      as [l|e] eqn:Hl; [|done].
    intros Hm Hnd. apply (IH _ Hm). simpl. by eapply mergeSecrets_NoDup.
Qed.

Lemma resolvePaths_specs outputDir m done l r :
  Engine.resolvePaths outputDir m done l = Ok r →
  Engine.spec <$> r = (Engine.spec <$> done) ++ l.
Proof.
  revert done. induction l as [|s l IH]; intros done; simpl.
  - intros [= <-]. by rewrite app_nil_r.
  - destruct (Engine.resolvePath outputDir m s) as [p|e]; [|done].
    case_bool_decide; [done|]. intros Hr%IH.
    rewrite Hr, fmap_app. simpl. by rewrite <- app_assoc.
Qed.

Lemma load_NoDup_names outputDir srcs m :
  Engine.load outputDir srcs = Ok m →
  NoDup ((Engine.name ∘ Engine.spec) <$> m).
Proof.
  unfold Engine.load.
  destruct (Engine.mergeManifests Engine.emptyManifest srcs) as [mm|e] eqn:Hmm;
    [|done].
  apply mergeManifests_NoDup in Hmm; [|apply NoDup_nil_2].
  destruct (Engine.secrets mm) as [|s0 l0] eqn:Hs; [done|].
  destruct (Engine.validateSpecs (s0 :: l0)); [done|].
  intros Hr%resolvePaths_specs. simpl in Hr.
  rewrite list_fmap_compose, Hr. done.
Qed.

Lemma NoDup_fmap_eq {A B} (f : A → B) (l : list A) x y :
  NoDup (f <$> l) → x ∈ l → y ∈ l → f x = f y → x = y.
Proof.
  induction l as [|z l IH]; [by intros _ ?%elem_of_nil|].
  rewrite fmap_cons, NoDup_cons.
  intros [Hz Hnd] [->|Hx]%elem_of_cons [->|Hy]%elem_of_cons Heq; try done.
  - exfalso. apply Hz. rewrite Heq. by apply list_elem_of_fmap_2.
  - exfalso. apply Hz. rewrite <- Heq. by apply list_elem_of_fmap_2.
  - by apply IH.
Qed.

(** *** Destinations are unique after loading *)

Lemma resolvePaths_NoDup outputDir m done l r :
  Engine.resolvePaths outputDir m done l = Ok r →
  NoDup (Engine.dest <$> done) →
  NoDup (Engine.dest <$> r).
Proof.
  revert done. induction l as [|s l IH]; intros done; simpl.
  - by intros [= <-].
  - destruct (Engine.resolvePath outputDir m s) as [p|e]; [|done].
    case_bool_decide as Hp; [done|]. intros Hr Hnd. apply (IH _ Hr).
    rewrite fmap_app. apply NoDup_app. split_and!; [done| |].
    + intros d Hd [->|[]%elem_of_nil]%elem_of_cons. done.
    + apply NoDup_singleton.
Qed.

Lemma load_NoDup_dests outputDir srcs m :
  Engine.load outputDir srcs = Ok m → NoDup (Engine.dest <$> m).
Proof.
  unfold Engine.load.
  destruct (Engine.mergeManifests Engine.emptyManifest srcs) as [mm|e];
    [|done].
  destruct (Engine.secrets mm) as [|s0 l0]; [done|].
  destruct (Engine.validateSpecs (s0 :: l0)); [done|].
  intros Hr. eapply resolvePaths_NoDup; [exact Hr|apply NoDup_nil_2].
Qed.

(** ** The engine: orchestrator *)

Lemma elem_of_picks {A} (l : list A) x rest :
  (x, rest) ∈ Engine.picks l
  ↔ ∃ pre post, l = pre ++ x :: post ∧ rest = pre ++ post.
Proof.
  revert rest. induction l as [|y l IH]; intros rest; simpl.
  - split; [by intros ?%elem_of_nil|]. intros ([|??] & ? & ? & _); done.
  - rewrite elem_of_cons, list_elem_of_fmap. split.
    + intros [[= -> ->]|([x' rest'] & [= -> ->] & Hin)].
      * by exists [], l.
      * apply IH in Hin as (pre & post & -> & ->).
        by exists (y :: pre), post.
    + intros ([|z pre] & post & Hl & ->); simplify_eq/=.
      * by left.
      * right. exists (x, pre ++ post). split; [done|].
        apply IH. by exists pre, post.
Qed.

Ltac absurd_membership :=
  match goal with
  | H : _ ∈ [] |- _ => by apply elem_of_nil in H
  | H : ∅ !! _ = Some _ |- _ => by rewrite lookup_empty in H
  end.

Section OrchestratorFacts.

Context (digest : string → string).
Context (policy : Reference.errorHandling) (outputDir : string).
Context (caps : Engine.Capabilities) (sources : list Engine.SecretManifest).

Local Abbreviation step := (Engine.step digest policy outputDir caps sources).
Local Abbreviation reachable := (Engine.reachable digest policy outputDir caps sources).
Local Abbreviation next := (Engine.next digest policy outputDir caps sources).
Local Abbreviation Move := (Move digest policy outputDir caps sources).
Local Abbreviation run := (Engine.run digest policy outputDir caps sources).

(** A move out of a working phase, taken from the list [next] builds. *)
Lemma work_moves st st' :
  working (Engine.phase st) →
  st' ∈ (Engine.resolveStep policy caps st <$> Engine.picks (Engine.pending st))
        ++ (Engine.writeStep digest policy caps st
              <$> Engine.picks (Engine.resolved st)) →
  Move st st'.
Proof.
  intros Hw [Hin|Hin]%elem_of_app;
    apply list_elem_of_fmap in Hin as ([x rest] & -> & Hin);
    apply elem_of_picks in Hin as (pre & post & Hl & ->).
  - by apply MoveResolve.
  - destruct x as [s b]. by apply MoveWrite.
Qed.

Lemma step_Move st st' : step st st' ↔ Move st st'.
Proof.
  unfold Engine.step, Engine.next. split.
  - intros Hin. destruct (Engine.phase st) eqn:Hph;
      try (apply list_elem_of_singleton in Hin as ->; by constructor);
      try (by apply elem_of_nil in Hin);
      (assert (Hw : working (Engine.phase st))
         by (rewrite Hph; by (left + right)));
      destruct (Engine.pending st) as [|s0 l0] eqn:Hp,
               (Engine.resolved st) as [|r0 k0] eqn:Hr;
      try (apply list_elem_of_singleton in Hin as ->; by apply MoveFinish);
      apply work_moves; by rewrite ?Hp, ?Hr.
  - intros Hm. destruct Hm as [st Hph|st s pre post Hw Hp|st s b pre post Hw Hr
                               |st Hw Hp Hr|st Hph|st Hph].
    + rewrite Hph. by apply list_elem_of_singleton.
    + assert (Hin : Engine.resolveStep policy caps st (s, pre ++ post)
                    ∈ (Engine.resolveStep policy caps st
                         <$> Engine.picks (Engine.pending st))
                      ++ (Engine.writeStep digest policy caps st
                            <$> Engine.picks (Engine.resolved st))).
      { apply elem_of_app. left. apply list_elem_of_fmap_2.
        apply elem_of_picks. by exists pre, post. }
      destruct Hw as [-> | ->]; rewrite Hp in *;
        by destruct pre, (Engine.resolved st).
    + assert (Hin : Engine.writeStep digest policy caps st
                      ((s, b), pre ++ post)
                    ∈ (Engine.resolveStep policy caps st
                         <$> Engine.picks (Engine.pending st))
                      ++ (Engine.writeStep digest policy caps st
                            <$> Engine.picks (Engine.resolved st))).
      { apply elem_of_app. right. apply list_elem_of_fmap_2.
        apply elem_of_picks. by exists pre, post. }
      destruct Hw as [-> | ->]; rewrite Hr in *;
        by destruct pre, (Engine.pending st).
    + destruct Hw as [-> | ->]; rewrite Hp, Hr;
        by apply list_elem_of_singleton.
    + rewrite Hph. by apply list_elem_of_singleton.
    + rewrite Hph. by apply list_elem_of_singleton.
Qed.

(** An invariant of the moves holds in every reachable state. *)
Lemma reachable_ind (P : Engine.State → Prop) st0 :
  P st0 →
  (∀ st st', reachable st0 st → P st → Move st st' → P st') →
  ∀ st, reachable st0 st → P st.
Proof.
  intros H0 Hstep st Hreach. revert st Hreach.
  apply (rtc_ind_r (λ st, P st)); [done|].
  intros mid st Hreach Hlast IH.
  eapply Hstep; [done|done|]. by apply step_Move.
Qed.

Lemma run_reachable fuel st : reachable st (run fuel st).
Proof.
  revert st. induction fuel as [|k IH]; intros st; simpl; [constructor|].
  destruct (next st) as [|st' l] eqn:Hn; [constructor|].
  eapply rtc_l; [|apply IH]. unfold Engine.step. rewrite Hn. by left.
Qed.

(** *** Traces *)

Lemma commits_app t t' :
  Engine.commits (t ++ t') = Engine.commits t + Engine.commits t'.
Proof. unfold Engine.commits. by rewrite List.filter_app, length_app. Qed.

Lemma notified_app t t' :
  Engine.notified (t ++ t') = Engine.notified t ++ Engine.notified t'.
Proof. apply omap_app. Qed.

Lemma rewrites_app t t' :
  Engine.rewrites (t ++ t') = Engine.rewrites t ++ Engine.rewrites t'.
Proof. apply List.filter_app. Qed.

Lemma commits_Restored (l : list (string * option Engine.File)) :
  Engine.commits (Engine.Restored ∘ fst <$> l) = 0.
Proof. by induction l. Qed.

Lemma notified_Restored (l : list (string * option Engine.File)) :
  Engine.notified (Engine.Restored ∘ fst <$> l) = [].
Proof. by induction l. Qed.

Lemma commits_Notified ns : Engine.commits (Engine.Notified <$> ns) = 0.
Proof. by induction ns. Qed.

Lemma rewrites_Notified ns : Engine.rewrites (Engine.Notified <$> ns) = [].
Proof. by induction ns. Qed.

Lemma notified_Notified ns : Engine.notified (Engine.Notified <$> ns) = ns.
Proof. induction ns as [|n ns IH]; [done|]. csimpl. by rewrite IH. Qed.

Lemma hasFailed_app l l' :
  Engine.hasFailed (l ++ l') = Engine.hasFailed l || Engine.hasFailed l'.
Proof. apply existsb_app. Qed.

Lemma workPhase_working l : working (Engine.workPhase l).
Proof. destruct l; [by right|by left]. Qed.

Lemma working_not_committed ph : working ph → committed ph = false.
Proof. by intros [-> | ->]. Qed.

(** *** The materializer *)

Lemma materialize_inv st files s bytes m :
  Engine.materialize digest caps st files s bytes = Ok m →
  Engine.fault caps (Engine.dest s) = None
  ∧ ((Engine.classify digest st s bytes = Engine.Same
      ∧ m = {| Engine.mat_status := Engine.Unchanged;
               Engine.mat_fs :=
                 alter (Engine.withAttributes s) (Engine.dest s) files;
               Engine.mat_store := st;
               Engine.mat_events := [] |})
     ∨ (Engine.classify digest st s bytes ≠ Engine.Same
        ∧ m = {| Engine.mat_status := Engine.Written;
                 Engine.mat_fs :=
                   <[Engine.dest s := Engine.newFile s bytes]> files;
                 Engine.mat_store :=
                   <[Engine.name (Engine.spec s) :=
                       {| Engine.secretName := Engine.name (Engine.spec s);
                          Engine.contentHash := digest bytes;
                          Engine.lastAppliedAt := Engine.clock caps |}]> st;
                 Engine.mat_events :=
                   [Engine.WroteFile (Engine.name (Engine.spec s))
                      (Engine.dest s) bytes] |})).
Proof.
  unfold Engine.materialize.
  destruct (Engine.fault caps (Engine.dest s)); [done|].
  destruct (Engine.classify digest st s bytes) eqn:Hc; intros [= <-];
    (split; [done|]); [right|right|left]; by split.
Qed.

Lemma materialize_Err st files s bytes e :
  Engine.materialize digest caps st files s bytes = Err e →
  Engine.fault caps (Engine.dest s) = Some e.
Proof.
  unfold Engine.materialize.
  destruct (Engine.fault caps (Engine.dest s)); [congruence|].
  by destruct (Engine.classify digest st s bytes).
Qed.

(** *** The invariant [Core] *)

Lemma backed_mono disk0 st st' n r :
  backed digest disk0 st n r →
  Engine.manifest st' = Engine.manifest st →
  (∀ e, e ∈ Engine.trace st → e ∈ Engine.trace st') →
  backed digest disk0 st' n r.
Proof.
  intros [Hd|(s & b & Hs & Hn & Hr & He & Hh)] Hm Ht; [by left|].
  right. exists s, b. rewrite Hm. split_and!; try done. by apply Ht.
Qed.

Lemma Core_initial disk0 fs0 :
  Core digest policy caps disk0 fs0 (Engine.initial disk0 fs0).
Proof. constructor; simpl; try done; intros; absurd_membership. Qed.

Lemma Core_loadStep disk0 fs0 st :
  Core digest policy caps disk0 fs0 st →
  Engine.phase st = Engine.Loading →
  Core digest policy caps disk0 fs0 (Engine.loadStep policy outputDir sources st).
Proof.
  intros HC Hph. rewrite (core_loading _ _ _ _ _ _ HC Hph).
  unfold Engine.loadStep. destruct (Engine.load outputDir sources) as [m|e].
  - constructor; simpl.
    + by destruct m.
    + by destruct m.
    + done.
    + by destruct m.
    + intros n r Hn. by left.
    + intros [?|?]; by destruct m.
    + intros s Hs. by left.
    + done.
    + intros s b Hs. by apply elem_of_nil in Hs.
    + done.
  - constructor; simpl; try done; intros; absurd_membership.
Qed.

Lemma Core_failSecret disk0 fs0 st s why pending_ resolved_ :
  Core digest policy caps disk0 fs0 st →
  working (Engine.phase st) →
  (∀ x, x ∈ pending_ → x ∈ Engine.pending st) →
  (∀ x, x ∈ resolved_ → x ∈ Engine.resolved st) →
  (∀ x, x ∈ Engine.pending st → x = s ∨ x ∈ pending_) →
  (∀ x, x ∈ (Engine.resolved st).*1 → x = s ∨ x ∈ resolved_.*1) →
  Core digest policy caps disk0 fs0
    (Engine.failSecret policy st s why pending_ resolved_).
Proof.
  intros HC Hw Hp Hr Hp' Hr'.
  pose proof (working_not_committed _ Hw) as Hnc.
  pose proof (core_commits _ _ _ _ _ _ HC) as Hcommits.
  pose proof (core_disk _ _ _ _ _ _ HC) as Hdisk.
  rewrite Hnc in Hcommits, Hdisk.
  assert (Hnot : Engine.notified (Engine.trace st) = []).
  { apply (core_notified _ _ _ _ _ _ HC). by destruct Hw as [-> | ->]. }
  assert (Hcover : ∀ x, x ∈ Engine.manifest st →
            x ∈ pending_ ∨ x ∈ resolved_.*1
            ∨ ∃ o, o ∈ Engine.outcomes st ++
                     [ {| Engine.outcomeOf := Engine.name (Engine.spec s);
                          Engine.status := Engine.Failed;
                          Engine.failure := Some why |} ]
                   ∧ Engine.outcomeOf o = Engine.name (Engine.spec x)).
  { intros x Hx.
    destruct (core_cover _ _ _ _ _ _ HC x Hx) as [Hin|[Hin|(o & Ho & Hn)]].
    - destruct (Hp' x Hin) as [->|?]; [|by left].
      right; right. eexists. split; [apply elem_of_app; right; by left|done].
    - destruct (Hr' x Hin) as [->|?]; [|by right; left].
      right; right. eexists. split; [apply elem_of_app; right; by left|done].
    - right; right. exists o. split; [|done]. apply elem_of_app. by left. }
  unfold Engine.failSecret, Engine.abort.
  destruct (Reference.continueOnError policy) eqn:Hcont;
    [|destruct (Reference.rollbackOnFailure policy)];
    constructor; simpl;
    rewrite ?commits_app, ?notified_app, ?commits_Restored,
      ?notified_Restored, ?Hnc, ?Hcommits, ?Hnot;
    try done; try (by destruct pending_);
    try (intros [?|?]; by destruct pending_);
    try (intros; by apply Hp, (core_pending _ _ _ _ _ _ HC) in H
         || by apply (core_pending _ _ _ _ _ _ HC), Hp).
  all: try (intros n r Hn; eapply backed_mono;
            [by apply (core_store _ _ _ _ _ _ HC)|done|];
            intros e He; simpl; rewrite ?elem_of_app; auto).
  all: try (intros x b Hx; by apply (core_resolved _ _ _ _ _ _ HC), Hr).
  all: try (rewrite Hcommits; by destruct pending_).
  all: intros; congruence.
Qed.

Lemma Core_resolveStep disk0 fs0 st s pre post :
  Core digest policy caps disk0 fs0 st →
  working (Engine.phase st) →
  Engine.pending st = pre ++ s :: post →
  Core digest policy caps disk0 fs0
    (Engine.resolveStep policy caps st (s, pre ++ post)).
Proof.
  intros HC Hw Hpend.
  assert (Hsub : ∀ x, x ∈ pre ++ post → x ∈ Engine.pending st).
  { intros x. rewrite Hpend, !elem_of_app, elem_of_cons. tauto. }
  assert (Hsup : ∀ x, x ∈ Engine.pending st → x = s ∨ x ∈ pre ++ post).
  { intros x. rewrite Hpend, !elem_of_app, elem_of_cons. tauto. }
  unfold Engine.resolveStep.
  destruct (Engine.resolveSecret policy caps s) as [bytes|e] eqn:Hres.
  - pose proof (working_not_committed _ Hw) as Hnc.
    pose proof (core_commits _ _ _ _ _ _ HC) as Hcommits.
    pose proof (core_disk _ _ _ _ _ _ HC) as Hdisk.
    rewrite Hnc in Hcommits, Hdisk.
    constructor; simpl.
    + by destruct (pre ++ post).
    + rewrite Hcommits. by destruct (pre ++ post).
    + intros _. apply (core_notified _ _ _ _ _ _ HC).
      by destruct Hw as [-> | ->].
    + rewrite Hdisk. by destruct (pre ++ post).
    + intros n r Hn. eapply backed_mono;
        [by apply (core_store _ _ _ _ _ _ HC)|done..].
    + intros [?|?]; by destruct (pre ++ post).
    + intros x Hx.
      destruct (core_cover _ _ _ _ _ _ HC x Hx) as [Hin|[Hin|Hin]].
      * destruct (Hsup x Hin) as [->|?]; [|by left].
        right; left. rewrite fmap_app. apply elem_of_app. right. by left.
      * right; left. rewrite fmap_app. apply elem_of_app. by left.
      * by right; right.
    + intros x Hx. by apply (core_pending _ _ _ _ _ _ HC), Hsub.
    + intros x b [Hx|Hx]%elem_of_app.
      * by apply (core_resolved _ _ _ _ _ _ HC).
      * apply list_elem_of_singleton in Hx as [= -> ->]. split; [|done].
        apply (core_pending _ _ _ _ _ _ HC). rewrite Hpend.
        apply elem_of_app. right. by left.
    + intros Hstrict Hf.
      rewrite (core_strict _ _ _ _ _ _ HC Hstrict Hf) in Hw.
      by destruct Hw.
  - apply Core_failSecret; try done. auto.
Qed.

Lemma Core_writeStep disk0 fs0 st s bytes pre post :
  Core digest policy caps disk0 fs0 st →
  working (Engine.phase st) →
  Engine.resolved st = pre ++ (s, bytes) :: post →
  Core digest policy caps disk0 fs0
    (Engine.writeStep digest policy caps st ((s, bytes), pre ++ post)).
Proof.
  intros HC Hw Hres.
  assert (Hsub : ∀ x, x ∈ pre ++ post → x ∈ Engine.resolved st).
  { intros x. rewrite Hres, !elem_of_app, elem_of_cons. tauto. }
  assert (Hsup : ∀ x, x ∈ (Engine.resolved st).*1 →
                      x = s ∨ x ∈ (pre ++ post).*1).
  { intros x. rewrite Hres, !fmap_app, fmap_cons, !elem_of_app, elem_of_cons.
    simpl. tauto. }
  assert (Hs : s ∈ Engine.manifest st).
  { apply (core_resolved _ _ _ _ _ _ HC s bytes). rewrite Hres.
    apply elem_of_app. right. by left. }
  unfold Engine.writeStep.
  destruct (Engine.materialize digest caps (Engine.store st) (Engine.fs st)
              s bytes) as [m|e] eqn:Hmat.
  - pose proof (working_not_committed _ Hw) as Hnc.
    pose proof (core_commits _ _ _ _ _ _ HC) as Hcommits.
    pose proof (core_disk _ _ _ _ _ _ HC) as Hdisk.
    rewrite Hnc in Hcommits, Hdisk.
    assert (Hnot : Engine.notified (Engine.trace st) = []).
    { apply (core_notified _ _ _ _ _ _ HC). by destruct Hw as [-> | ->]. }
    apply materialize_inv in Hmat as [Hfault [[Hcl ->]|[Hcl ->]]];
      constructor; simpl;
      rewrite ?commits_app, ?notified_app, ?app_nil_r, ?Hcommits, ?Hnot;
      try done; try (by destruct (Engine.pending st));
      try (intros [?|?]; by destruct (Engine.pending st));
      try (by apply (core_pending _ _ _ _ _ _ HC));
      try (intros x b Hx; by apply (core_resolved _ _ _ _ _ _ HC), Hsub).
    + intros n r Hn. eapply backed_mono;
        [by apply (core_store _ _ _ _ _ _ HC)|done..].
    + intros x Hx.
      destruct (core_cover _ _ _ _ _ _ HC x Hx) as [Hin|[Hin|(o & Ho & Hn)]].
      * by left.
      * destruct (Hsup x Hin) as [->|?]; [|by right; left].
        right; right. eexists. split; [apply elem_of_app; right; by left|done].
      * right; right. exists o. split; [|done]. apply elem_of_app. by left.
    + intros Hstrict. rewrite hasFailed_app. simpl. rewrite !orb_false_r.
      intros Hf. rewrite (core_strict _ _ _ _ _ _ HC Hstrict Hf) in Hw.
      by destruct Hw.
    + intros n r Hn.
      destruct (decide (Engine.name (Engine.spec s) = n)) as [<-|Hne].
      * rewrite lookup_insert_eq in Hn. injection Hn as <-.
        right. exists s, bytes. simpl. split_and!; try done.
        apply elem_of_app. right. by left.
      * rewrite lookup_insert_ne in Hn by done.
        eapply backed_mono; [by apply (core_store _ _ _ _ _ _ HC)|done|].
        intros e He. simpl. apply elem_of_app. by left.
    + intros x Hx.
      destruct (core_cover _ _ _ _ _ _ HC x Hx) as [Hin|[Hin|(o & Ho & Hn)]].
      * by left.
      * destruct (Hsup x Hin) as [->|?]; [|by right; left].
        right; right. eexists. split; [apply elem_of_app; right; by left|done].
      * right; right. exists o. split; [|done]. apply elem_of_app. by left.
    + intros Hstrict. rewrite hasFailed_app. simpl. rewrite !orb_false_r.
      intros Hf. rewrite (core_strict _ _ _ _ _ _ HC Hstrict Hf) in Hw.
      by destruct Hw.
  - apply Core_failSecret; try done. auto.
Qed.

Lemma Core_finishStep disk0 fs0 st :
  Core digest policy caps disk0 fs0 st →
  working (Engine.phase st) →
  Engine.pending st = [] →
  Engine.resolved st = [] →
  Core digest policy caps disk0 fs0 (Engine.finishStep policy st).
Proof.
  intros HC Hw Hp Hr.
  pose proof (working_not_committed _ Hw) as Hnc.
  pose proof (core_commits _ _ _ _ _ _ HC) as Hcommits.
  pose proof (core_disk _ _ _ _ _ _ HC) as Hdisk.
  rewrite Hnc in Hcommits, Hdisk.
  assert (Hnot : Engine.notified (Engine.trace st) = []).
  { apply (core_notified _ _ _ _ _ _ HC). by destruct Hw as [-> | ->]. }
  unfold Engine.finishStep, Engine.abort.
  destruct (Engine.hasFailed (Engine.outcomes st)
            && (Reference.rollbackOnFailure policy
                || negb (Reference.continueOnError policy))) eqn:Hfail;
    [destruct (Reference.rollbackOnFailure policy)|];
    constructor; simpl;
    rewrite ?commits_app, ?notified_app, ?commits_Restored,
      ?notified_Restored, ?Hcommits, ?Hnot;
    try done;
    try apply (core_cover _ _ _ _ _ _ HC);
    try apply (core_pending _ _ _ _ _ _ HC);
    try apply (core_resolved _ _ _ _ _ _ HC).
  all: try (intros n r Hn; eapply backed_mono;
            [by apply (core_store _ _ _ _ _ _ HC)|done|];
            intros e He; simpl; rewrite ?elem_of_app; auto).
  intros Hstrict Hf. rewrite (core_strict _ _ _ _ _ _ HC Hstrict Hf) in Hw.
  by destruct Hw.
Qed.

Lemma Core_commitStep disk0 fs0 st :
  Core digest policy caps disk0 fs0 st →
  Engine.phase st = Engine.Committing →
  Core digest policy caps disk0 fs0 (Engine.commitStep st).
Proof.
  intros HC Hph.
  pose proof (core_commits _ _ _ _ _ _ HC) as Hcommits.
  rewrite Hph in Hcommits. simpl in Hcommits.
  constructor; simpl; rewrite ?commits_app, ?notified_app, ?Hcommits;
    try done;
    try apply (core_cover _ _ _ _ _ _ HC);
    try apply (core_pending _ _ _ _ _ _ HC);
    try apply (core_resolved _ _ _ _ _ _ HC).
  - intros _. rewrite app_nil_r.
    apply (core_notified _ _ _ _ _ _ HC). by rewrite Hph.
  - intros n r Hn. eapply backed_mono;
      [by apply (core_store _ _ _ _ _ _ HC)|done|].
    intros e He. simpl. apply elem_of_app. by left.
  - intros _. apply (core_barrier _ _ _ _ _ _ HC). by left.
  - intros Hstrict Hf.
    by rewrite (core_strict _ _ _ _ _ _ HC Hstrict Hf) in Hph.
Qed.

Lemma Core_notifyStep disk0 fs0 st :
  Core digest policy caps disk0 fs0 st →
  Engine.phase st = Engine.Notifying →
  Core digest policy caps disk0 fs0 (Engine.notifyStep caps st).
Proof.
  intros HC Hph.
  pose proof (core_commits _ _ _ _ _ _ HC) as Hcommits.
  pose proof (core_disk _ _ _ _ _ _ HC) as Hdisk.
  rewrite Hph in Hcommits, Hdisk. simpl in Hcommits, Hdisk.
  constructor; simpl;
    rewrite ?commits_app, ?commits_Notified, ?Hcommits;
    try done;
    try apply (core_cover _ _ _ _ _ _ HC);
    try apply (core_pending _ _ _ _ _ _ HC);
    try apply (core_resolved _ _ _ _ _ _ HC).
  - intros n r Hn. eapply backed_mono;
      [by apply (core_store _ _ _ _ _ _ HC)|done|].
    intros e He. simpl. apply elem_of_app. by left.
  - intros _. apply (core_barrier _ _ _ _ _ _ HC). right. by rewrite Hph.
  - intros Hstrict Hf.
    by rewrite (core_strict _ _ _ _ _ _ HC Hstrict Hf) in Hph.
Qed.

Lemma Core_Move disk0 fs0 st st' :
  Core digest policy caps disk0 fs0 st →
  Move st st' →
  Core digest policy caps disk0 fs0 st'.
Proof.
  intros HC Hm. destruct Hm.
  - by apply Core_loadStep.
  - by apply Core_resolveStep.
  - by apply Core_writeStep.
  - by apply Core_finishStep.
  - by apply Core_commitStep.
  - by apply Core_notifyStep.
Qed.

Lemma Core_reachable disk0 fs0 st :
  reachable (Engine.initial disk0 fs0) st →
  Core digest policy caps disk0 fs0 st.
Proof.
  apply reachable_ind; [apply Core_initial|].
  intros mid st' _ HC Hm. by eapply Core_Move.
Qed.

(** *** The invariant [Kept]: the records and the files *)

Lemma onFile_same st st' n r :
  onFile digest st n r →
  Engine.manifest st' = Engine.manifest st →
  (∀ p, Engine.content <$> Engine.fs st' !! p
        = Engine.content <$> Engine.fs st !! p) →
  onFile digest st' n r.
Proof.
  intros (s & f & Hs & Hn & Hf & Hh) Hm Hfs.
  specialize (Hfs (Engine.dest s)). rewrite Hf in Hfs.
  destruct (Engine.fs st' !! Engine.dest s) as [f'|] eqn:Hf'; [|done].
  injection Hfs as Hc. exists s, f'. rewrite Hm, Hc. by split_and!.
Qed.

Lemma Kept_initial disk0 fs0 : Kept digest disk0 (Engine.initial disk0 fs0).
Proof.
  constructor; simpl; [apply NoDup_nil_2|].
  intros _ n r Hn. absurd_membership.
Qed.

Lemma Kept_same disk0 st st' :
  Kept digest disk0 st →
  Engine.manifest st' = Engine.manifest st →
  Engine.phase st' = Engine.FailedRun
  ∨ (Engine.phase st ≠ Engine.FailedRun
     ∧ Engine.store st' = Engine.store st
     ∧ Engine.fs st' = Engine.fs st) →
  Kept digest disk0 st'.
Proof.
  intros HK Hm Hcase. constructor; [rewrite Hm; apply HK|].
  intros Hph n r Hn. destruct Hcase as [?|(Hph0 & Hst & Hfs)]; [done|].
  rewrite Hst in Hn.
  destruct (kept_store _ _ _ HK Hph0 n r Hn) as [?|Hon]; [by left|right].
  eapply onFile_same; [exact Hon|done|]. intros p. by rewrite Hfs.
Qed.

Lemma Kept_failSecret disk0 st s why pending_ resolved_ :
  Kept digest disk0 st →
  Engine.phase st ≠ Engine.FailedRun →
  Kept digest disk0 (Engine.failSecret policy st s why pending_ resolved_).
Proof.
  intros HK Hph. unfold Engine.failSecret, Engine.abort.
  destruct (Reference.continueOnError policy);
    (eapply Kept_same; [exact HK|done|]); [right|left]; done.
Qed.

Lemma working_not_failed ph : working ph → ph ≠ Engine.FailedRun.
Proof. by intros [-> | ->]. Qed.

Lemma Kept_Move disk0 fs0 st st' :
  Core digest policy caps disk0 fs0 st →
  Kept digest disk0 st →
  Move st st' →
  Kept digest disk0 st'.
Proof.
  intros HC HK Hm.
  destruct Hm as [st Hph|st s pre post Hw Hp|st s bytes pre post Hw Hr
                  |st Hw Hp Hr|st Hph|st Hph].
  - (* the manifest is loaded *)
    pose proof (core_loading _ _ _ _ _ _ HC Hph) as ->.
    unfold Engine.loadStep.
    destruct (Engine.load outputDir sources) as [m|e] eqn:Hload.
    + constructor; simpl; [by eapply load_NoDup_dests|].
      intros _ n r Hn. by left.
    + constructor; simpl; [apply NoDup_nil_2|done].
  - (* a secret is resolved *)
    pose proof (working_not_failed _ Hw) as Hnf.
    unfold Engine.resolveStep.
    destruct (Engine.resolveSecret policy caps s) as [bytes|e].
    + eapply Kept_same; [exact HK|done|]. right. done.
    + by apply Kept_failSecret.
  - (* a secret is materialized *)
    pose proof (working_not_failed _ Hw) as Hnf.
    assert (Hs : s ∈ Engine.manifest st).
    { apply (core_resolved _ _ _ _ _ _ HC s bytes). rewrite Hr.
      apply elem_of_app. right. by left. }
    unfold Engine.writeStep.
    destruct (Engine.materialize digest caps (Engine.store st) (Engine.fs st)
                s bytes) as [m|e] eqn:Hmat; [|by apply Kept_failSecret].
    apply materialize_inv in Hmat as [_ [[_ ->]|[_ ->]]];
      (constructor; simpl; [apply HK|]); intros _ n r Hn.
    + destruct (kept_store _ _ _ HK Hnf n r Hn) as [?|Hon]; [by left|right].
      eapply onFile_same; [exact Hon|done|]. intros p. simpl.
      destruct (decide (Engine.dest s = p)) as [<-|Hne].
      * rewrite lookup_alter_eq. by destruct (Engine.fs st !! Engine.dest s).
      * by rewrite lookup_alter_ne.
    + destruct (decide (Engine.name (Engine.spec s) = n)) as [<-|Hne].
      * rewrite lookup_insert_eq in Hn. injection Hn as <-. right.
        exists s, (Engine.newFile s bytes). simpl.
        split_and!; [done|done| |done]. apply lookup_insert_eq.
      * rewrite lookup_insert_ne in Hn by done.
        destruct (kept_store _ _ _ HK Hnf n r Hn)
          as [?|(s0 & f & Hs0 & Hn0 & Hf & Hh)]; [by left|right].
        exists s0, f. simpl. split_and!; [done|done| |done].
        rewrite lookup_insert_ne; [done|]. intros Hd.
        apply Hne. rewrite <- Hn0.
        assert (Heq : s = s0); [|by rewrite Heq].
        eapply NoDup_fmap_eq; [apply (kept_dests _ _ _ HK)|done..].
  - (* the barrier *)
    pose proof (working_not_failed _ Hw) as Hnf.
    unfold Engine.finishStep, Engine.abort.
    destruct (Engine.hasFailed (Engine.outcomes st)
              && (Reference.rollbackOnFailure policy
                  || negb (Reference.continueOnError policy)));
      (eapply Kept_same; [exact HK|done|]); [left|right]; done.
  - (* the commit *)
    eapply Kept_same; [exact HK|done|]. right. by rewrite Hph.
  - (* the notifications *)
    eapply Kept_same; [exact HK|done|]. right. by rewrite Hph.
Qed.

Lemma Kept_reachable disk0 fs0 st :
  reachable (Engine.initial disk0 fs0) st → Kept digest disk0 st.
Proof.
  apply reachable_ind; [apply Kept_initial|].
  intros mid st' Hmid HK Hm. eapply Kept_Move; [|exact HK|exact Hm].
  by apply Core_reachable.
Qed.

(** Every record of the Hash Store file is the one the run started with,
    or has its content on file. *)
Lemma disk_onFile disk0 fs0 st n r :
  reachable (Engine.initial disk0 fs0) st →
  Engine.disk st !! n = Some r →
  disk0 !! n = Some r
  ∨ (Engine.store st !! n = Some r ∧ onFile digest st n r).
Proof.
  intros Hreach Hn.
  pose proof (Core_reachable _ _ _ Hreach) as HC.
  pose proof (Kept_reachable _ _ _ Hreach) as HK.
  rewrite (core_disk _ _ _ _ _ _ HC) in Hn.
  destruct (committed (Engine.phase st)) eqn:Hph; [|by left].
  destruct (kept_store _ _ _ HK) with (n := n) (r := r) as [?|?];
    [by destruct (Engine.phase st)|done|by left|by right].
Qed.

Lemma terminal_no_move st :
  Engine.phase st = Engine.FailedRun ∨ Engine.phase st = Engine.Done →
  next st = [].
Proof. unfold Engine.next. by intros [-> | ->]. Qed.

(** The Hash Store file over one run. *)
Lemma run_commits_once
    (disk0 : gmap string Engine.HashRecord) (fs0 : gmap string Engine.File)
    (st : Engine.State) :
  reachable (Engine.initial disk0 fs0) st →
  Engine.commits (Engine.trace st) ≤ 1
  ∧ (Engine.commits (Engine.trace st) = 0 → Engine.disk st = disk0)
  ∧ (Engine.commits (Engine.trace st) = 1 →
       Engine.pending st = [] ∧ Engine.resolved st = []
       ∧ allMarked st ∧ Engine.disk st = Engine.store st)
  ∧ (∀ n r, Engine.disk st !! n = Some r → backed digest disk0 st n r)
  ∧ (∀ st', step st st' →
       Engine.commits (Engine.trace st) = 1 →
       Engine.disk st' = Engine.disk st
       ∧ Engine.fs st' = Engine.fs st
       ∧ Engine.rewrites (Engine.trace st')
         = Engine.rewrites (Engine.trace st)).
Proof.
  intros Hreach. pose proof (Core_reachable _ _ _ Hreach) as HC.
  pose proof (core_commits _ _ _ _ _ _ HC) as Hcommits.
  pose proof (core_disk _ _ _ _ _ _ HC) as Hdisk.
  destruct (committed (Engine.phase st)) eqn:Hc.
  - assert (Hbar : Engine.pending st = [] ∧ Engine.resolved st = []).
    { apply (core_barrier _ _ _ _ _ _ HC). by right. }
    destruct Hbar as [Hp Hr].
    split_and!; try (rewrite Hcommits; lia); try done.
    + intros _. split_and!; try done.
      intros s Hs.
      destruct (core_cover _ _ _ _ _ _ HC s Hs) as [Hin|[Hin|Hin]];
        [rewrite Hp in Hin|rewrite Hr in Hin; simpl in Hin|done];
        absurd_membership.
    + intros n r. rewrite Hdisk. apply (core_store _ _ _ _ _ _ HC).
    + intros st' Hstep _. apply step_Move in Hstep.
      destruct Hstep as [st Hph|st s pre post Hw|st s b pre post Hw
                         |st Hw|st Hph|st Hph];
        try (rewrite Hph in Hc; done);
        try (rewrite (working_not_committed _ Hw) in Hc; done).
      simpl. by rewrite rewrites_app, rewrites_Notified, app_nil_r.
  - split_and!; try (rewrite Hcommits; lia); try done.
    intros n r. rewrite Hdisk. intros Hn. by left.
Qed.

(** C3, as amended: the documented default of [continueOnError] is
    [true].  When it is set to [false], a state with a failed secret is the
    end of the run: nothing can follow, the Hash Store file is the one the
    run started with, nobody has been notified; and the move that marked
    the first failure left the files as they were, those written before it
    included, unless [rollbackOnFailure] is set, in which case it put the
    preserved copies back. *)
Theorem strict_failure_aborts
    (disk0 : gmap string Engine.HashRecord) (fs0 : gmap string Engine.File)
    (st st' : Engine.State) :
  Reference.continueOnError policy = false →
  reachable (Engine.initial disk0 fs0) st →
  step st st' →
  Engine.hasFailed (Engine.outcomes st) = false →
  Engine.hasFailed (Engine.outcomes st') = true →
  Reference.continueOnError Reference.errorHandlingDefaults = true
  ∧ Engine.phase st' = Engine.FailedRun
  ∧ next st' = []
  ∧ Engine.commits (Engine.trace st') = 0
  ∧ Engine.disk st' = disk0
  ∧ Engine.notified (Engine.trace st') = []
  ∧ (if Reference.rollbackOnFailure policy
     then Engine.fs st' = Engine.restore (Engine.preserved st) (Engine.fs st)
     else Engine.fs st' = Engine.fs st
          ∧ Engine.trace st' = Engine.trace st).
Proof.
  intros Hstrict Hreach Hstep Hbefore Hafter.
  assert (HC : Core digest policy caps disk0 fs0 st').
  { apply Core_reachable. by eapply rtc_r. }
  pose proof (core_strict _ _ _ _ _ _ HC Hstrict Hafter) as Hph.
  pose proof (core_commits _ _ _ _ _ _ HC) as Hcommits.
  pose proof (core_disk _ _ _ _ _ _ HC) as Hdisk.
  rewrite Hph in Hcommits, Hdisk. simpl in Hcommits, Hdisk.
  split_and!; try done.
  - apply terminal_no_move. by left.
  - apply (core_notified _ _ _ _ _ _ HC). by rewrite Hph.
  - clear HC Hph Hcommits Hdisk. apply step_Move in Hstep.
    destruct Hstep as [st Hph|st s pre post Hw Hp|st s b pre post Hw Hr
                       |st Hw Hp Hr|st Hph|st Hph].
    + unfold Engine.loadStep in Hafter.
      destruct (Engine.load outputDir sources); simpl in Hafter; congruence.
    + unfold Engine.resolveStep in *.
      destruct (Engine.resolveSecret policy caps s);
        [simpl in Hafter; congruence|].
      unfold Engine.failSecret, Engine.abort. rewrite Hstrict. simpl.
      by destruct (Reference.rollbackOnFailure policy).
    + unfold Engine.writeStep in *.
      destruct (Engine.materialize digest caps (Engine.store st)
                  (Engine.fs st) s b) as [m|e] eqn:Hmat.
      * simpl in Hafter. rewrite hasFailed_app, Hbefore in Hafter.
        apply materialize_inv in Hmat as [_ [[_ ->]|[_ ->]]]; done.
      * unfold Engine.failSecret, Engine.abort. rewrite Hstrict. simpl.
        by destruct (Reference.rollbackOnFailure policy).
    + unfold Engine.finishStep in *. rewrite Hbefore in *. simpl in *.
      congruence.
    + simpl in Hafter. congruence.
    + simpl in Hafter. congruence.
Qed.

End OrchestratorFacts.

(** C3, the claim as stated fails: the configuration reference documents
    [true] as the default of [errorHandling.continueOnError]. *)
Lemma continueOnError_defaults_to_true :
  Reference.continueOnError Reference.errorHandlingDefaults ≠ false.
Proof. discriminate. Qed.

Lemma Installed_durable digest h :
  Installed digest h →
  ∀ n r, hostDisk h !! n = Some r → durable digest (hostHistory h) n r.
Proof.
  induction 1 as [files|h policy outputDir caps sources st Hh IH Hreach];
    simpl; intros n r Hn.
  - by rewrite lookup_empty in Hn.
  - destruct (run_commits_once digest policy outputDir caps sources
                _ _ st Hreach) as (_ & _ & _ & Hbacked & _).
    destruct (Hbacked n r Hn) as [Hold|(s & b & _ & _ & _ & Hev & Hh')].
    + destruct (IH n r Hold) as (p & c & Hev & Hh').
      exists p, c. split; [|done]. apply elem_of_app. by left.
    + exists (Engine.dest s), b. split; [|done]. apply elem_of_app. by right.
Qed.

Lemma onceOnFile_later digest h h' n r :
  onceOnFile digest h n r →
  hostHistory h `prefix_of` hostHistory h' →
  onceOnFile digest h' n r.
Proof.
  intros (h0 & policy & outputDir & caps & sources & st
          & Hh0 & Hreach & Hpre & Hst & Hon) Hlater.
  exists h0, policy, outputDir, caps, sources, st.
  split_and!; try done. by etrans.
Qed.

Lemma Installed_onceOnFile digest h :
  Installed digest h →
  ∀ n r, hostDisk h !! n = Some r → onceOnFile digest h n r.
Proof.
  induction 1 as [files|h policy outputDir caps sources st Hh IH Hreach];
    simpl; intros n r Hn.
  - by rewrite lookup_empty in Hn.
  - destruct (disk_onFile digest policy outputDir caps sources
                _ _ st n r Hreach Hn) as [Hold|[Hst Hon]].
    + eapply onceOnFile_later; [apply (IH n r Hold)|].
      simpl. by apply prefix_app_r.
    + exists h, policy, outputDir, caps, sources, st.
      by split_and!.
Qed.

(** C1: on a host that runs of the engine have produced, in every state
    a further run can reach: the commit has happened at most once; before
    it the Hash Store file is the one the run started with; it happens only
    when no secret is left to resolve or to write and every secret of the
    manifest has its outcome, and it stores the mapping in memory; every
    record of the file is the one the run started with or digests bytes
    written in this run to the destination of its secret; every record
    digests bytes that some run wrote for its secret; after the commit
    no move touches the file or the files again; every record of the file
    is the one the run started with or digests the content of the file
    that stands at the destination of its secret; and for every record of
    the file, this run or an earlier one has been in a state in which the
    file at the destination of the secret had the content the record
    digests. *)
Theorem hash_store_reflects_committed_writes
    (digest : string → string)
    (policy : Reference.errorHandling) (outputDir : string)
    (caps : Engine.Capabilities) (sources : list Engine.SecretManifest)
    (h : Host) (st : Engine.State) :
  Installed digest h →
  Engine.reachable digest policy outputDir caps sources
    (Engine.initial (hostDisk h) (hostFiles h)) st →
  Engine.commits (Engine.trace st) ≤ 1
  ∧ (Engine.commits (Engine.trace st) = 0 → Engine.disk st = hostDisk h)
  ∧ (Engine.commits (Engine.trace st) = 1 →
       Engine.pending st = [] ∧ Engine.resolved st = []
       ∧ allMarked st ∧ Engine.disk st = Engine.store st)
  ∧ (∀ n r, Engine.disk st !! n = Some r →
            backed digest (hostDisk h) st n r)
  ∧ (∀ n r, Engine.disk st !! n = Some r →
            durable digest (hostHistory h ++ Engine.trace st) n r)
  ∧ (∀ st', Engine.step digest policy outputDir caps sources st st' →
       Engine.commits (Engine.trace st) = 1 →
       Engine.disk st' = Engine.disk st
       ∧ Engine.fs st' = Engine.fs st
       ∧ Engine.rewrites (Engine.trace st')
         = Engine.rewrites (Engine.trace st))
  ∧ (∀ n r, Engine.disk st !! n = Some r →
            hostDisk h !! n = Some r
            ∨ (Engine.store st !! n = Some r ∧ onFile digest st n r))
  ∧ (∀ n r, Engine.disk st !! n = Some r →
            onceOnFile digest
              {| hostDisk := Engine.disk st; hostFiles := Engine.fs st;
                 hostHistory := hostHistory h ++ Engine.trace st |} n r).
Proof.
  intros Hh Hreach.
  destruct (run_commits_once digest policy outputDir caps sources
              _ _ st Hreach) as (Hle & Hzero & Hone & Hbacked & Hafter).
  split_and!; try done.
  - apply (Installed_durable digest _ (AfterRun digest h policy outputDir
                                         caps sources st Hh Hreach)).
  - intros n r Hn. by eapply disk_onFile.
  - apply (Installed_onceOnFile digest _
             (AfterRun digest h policy outputDir caps sources st Hh Hreach)).
Qed.

Lemma hash_store_reflects_committed_writes_witness :
  let h := {| hostDisk := ∅; hostFiles := ∅; hostHistory := [] |} in
  let st := Engine.run toy_digest Reference.errorHandlingDefaults
              "/var/lib/opnix/secrets" healthy [two_secrets_manifest] 20
              (Engine.initial ∅ ∅) in
  Engine.phase st = Engine.Done
  ∧ Engine.commits (Engine.trace st) = 1
  ∧ (Engine.pending st = [] ∧ Engine.resolved st = []
     ∧ allMarked st ∧ Engine.disk st = Engine.store st)
  ∧ (∀ n r, Engine.disk st !! n = Some r →
            durable toy_digest (Engine.trace st) n r)
  ∧ (∀ n r, Engine.disk st !! n = Some r → onFile toy_digest st n r)
  ∧ Engine.contentHash <$> Engine.disk st !! "dbpass"
    = Some (toy_digest "value of op://Homelab/Database/password")
  ∧ Engine.content <$> Engine.fs st !! "/etc/secrets/pg/dbpass"
    = Some "value of op://Homelab/Database/password".
Proof.
  intros h st.
  destruct (hash_store_reflects_committed_writes toy_digest
              Reference.errorHandlingDefaults "/var/lib/opnix/secrets"
              healthy [two_secrets_manifest] h st)
    as (_ & _ & Hbarrier & _ & Hdurable & _ & Hfile & _).
  { apply Pristine. }
  { apply run_reachable. }
  split; [reflexivity|]. split; [reflexivity|].
  split; [by apply Hbarrier|]. split; [exact Hdurable|].
  split; [|split; reflexivity].
  intros n r Hn. destruct (Hfile n r Hn) as [Hold|[_ Hon]]; [|exact Hon].
  unfold h in Hold. simpl in Hold. by rewrite lookup_empty in Hold.
Defined.

Lemma strict_failure_aborts_witness :
  let st := Engine.run toy_digest strict_policy "/var/lib/opnix/secrets"
              disk_full [two_secrets_manifest] 4 (Engine.initial ∅ ∅) in
  let st' := Engine.run toy_digest strict_policy "/var/lib/opnix/secrets"
               disk_full [two_secrets_manifest] 5 (Engine.initial ∅ ∅) in
  Engine.outcomeOf <$> Engine.outcomes st = ["dbpass"]
  ∧ Engine.phase st' = Engine.FailedRun
  ∧ Engine.commits (Engine.trace st') = 0
  ∧ Engine.disk st' = ∅
  ∧ Engine.notified (Engine.trace st') = []
  ∧ Engine.fs st' = Engine.fs st
  ∧ Engine.content <$> Engine.fs st' !! "/etc/secrets/pg/dbpass"
    = Some "value of op://Homelab/Database/password".
Proof.
  intros st st'.
  destruct (strict_failure_aborts toy_digest strict_policy
              "/var/lib/opnix/secrets" disk_full [two_secrets_manifest]
              ∅ ∅ st st')
    as (_ & Hph & _ & Hcommits & Hdisk & Hnotified & Hfs & _).
  - reflexivity.
  - apply run_reachable.
  - unfold Engine.step. vm_compute. left.
  - reflexivity.
  - reflexivity.
  - split_and!; done.
Defined.

(** ** The engine: a second run *)

Section SecondRun.

Context (digest : string → string).
Context (policy : Reference.errorHandling) (outputDir : string).
Context (caps : Engine.Capabilities) (sources : list Engine.SecretManifest).

Local Abbreviation step := (Engine.step digest policy outputDir caps sources).
Local Abbreviation reachable :=
  (Engine.reachable digest policy outputDir caps sources).
Local Abbreviation Move := (Move digest policy outputDir caps sources).
Local Abbreviation Core := (Core digest policy caps).
Local Abbreviation Settling :=
  (Settling digest policy outputDir caps sources).
Local Abbreviation settledIn := (settled digest policy caps).

Lemma settled_mono d d' f f' s :
  settledIn d f s →
  (f = true → f' = true) →
  (∀ r, d !! Engine.name (Engine.spec s) = Some r →
        d' !! Engine.name (Engine.spec s) = Some r) →
  settledIn d' f' s.
Proof.
  unfold settled. intros Hs Hf Hd.
  destruct (Engine.resolveSecret policy caps s); [|auto].
  destruct (Engine.fault caps (Engine.dest s)); [auto|].
  destruct Hs as (r & Hr & Hh). exists r. auto.
Qed.

Lemma workPhase_not_loading l : Engine.workPhase l ≠ Engine.Loading.
Proof. by destruct l. Qed.

Lemma workPhase_not_barrier l :
  ¬ (Engine.workPhase l = Engine.Committing
     ∨ committed (Engine.workPhase l) = true).
Proof. by destruct l; intros [?|?]. Qed.

Lemma working_not_loading ph : working ph → ph ≠ Engine.Loading.
Proof. by intros [-> | ->]. Qed.

Lemma Settling_initial disk0 fs0 : Settling (Engine.initial disk0 fs0).
Proof.
  constructor; simpl;
    [apply NoDup_nil_2|done|intros; absurd_membership|by intros [?|?]].
Qed.

Lemma Settling_failSecret st s why pending_ resolved_ :
  Settling st →
  working (Engine.phase st) →
  settledIn (Engine.store st) true s →
  (∀ x, x ∈ Engine.pending st → x = s ∨ x ∈ pending_) →
  (∀ x, x ∈ (Engine.resolved st).*1 → x = s ∨ x ∈ resolved_.*1) →
  Settling (Engine.failSecret policy st s why pending_ resolved_).
Proof.
  intros HS Hw Hs Hp Hr.
  assert (Heach : ∀ x, x ∈ Engine.manifest st →
            x ∈ pending_ ∨ x ∈ resolved_.*1
            ∨ settledIn (Engine.store st)
                (Engine.hasFailed
                   (Engine.outcomes st ++
                    [ {| Engine.outcomeOf := Engine.name (Engine.spec s);
                         Engine.status := Engine.Failed;
                         Engine.failure := Some why |} ])) x).
  { intros x Hx. rewrite hasFailed_app. simpl. rewrite orb_true_r.
    destruct (settling_each _ _ _ _ _ _ HS x Hx) as [Hin|[Hin|Hin]].
    - destruct (Hp x Hin) as [->|?]; [by right; right|by left].
    - destruct (Hr x Hin) as [->|?]; [by right; right|by right; left].
    - right; right. eapply settled_mono; [exact Hin|done..]. }
  pose proof (working_not_loading _ Hw) as Hnl.
  unfold Engine.failSecret, Engine.abort.
  destruct (Reference.continueOnError policy);
    [|destruct (Reference.rollbackOnFailure policy)];
    constructor; simpl;
    try apply (settling_names _ _ _ _ _ _ HS);
    try (intros m Hm _; by apply (settling_manifest _ _ _ _ _ _ HS));
    try exact Heach;
    try (by intros [?|?]);
    by intros ?%workPhase_not_barrier.
Qed.

Lemma Settling_Move disk0 fs0 st st' :
  Core disk0 fs0 st → Settling st → Move st st' → Settling st'.
Proof.
  intros HC HS Hm.
  destruct Hm as [st Hph|st s pre post Hw Hp|st s b pre post Hw Hr
                  |st Hw Hp Hr|st Hph|st Hph].
  - rewrite (core_loading _ _ _ _ _ _ HC Hph). unfold Engine.loadStep.
    destruct (Engine.load outputDir sources) as [m|e] eqn:Hload.
    + constructor; simpl.
      * by eapply load_NoDup_names.
      * intros m' Hm' _. congruence.
      * intros s Hs. by left.
      * by intros ?%workPhase_not_barrier.
    + constructor; simpl;
        [apply NoDup_nil_2|congruence|intros; absurd_membership
        |by intros [?|?]].
  - assert (Hsup : ∀ x, x ∈ Engine.pending st → x = s ∨ x ∈ pre ++ post).
    { intros x. rewrite Hp, !elem_of_app, elem_of_cons. tauto. }
    unfold Engine.resolveStep.
    destruct (Engine.resolveSecret policy caps s) as [bytes|e] eqn:Hres.
    + constructor; simpl.
      * apply (settling_names _ _ _ _ _ _ HS).
      * intros m Hm _. apply (settling_manifest _ _ _ _ _ _ HS); [done|].
        by apply working_not_loading.
      * intros x Hx.
        destruct (settling_each _ _ _ _ _ _ HS x Hx) as [Hin|[Hin|Hin]].
        -- destruct (Hsup x Hin) as [->|?]; [|by left].
           right; left. rewrite fmap_app. apply elem_of_app. right. by left.
        -- right; left. rewrite fmap_app. apply elem_of_app. by left.
        -- by right; right.
      * by intros ?%workPhase_not_barrier.
    + apply Settling_failSecret; try done; [|auto].
      unfold settled. by rewrite Hres.
  - assert (Hsup : ∀ x, x ∈ (Engine.resolved st).*1 →
                        x = s ∨ x ∈ (pre ++ post).*1).
    { intros x. rewrite Hr, !fmap_app, fmap_cons, !elem_of_app, elem_of_cons.
      simpl. tauto. }
    assert (Hsb : s ∈ Engine.manifest st
                  ∧ Engine.resolveSecret policy caps s = Ok b).
    { apply (core_resolved _ _ _ _ _ _ HC). rewrite Hr.
      apply elem_of_app. right. by left. }
    destruct Hsb as [Hs Hres].
    unfold Engine.writeStep.
    destruct (Engine.materialize digest caps (Engine.store st) (Engine.fs st)
                s b) as [m|e] eqn:Hmat.
    + assert (Hflag : ∀ o, Engine.status o ≠ Engine.Failed →
                Engine.hasFailed (Engine.outcomes st ++ [o])
                = Engine.hasFailed (Engine.outcomes st)).
      { intros o Ho. rewrite hasFailed_app. simpl.
        destruct (Engine.status o); try done; by rewrite !orb_false_r. }
      apply materialize_inv in Hmat as [Hfault [[Hcl ->]|[Hcl ->]]];
        constructor; simpl; rewrite ?Hflag by done;
        try apply (settling_names _ _ _ _ _ _ HS);
        try (intros m Hm _; apply (settling_manifest _ _ _ _ _ _ HS);
             [done|by apply working_not_loading]);
        try (by intros ?%workPhase_not_barrier).
      * intros x Hx.
        destruct (settling_each _ _ _ _ _ _ HS x Hx) as [Hin|[Hin|Hin]];
          [by left| |by right; right].
        destruct (Hsup x Hin) as [->|?]; [|by right; left].
        right; right. unfold settled. rewrite Hres, Hfault.
        unfold Engine.classify in Hcl.
        destruct (Engine.store st !! Engine.name (Engine.spec s)) as [r|];
          [|done].
        case_bool_decide; [|done]. by exists r.
      * intros x Hx.
        destruct (decide (x = s)) as [->|Hne].
        { right; right. unfold settled. rewrite Hres, Hfault.
          eexists. rewrite lookup_insert_eq. by split. }
        destruct (settling_each _ _ _ _ _ _ HS x Hx) as [Hin|[Hin|Hin]];
          [by left| |].
        { destruct (Hsup x Hin) as [->|?]; [done|by right; left]. }
        right; right. eapply settled_mono; [exact Hin|done|].
        intros r Hlook. rewrite lookup_insert_ne; [done|].
        intros Heq. apply Hne. symmetry.
        by eapply (NoDup_fmap_eq (Engine.name ∘ Engine.spec));
          [apply (settling_names _ _ _ _ _ _ HS)|..].
    + apply Settling_failSecret; try done; [|auto].
      apply materialize_Err in Hmat.
      unfold settled. rewrite Hres, Hmat. done.
  - unfold Engine.finishStep, Engine.abort.
    destruct (Engine.hasFailed (Engine.outcomes st)
              && (Reference.rollbackOnFailure policy
                  || negb (Reference.continueOnError policy))) eqn:Hfail;
      [destruct (Reference.rollbackOnFailure policy)|];
      constructor; simpl;
      try apply (settling_names _ _ _ _ _ _ HS);
      try apply (settling_each _ _ _ _ _ _ HS);
      try (intros m Hm _; apply (settling_manifest _ _ _ _ _ _ HS);
           [done|by apply working_not_loading]);
      try (by intros [?|?]).
    intros _ Hf. rewrite Hf in Hfail. simpl in Hfail.
    apply orb_false_iff in Hfail as [? ?%negb_false_iff]. done.
  - constructor; simpl;
      try apply (settling_names _ _ _ _ _ _ HS);
      try apply (settling_each _ _ _ _ _ _ HS).
    + intros m Hm _. apply (settling_manifest _ _ _ _ _ _ HS); [done|].
      by rewrite Hph.
    + intros _. apply (settling_policy _ _ _ _ _ _ HS). by left.
  - constructor; simpl;
      try apply (settling_names _ _ _ _ _ _ HS);
      try apply (settling_each _ _ _ _ _ _ HS).
    + intros m Hm _. apply (settling_manifest _ _ _ _ _ _ HS); [done|].
      by rewrite Hph.
    + intros _. apply (settling_policy _ _ _ _ _ _ HS). right. by rewrite Hph.
Qed.

Lemma Settling_reachable disk0 fs0 st :
  reachable (Engine.initial disk0 fs0) st → Settling st.
Proof.
  apply (reachable_ind digest policy outputDir caps sources);
    [apply Settling_initial|].
  intros mid st' Hmid HS Hm.
  eapply Settling_Move; [|done..]. by eapply Core_reachable.
Qed.

(** Without a written secret nobody is notified; a notification always
    comes from a service attached to a secret written in the run. *)
Lemma elem_of_dedupServices seen l n :
  n ∈ Engine.dedupServices seen l → n ∈ l.
Proof.
  revert seen. induction l as [|x l IH]; intros seen; simpl; [done|].
  case_bool_decide.
  - intros ?%IH. by right.
  - intros [->|?%IH]%elem_of_cons; [by left|by right].
Qed.

Lemma notifications_from_written m l n :
  n ∈ Engine.notifications m l →
  ∃ s a, s ∈ m ∧ Engine.isWritten l s = true
         ∧ a ∈ Engine.services (Engine.spec s)
         ∧ Engine.notificationOf a = Some n.
Proof.
  unfold Engine.notifications.
  intros Hn%elem_of_dedupServices.
  apply list_elem_of_bind in Hn as (s & Hn & Hs).
  destruct (Engine.isWritten l s) eqn:Hw; [|by apply elem_of_nil in Hn].
  apply list_elem_of_omap in Hn as (a & Ha & Hna).
  by exists s, a.
Qed.

Lemma isWritten_false l s :
  (∀ o, o ∈ l → Engine.status o ≠ Engine.Written) →
  Engine.isWritten l s = false.
Proof.
  intros Hl. unfold Engine.isWritten.
  apply not_true_is_false. intros (o & Ho & Hw)%existsb_exists.
  apply list_elem_of_In in Ho. apply Hl in Ho.
  apply andb_true_iff in Hw as [_ Hw]. by destruct (Engine.status o).
Qed.

Lemma notifications_nil m l :
  (∀ o, o ∈ l → Engine.status o ≠ Engine.Written) →
  Engine.notifications m l = [].
Proof.
  intros Hl. destruct (Engine.notifications m l) as [|n ns] eqn:Hn; [done|].
  assert (Hin : n ∈ Engine.notifications m l) by (rewrite Hn; by left).
  apply notifications_from_written in Hin as (s & a & _ & Hw & _).
  by rewrite isWritten_false in Hw.
Qed.

(** What the materializer does to a secret whose digest is the stored
    one. *)
Lemma materialize_same st files s bytes r :
  st !! Engine.name (Engine.spec s) = Some r →
  Engine.contentHash r = digest bytes →
  Engine.classify digest st s bytes = Engine.Same
  ∧ ∀ m, Engine.materialize digest caps st files s bytes = Ok m →
         Engine.mat_status m = Engine.Unchanged
         ∧ Engine.mat_store m = st
         ∧ Engine.mat_events m = []
         ∧ ∀ p, Engine.content <$> Engine.mat_fs m !! p
                = Engine.content <$> files !! p.
Proof.
  intros Hr Hh.
  assert (Hcl : Engine.classify digest st s bytes = Engine.Same).
  { unfold Engine.classify. rewrite Hr. by rewrite bool_decide_eq_true_2. }
  split; [done|]. intros m Hm.
  apply materialize_inv in Hm as [_ [[_ ->]|[Hne _]]]; [|done].
  simpl. split_and!; try done.
  intros p. rewrite lookup_alter. case_decide as Hp; [|done].
  subst p. by destruct (files !! Engine.dest s).
Qed.

Section Idle.

Context (d : gmap string Engine.HashRecord) (failed : bool).
Context (files : gmap string Engine.File) (m : list Engine.Secret).
Hypothesis Hload : ∀ m', Engine.load outputDir sources = Ok m' → m' = m.
Hypothesis Hsettled : ∀ s, s ∈ m → settledIn d failed s.
Hypothesis Hpolicy :
  failed = true →
  Reference.rollbackOnFailure policy = false
  ∧ Reference.continueOnError policy = true.

Lemma Idle_initial : Idle d failed files m (Engine.initial d files).
Proof. constructor; simpl; try done; intros; absurd_membership. Qed.

Lemma Idle_failSecret st s why pending_ resolved_ :
  Idle d failed files m st →
  working (Engine.phase st) →
  failed = true →
  Idle d failed files m
    (Engine.failSecret policy st s why pending_ resolved_).
Proof.
  intros HI Hw Hf. destruct (Hpolicy Hf) as [Hroll Hcont].
  pose proof (working_not_loading _ Hw) as Hnl.
  unfold Engine.failSecret. rewrite Hcont.
  constructor; simpl.
  - intros _ _. apply (idle_store _ _ _ _ _ HI); by destruct Hw as [-> | ->].
  - apply (idle_rewrites _ _ _ _ _ HI).
  - apply (idle_notified _ _ _ _ _ HI).
  - intros o [Ho|Ho]%elem_of_app.
    + by apply (idle_outcomes _ _ _ _ _ HI).
    + by apply list_elem_of_singleton in Ho as ->.
  - done.
  - apply (idle_content _ _ _ _ _ HI).
  - apply (idle_manifest _ _ _ _ _ HI).
Qed.

Lemma Idle_Move st st' :
  Core d files st → Idle d failed files m st → Move st st' →
  Idle d failed files m st'.
Proof.
  intros HC HI Hm.
  destruct Hm as [st Hph|st s pre post Hw Hp|st s b pre post Hw Hr
                  |st Hw Hp Hr|st Hph|st Hph].
  - rewrite (core_loading _ _ _ _ _ _ HC Hph). unfold Engine.loadStep.
    destruct (Engine.load outputDir sources) as [m'|e] eqn:Hl.
    + assert (m' = m) as -> by (by apply Hload).
      constructor; simpl; try done; intros; absurd_membership.
    + constructor; simpl; try done; intros; absurd_membership.
  - assert (Hs : s ∈ m).
    { apply (idle_manifest _ _ _ _ _ HI), (core_pending _ _ _ _ _ _ HC).
      rewrite Hp. apply elem_of_app. right. by left. }
    unfold Engine.resolveStep.
    destruct (Engine.resolveSecret policy caps s) as [bytes|e] eqn:Hres.
    + constructor; simpl.
      * intros _ _.
        apply (idle_store _ _ _ _ _ HI); by destruct Hw as [-> | ->].
      * apply (idle_rewrites _ _ _ _ _ HI).
      * apply (idle_notified _ _ _ _ _ HI).
      * apply (idle_outcomes _ _ _ _ _ HI).
      * apply (idle_failed _ _ _ _ _ HI).
      * apply (idle_content _ _ _ _ _ HI).
      * apply (idle_manifest _ _ _ _ _ HI).
    + apply Idle_failSecret; [done..|].
      pose proof (Hsettled s Hs) as Hset. unfold settled in Hset.
      by rewrite Hres in Hset.
  - assert (Hsb : s ∈ Engine.manifest st
                  ∧ Engine.resolveSecret policy caps s = Ok b).
    { apply (core_resolved _ _ _ _ _ _ HC). rewrite Hr.
      apply elem_of_app. right. by left. }
    destruct Hsb as [Hs Hres].
    pose proof (Hsettled s (idle_manifest _ _ _ _ _ HI s Hs)) as Hset.
    unfold settled in Hset. rewrite Hres in Hset.
    assert (Hst : Engine.store st = d).
    { apply (idle_store _ _ _ _ _ HI); by destruct Hw as [-> | ->]. }
    unfold Engine.writeStep.
    destruct (Engine.materialize digest caps (Engine.store st) (Engine.fs st)
                s b) as [mat|e] eqn:Hmat.
    + pose proof Hmat as Hinv. apply materialize_inv in Hinv as [Hfault _].
      rewrite Hfault in Hset. destruct Hset as (r & Hr' & Hh).
      rewrite <- Hst in Hr'.
      destruct (materialize_same _ (Engine.fs st) _ _ _ Hr' Hh)
        as [_ Hsame].
      destruct (Hsame mat Hmat) as (Hstatus & Hstore & Hevents & Hcontent).
      constructor; simpl.
      * intros _ _. by rewrite Hstore.
      * rewrite Hevents, app_nil_r. apply (idle_rewrites _ _ _ _ _ HI).
      * rewrite Hevents, app_nil_r. apply (idle_notified _ _ _ _ _ HI).
      * intros o [Ho|Ho]%elem_of_app.
        -- by apply (idle_outcomes _ _ _ _ _ HI).
        -- apply list_elem_of_singleton in Ho as ->. simpl.
           by rewrite Hstatus.
      * rewrite hasFailed_app. simpl. rewrite Hstatus, !orb_false_r.
        apply (idle_failed _ _ _ _ _ HI).
      * intros p. rewrite Hcontent. apply (idle_content _ _ _ _ _ HI).
      * apply (idle_manifest _ _ _ _ _ HI).
    + apply Idle_failSecret; [done..|].
      apply materialize_Err in Hmat. by rewrite Hmat in Hset.
  - unfold Engine.finishStep.
    destruct (Engine.hasFailed (Engine.outcomes st)) eqn:Hf; simpl.
    + destruct (Hpolicy (idle_failed _ _ _ _ _ HI Hf)) as [-> ->].
      simpl. constructor; simpl.
      * intros _ _.
        apply (idle_store _ _ _ _ _ HI); by destruct Hw as [-> | ->].
      * apply (idle_rewrites _ _ _ _ _ HI).
      * apply (idle_notified _ _ _ _ _ HI).
      * apply (idle_outcomes _ _ _ _ _ HI).
      * intros _. by apply (idle_failed _ _ _ _ _ HI).
      * apply (idle_content _ _ _ _ _ HI).
      * apply (idle_manifest _ _ _ _ _ HI).
    + constructor; simpl.
      * intros _ _.
        apply (idle_store _ _ _ _ _ HI); by destruct Hw as [-> | ->].
      * apply (idle_rewrites _ _ _ _ _ HI).
      * apply (idle_notified _ _ _ _ _ HI).
      * apply (idle_outcomes _ _ _ _ _ HI).
      * by rewrite Hf.
      * apply (idle_content _ _ _ _ _ HI).
      * apply (idle_manifest _ _ _ _ _ HI).
  - constructor; simpl.
    + intros _ _. apply (idle_store _ _ _ _ _ HI); by rewrite Hph.
    + rewrite rewrites_app, app_nil_r. apply (idle_rewrites _ _ _ _ _ HI).
    + rewrite notified_app, app_nil_r. apply (idle_notified _ _ _ _ _ HI).
    + apply (idle_outcomes _ _ _ _ _ HI).
    + apply (idle_failed _ _ _ _ _ HI).
    + apply (idle_content _ _ _ _ _ HI).
    + apply (idle_manifest _ _ _ _ _ HI).
  - unfold Engine.notifyStep. cbv zeta.
    rewrite (notifications_nil _ _ (idle_outcomes _ _ _ _ _ HI)).
    constructor; simpl.
    + intros _ _. apply (idle_store _ _ _ _ _ HI); by rewrite Hph.
    + rewrite app_nil_r. apply (idle_rewrites _ _ _ _ _ HI).
    + rewrite app_nil_r. apply (idle_notified _ _ _ _ _ HI).
    + apply (idle_outcomes _ _ _ _ _ HI).
    + apply (idle_failed _ _ _ _ _ HI).
    + apply (idle_content _ _ _ _ _ HI).
    + apply (idle_manifest _ _ _ _ _ HI).
Qed.

Lemma Idle_reachable st :
  reachable (Engine.initial d files) st → Idle d failed files m st.
Proof.
  apply (reachable_ind digest policy outputDir caps sources);
    [apply Idle_initial|].
  intros mid st' Hmid HI Hm.
  eapply Idle_Move; [|done..]. by eapply Core_reachable.
Qed.

End Idle.

(** C2, as amended: when a run has gone through to [Done], a second run with the
    same manifest sources, policy, vault and file system, started on the
    Hash Store file and the files the first one left, writes or restores no
    file, notifies nobody, marks no secret [Written] and leaves the content
    of every file and the Hash Store file as they were, in every state it
    can reach.  The mechanism: a
    secret whose digest is the stored one is classified as unchanged, the
    materializer keeps its content, its record and emits no write; and a
    notification only ever comes from a service attached to a secret that
    was written in the run. *)
Theorem second_run_rewrites_nothing
    (disk0 : gmap string Engine.HashRecord) (fs0 : gmap string Engine.File)
    (st1 st2 : Engine.State) :
  reachable (Engine.initial disk0 fs0) st1 →
  Engine.phase st1 = Engine.Done →
  reachable (Engine.initial (Engine.disk st1) (Engine.fs st1)) st2 →
  Engine.rewrites (Engine.trace st2) = []
  ∧ Engine.notified (Engine.trace st2) = []
  ∧ (∀ o, o ∈ Engine.outcomes st2 → Engine.status o ≠ Engine.Written)
  ∧ (∀ p, Engine.content <$> Engine.fs st2 !! p
          = Engine.content <$> Engine.fs st1 !! p)
  ∧ Engine.disk st2 = Engine.disk st1
  ∧ (∀ st files s bytes r,
       st !! Engine.name (Engine.spec s) = Some r →
       Engine.contentHash r = digest bytes →
       Engine.classify digest st s bytes = Engine.Same
       ∧ ∀ m, Engine.materialize digest caps st files s bytes = Ok m →
              Engine.mat_status m = Engine.Unchanged
              ∧ Engine.mat_store m = st
              ∧ Engine.mat_events m = []
              ∧ ∀ p, Engine.content <$> Engine.mat_fs m !! p
                     = Engine.content <$> files !! p)
  ∧ (∀ m l n, n ∈ Engine.notifications m l →
       ∃ s a, s ∈ m ∧ Engine.isWritten l s = true
              ∧ a ∈ Engine.services (Engine.spec s)
              ∧ Engine.notificationOf a = Some n).
Proof.
  intros Hreach1 Hdone Hreach2.
  pose proof (Core_reachable _ _ _ _ _ _ _ _ Hreach1) as HC.
  pose proof (Settling_reachable _ _ _ Hreach1) as HS.
  pose proof (core_disk _ _ _ _ _ _ HC) as Hdisk.
  rewrite Hdone in Hdisk. simpl in Hdisk.
  destruct (core_barrier _ _ _ _ _ _ HC) as [Hp Hr].
  { right. by rewrite Hdone. }
  assert (HI : Idle (Engine.disk st1)
                 (Engine.hasFailed (Engine.outcomes st1))
                 (Engine.fs st1) (Engine.manifest st1) st2).
  { apply Idle_reachable; [| | |done].
    - intros m' Hm'. symmetry.
      apply (settling_manifest _ _ _ _ _ _ HS); [done|by rewrite Hdone].
    - intros s Hs. rewrite Hdisk.
      destruct (settling_each _ _ _ _ _ _ HS s Hs) as [Hin|[Hin|Hin]];
        [rewrite Hp in Hin|rewrite Hr in Hin; simpl in Hin|done];
        absurd_membership.
    - apply (settling_policy _ _ _ _ _ _ HS). right. by rewrite Hdone. }
  split_and!.
  - apply (idle_rewrites _ _ _ _ _ HI).
  - apply (idle_notified _ _ _ _ _ HI).
  - apply (idle_outcomes _ _ _ _ _ HI).
  - apply (idle_content _ _ _ _ _ HI).
  - pose proof (Core_reachable _ _ _ _ _ _ _ _ Hreach2) as HC2.
    rewrite (core_disk _ _ _ _ _ _ HC2).
    destruct (Engine.phase st2) eqn:Hph2; simpl; try done;
      apply (idle_store _ _ _ _ _ HI); by rewrite Hph2.
  - intros st files s bytes r. apply materialize_same.
  - apply notifications_from_written.
Qed.

End SecondRun.

Lemma second_run_rewrites_nothing_witness :
  let st1 := Engine.run toy_digest Reference.errorHandlingDefaults
               "/var/lib/opnix/secrets" healthy [two_secrets_manifest] 20
               (Engine.initial ∅ ∅) in
  let st2 := Engine.run toy_digest Reference.errorHandlingDefaults
               "/var/lib/opnix/secrets" healthy [two_secrets_manifest] 20
               (Engine.initial (Engine.disk st1) (Engine.fs st1)) in
  length (Engine.rewrites (Engine.trace st1)) = 2
  ∧ Engine.phase st2 = Engine.Done
  ∧ Engine.status <$> Engine.outcomes st2
    = [Engine.Unchanged; Engine.Unchanged]
  ∧ Engine.rewrites (Engine.trace st2) = []
  ∧ Engine.notified (Engine.trace st2) = [].
Proof.
  intros st1 st2.
  destruct (second_run_rewrites_nothing toy_digest
              Reference.errorHandlingDefaults "/var/lib/opnix/secrets"
              healthy [two_secrets_manifest] ∅ ∅ st1 st2)
    as (Hrewrites & Hnotified & _).
  - apply run_reachable.
  - reflexivity.
  - apply run_reachable.
  - split_and!; [reflexivity|reflexivity|reflexivity|exact Hrewrites
                |exact Hnotified].
Defined.

(** C2, the claim as stated fails: a run that is aborted, here because the
    destination of [apikey] cannot be written under
    [continueOnError = false], commits nothing and leaves the file it has
    written for [dbpass] in place.  A second run with the same manifest,
    the same policy and the same vault finds no record of [dbpass] and
    writes the same content again. *)
Lemma aborted_run_is_repeated :
  let run := Engine.run toy_digest strict_policy "/var/lib/opnix/secrets"
               disk_full [two_secrets_manifest] 20 in
  let st1 := run (Engine.initial ∅ ∅) in
  let st2 := run (Engine.initial (Engine.disk st1) (Engine.fs st1)) in
  Engine.overall st1 = Some Engine.RunFailure
  ∧ Engine.disk st1 = ∅
  ∧ Engine.content <$> Engine.fs st1 !! "/etc/secrets/pg/dbpass"
    = Some "value of op://Homelab/Database/password"
  ∧ Engine.rewrites (Engine.trace st2)
    = [ Engine.WroteFile "dbpass" "/etc/secrets/pg/dbpass"
          "value of op://Homelab/Database/password" ]
  ∧ Engine.rewrites (Engine.trace st2) ≠ []
  ∧ (Engine.status <$> Engine.outcomes st2)
    = [Engine.Written; Engine.Failed].
Proof. split_and!; by vm_compute. Qed.

(** ** The [env] command: quoting *)

Lemma escapeWith_app f a b :
  escapeWith f (a +:+ b) = escapeWith f a +:+ escapeWith f b.
Proof.
  induction a as [|c a IH]; [done|].
  rewrite app_cons. cbn [escapeWith]. by rewrite IH, app_assoc_string.
Qed.

Lemma escapeWith_ext f g s :
  (∀ c, f c = g c) → escapeWith f s = escapeWith g s.
Proof.
  intros H. induction s as [|c s IH]; [done|].
  cbn [escapeWith]. by rewrite H, IH.
Qed.

Lemma escapeWith_compose f g s :
  escapeWith g (escapeWith f s) = escapeWith (λ c, escapeWith g (f c)) s.
Proof.
  induction s as [|c s IH]; [done|].
  cbn [escapeWith]. by rewrite escapeWith_app, IH.
Qed.

(** [strings.ReplaceAll] with a pattern of one byte replaces byte by
    byte. *)
Lemma ReplaceAll_byte a new s :
  Env.ReplaceAll s (String a "") new
  = escapeWith (λ c, if bool_decide (a = c) then new else String c "") s.
Proof.
  unfold Env.ReplaceAll.
  induction s as [|c s IH]; [done|].
  rewrite replaceFrom_byte. cbn [escapeWith].
  case_bool_decide; by rewrite IH.
Qed.

Lemma shellQuote_escape v :
  Env.shellQuote v = "'" +:+ escapeWith shellEscape v +:+ "'".
Proof.
  unfold Env.shellQuote, str1.
  destruct (string_nonempty v) eqn:Hv; cbn [negb].
  - rewrite ReplaceAll_byte. do 2 f_equal.
    apply escapeWith_ext. intros c. unfold shellEscape, str1, ch_squote.
    repeat case_bool_decide; congruence.
  - apply string_nonempty_false in Hv. by subst v.
Qed.

Lemma readWord_single_other c s :
  c ≠ ch_squote →
  readWord SingleQuoted (String c s) = String c <$> readWord SingleQuoted s.
Proof. intros H. cbn [readWord]. by rewrite bool_decide_eq_false_2. Qed.

(** The five characters that stand for a single quote of the value, read
    between single quotes: the quote, and the quotes are open again. *)
Lemma readWord_single_quote s :
  readWord SingleQuoted
    (String ch_squote (String ch_dquote (String ch_squote
       (String ch_dquote (String ch_squote s)))))
  = String ch_squote <$> readWord SingleQuoted s.
Proof. reflexivity. Qed.

Lemma readWord_escape v :
  readWord SingleQuoted (escapeWith shellEscape v +:+ "'") = Some v.
Proof.
  induction v as [|c v IH]; [done|].
  cbn [escapeWith]. unfold shellEscape at 1. case_bool_decide as Hc.
  - subst c. unfold str1. rewrite app_assoc_string.
    change (readWord SingleQuoted
              (String ch_squote (String ch_dquote (String ch_squote
                 (String ch_dquote (String ch_squote
                    (escapeWith shellEscape v +:+ "'"))))))
            = Some (String ch_squote v)).
    by rewrite readWord_single_quote, IH.
  - unfold str1. rewrite app_assoc_string.
    change (readWord SingleQuoted
              (String c (escapeWith shellEscape v +:+ "'"))
            = Some (String c v)).
    by rewrite readWord_single_other, IH.
Qed.

Lemma readWord_shellQuote v : readWord Unquoted (Env.shellQuote v) = Some v.
Proof.
  rewrite shellQuote_escape.
  change (readWord SingleQuoted (escapeWith shellEscape v +:+ "'") = Some v).
  apply readWord_escape.
Qed.

(** The five replacements of [dotenvValue], one after the other, come to
    one escape per character. *)
Lemma dotenv_replacements v :
  Env.ReplaceAll
    (Env.ReplaceAll
       (Env.ReplaceAll
          (Env.ReplaceAll
             (Env.ReplaceAll v (String ch_backslash "")
                (String ch_backslash (String ch_backslash "")))
             (String ch_dquote "")
             (String ch_backslash (String ch_dquote "")))
          (String ch_newline "") (String ch_backslash "n"))
       (String ch_return "") (String ch_backslash "r"))
    (String ch_tab "") (String ch_backslash "t")
  = escapeWith dotenvEscape v.
Proof.
  rewrite !ReplaceAll_byte, !escapeWith_compose.
  apply escapeWith_ext. intros c. unfold dotenvEscape, str1.
  destruct (decide (c = ch_backslash)) as [->|H1]; [by vm_compute|].
  destruct (decide (c = ch_dquote)) as [->|H2]; [by vm_compute|].
  destruct (decide (c = ch_newline)) as [->|H3]; [by vm_compute|].
  destruct (decide (c = ch_return)) as [->|H4]; [by vm_compute|].
  destruct (decide (c = ch_tab)) as [->|H5]; [by vm_compute|].
  repeat (rewrite bool_decide_eq_false_2 by congruence;
          cbn [escapeWith String.append]).
  reflexivity.
Qed.

Lemma dotenvValue_escape v :
  Env.dotenvValue v
  = if negb (string_nonempty v) then ""
    else if Env.ContainsAny v Env.dotenvSpecials
         then str1 ch_dquote +:+ escapeWith dotenvEscape v +:+ str1 ch_dquote
         else v.
Proof.
  unfold Env.dotenvValue. cbv zeta.
  destruct (string_nonempty v); cbn [negb]; [|done].
  destruct (Env.ContainsAny v Env.dotenvSpecials); [|done].
  unfold str1. do 2 f_equal. apply dotenv_replacements.
Qed.

Lemma unescape_plain c s :
  c ≠ ch_backslash → c ≠ ch_dquote →
  unescape false (String c s) = String c (unescape false s).
Proof.
  intros H1 H2. cbn [unescape]. by rewrite !bool_decide_eq_false_2.
Qed.

Lemma unescape_escaped c s :
  unescape false (String ch_backslash (String c s))
  = String (if bool_decide (c = "n"%char) then ch_newline
            else if bool_decide (c = "r"%char) then ch_return
            else if bool_decide (c = "t"%char) then ch_tab
            else c)
           (unescape false s).
Proof. reflexivity. Qed.

Lemma unescape_escape v rest :
  unescape false (escapeWith dotenvEscape v +:+ String ch_dquote rest) = v.
Proof.
  induction v as [|c v IH]; [done|].
  cbn [escapeWith]. rewrite app_assoc_string.
  unfold dotenvEscape at 1, str1.
  repeat case_bool_decide; subst;
    repeat (rewrite app_cons || rewrite app_empty_l);
    [rewrite unescape_escaped, IH; reflexivity..|].
  by rewrite unescape_plain, IH.
Qed.

Lemma dotenvRead_dotenvValue v : dotenvRead (Env.dotenvValue v) = v.
Proof.
  rewrite dotenvValue_escape.
  destruct v as [|c v]; [done|]. cbn [string_nonempty negb].
  destruct (Env.ContainsAny (String c v) Env.dotenvSpecials) eqn:Hany.
  - unfold str1. rewrite app_cons, app_empty_l. unfold dotenvRead.
    rewrite bool_decide_eq_true_2 by done. apply unescape_escape.
  - unfold dotenvRead. rewrite bool_decide_eq_false_2; [done|].
    intros ->. by vm_compute in Hany.
Qed.

(** *** What command substitution keeps of the quoted values *)

Lemma dropNUL_app a b : dropNUL (a +:+ b) = dropNUL a +:+ dropNUL b.
Proof.
  induction a as [|c a IH]; [done|].
  rewrite app_cons. cbn [dropNUL]. rewrite IH.
  by destruct (bool_decide (c = ch_nul)).
Qed.

Lemma dropNUL_concat (l : list string) :
  dropNUL (concatStrings l) = concatStrings (dropNUL <$> l).
Proof.
  induction l as [|s l IH]; [done|].
  rewrite fmap_cons. cbn [concatStrings]. by rewrite dropNUL_app, IH.
Qed.

Lemma dropNUL_id v : dropNUL v = v ↔ noNUL v = true.
Proof.
  assert (Hlen : ∀ s, String.length (dropNUL s) ≤ String.length s).
  { induction s as [|c s IH]; [done|]. cbn [dropNUL].
    destruct (bool_decide (c = ch_nul)); cbn [String.length]; lia. }
  unfold noNUL. induction v as [|c v IH]; [done|].
  cbn [dropNUL string_forallb]. case_bool_decide as Hc; cbn [negb andb].
  - split; [|done]. intros Hv. apply (f_equal String.length) in Hv.
    cbn [String.length] in Hv. pose proof (Hlen v). lia.
  - rewrite <- IH. split; [by intros [= ?]|by intros ->].
Qed.

(** The escapes of [shellQuote] hold no NUL byte of their own. *)
Lemma dropNUL_escape v :
  dropNUL (escapeWith shellEscape v) = escapeWith shellEscape (dropNUL v).
Proof.
  induction v as [|c v IH]; [done|].
  cbn [escapeWith dropNUL]. rewrite dropNUL_app, IH.
  case_bool_decide as Hnul.
  - subst c. by rewrite app_empty_l.
  - cbn [escapeWith]. f_equal. unfold shellEscape.
    case_bool_decide as Hq; [done|].
    unfold str1. cbn [dropNUL]. by rewrite bool_decide_eq_false_2.
Qed.

Lemma dropNUL_shellQuote v :
  dropNUL (Env.shellQuote v) = Env.shellQuote (dropNUL v).
Proof.
  rewrite !shellQuote_escape, !dropNUL_app, dropNUL_escape. done.
Qed.

Lemma dropNUL_shellLine values k :
  dropNUL (Env.shellLine values k) = substitutedLine values k.
Proof.
  unfold Env.shellLine, substitutedLine. by rewrite !dropNUL_app.
Qed.

Lemma readWord_dropNUL v :
  readWord Unquoted (dropNUL (Env.shellQuote v)) = Some (dropNUL v).
Proof. rewrite dropNUL_shellQuote. apply readWord_shellQuote. Qed.

(** X1: [shellQuote] puts the value between single quotes and writes each
    single quote of the value as the five characters [' " ' " '], the
    empty value included; two values with the same quoted form are the
    same value. *)
Theorem shellQuote_injective (v v' : string) :
  Env.shellQuote v = "'" +:+ escapeWith shellEscape v +:+ "'"
  ∧ (Env.shellQuote v = Env.shellQuote v' → v = v').
Proof.
  split; [apply shellQuote_escape|].
  intros H. apply (f_equal (readWord Unquoted)) in H.
  rewrite !readWord_shellQuote in H. congruence.
Qed.

(** X2: the development shell receives the output of [renderShell]
    through a command substitution, which drops every NUL byte and the
    newlines at the end: what it evaluates is one line [export K=W] per
    variable, where [W] is the word [shellQuote] makes of the value,
    without its NUL bytes.  Read by the quoting rules of the shell, that
    word is the value without its NUL bytes: the value itself when it holds
    no NUL byte, and never the value when it holds one. *)
Theorem shellQuote_read_back (order : list string)
    (values : gmap string string) (v : string) :
  commandSubstitution (Env.renderShell order values)
  = stripNewlines
      (concatStrings (substitutedLine values <$> Env.sortStrings order))
  ∧ readWord Unquoted (dropNUL (Env.shellQuote v)) = Some (dropNUL v)
  ∧ (readWord Unquoted (dropNUL (Env.shellQuote v)) = Some v
     ↔ noNUL v = true).
Proof.
  split_and!.
  - unfold commandSubstitution. f_equal.
    rewrite renderShell_eq, dropNUL_concat, <- list_fmap_compose.
    f_equal. apply list_fmap_ext. intros _ k _. apply dropNUL_shellLine.
  - apply readWord_dropNUL.
  - rewrite readWord_dropNUL. split.
    + intros [= Hv]. by apply dropNUL_id.
    + intros Hv%dropNUL_id. by rewrite Hv.
Qed.

(** X3: [dotenvValue] writes the empty value as nothing, a value with none
    of the characters blank, [#], double quote, single quote, newline,
    carriage return and tab as it is, and any other value between double
    quotes with one escape per character: the five replacements never
    touch what an earlier one has written.  Two values with the same
    output are the same value. *)
Theorem dotenvValue_injective (v v' : string) :
  Env.dotenvValue v
  = (if negb (string_nonempty v) then ""
     else if Env.ContainsAny v Env.dotenvSpecials
          then str1 ch_dquote +:+ escapeWith dotenvEscape v
               +:+ str1 ch_dquote
          else v)
  ∧ (Env.dotenvValue v = Env.dotenvValue v' → v = v').
Proof.
  split; [apply dotenvValue_escape|].
  intros H. apply (f_equal dotenvRead) in H.
  by rewrite !dotenvRead_dotenvValue in H.
Qed.

(** ** The [env] command: what [Process] returns *)

Lemma filter_snoc {A} (f : A → bool) l x :
  List.filter f (l ++ [x]) = List.filter f l ++ (if f x then [x] else []).
Proof.
  induction l as [|y l IH]; simpl; [by destruct (f x)|].
  rewrite IH. by destruct (f y).
Qed.

Lemma lastNamed_snoc name vars v :
  lastNamed name (vars ++ [v])
  = if bool_decide (Env.Name v = name) then Some v else lastNamed name vars.
Proof.
  unfold lastNamed. rewrite filter_snoc.
  destruct (bool_decide (Env.Name v = name)).
  - apply last_snoc.
  - by rewrite app_nil_r.
Qed.

(** After a run of assignments to a map, a name holds what the last
    variable of that name has given it. *)
Lemma assignments_lookup (f : Env.envVariable → string) vars
    (m : gmap string string) name :
  foldl (λ m v, <[Env.Name v := f v]> m) m vars !! name
  = match lastNamed name vars with
    | Some v => Some (f v)
    | None => m !! name
    end.
Proof.
  induction vars as [|v vars IH] using rev_ind; [done|].
  rewrite foldl_app, lastNamed_snoc. simpl. case_bool_decide as Hn.
  - subst name. by rewrite lookup_insert_eq.
  - by rewrite lookup_insert_ne.
Qed.

Lemma EnvName_singleLine s : EnvName s → singleLine s.
Proof.
  assert (Hchars : ∀ l, Forall nameChar (list_ascii_of_string l) →
                        lineCount l = 0).
  { induction l as [|c l IH]; [done|].
    simpl. intros [Hc Hl]%Forall_cons. rewrite (IH Hl).
    rewrite bool_decide_eq_false_2; [done|].
    intros ->. unfold nameChar, upperLetter in Hc. vm_compute in Hc.
    destruct Hc as [?|[?|?]]; [lia|lia|done]. }
  destruct s as [|c s]; [done|]. intros [Hc Hs].
  unfold singleLine. simpl. rewrite (Hchars s Hs).
  rewrite bool_decide_eq_false_2; [done|].
  intros ->. unfold upperLetter in Hc. vm_compute in Hc. lia.
Qed.

Lemma validateFrom_skip i pre rest :
  Forall WellFormedVariable pre →
  Env.validateFrom i (pre ++ rest)
  = Env.validateFrom (i + length pre) rest.
Proof.
  intros Hpre. revert i.
  induction Hpre as [|v pre Hv Hpre IH]; intros i.
  - by rewrite Nat.add_0_r.
  - cbn [app Env.validateFrom length].
    apply (validateVariable_None i) in Hv. rewrite Hv, IH.
    by rewrite Nat.add_succ_comm.
Qed.

(** X4: [validateEnvConfig] reports the first variable that is not well
    formed, whatever follows it: the error is the one the checks give for
    that variable, a [ConfigValidationError] whose field is
    [env.vars[i]] or [env.vars[i].name] with [i] the position of the
    variable, counted from 0. *)
Theorem validateEnvConfig_reports_first_invalid
    (pre post : list Env.envVariable) (v : Env.envVariable) (fmt : string) :
  Forall WellFormedVariable pre →
  ¬ WellFormedVariable v →
  Env.validateEnvConfig {| Env.Vars := pre ++ v :: post; Env.Format := fmt |}
  = Env.validateVariable (length pre) v
  ∧ ∃ field value msg suggestions,
      Env.validateVariable (length pre) v
      = Some (Env.ConfigValidationError field value msg suggestions)
      ∧ (field = "env.vars[" +:+ pretty (length pre) +:+ "]"
         ∨ field = ("env.vars[" +:+ pretty (length pre) +:+ "]")
                   +:+ ".name").
Proof.
  intros Hpre Hv.
  assert (Hsome : ∃ field value msg suggestions,
            Env.validateVariable (length pre) v
            = Some (Env.ConfigValidationError field value msg suggestions)
            ∧ (field = "env.vars[" +:+ pretty (length pre) +:+ "]"
               ∨ field = ("env.vars[" +:+ pretty (length pre) +:+ "]")
                         +:+ ".name")).
  { destruct (Env.validateVariable (length pre) v) as [e|] eqn:He;
      [|by apply validateVariable_None in He].
    unfold Env.validateVariable in He. cbv zeta in He.
    repeat match type of He with
           | (if ?b then _ else _) = _ => destruct b
           end; simplify_eq; eauto 10. }
  split; [|exact Hsome].
  unfold Env.validateEnvConfig. cbn [Env.Vars].
  destruct (pre ++ v :: post) as [|w l] eqn:Hl; [by destruct pre|].
  rewrite <- Hl, validateFrom_skip by done. cbn [Env.validateFrom].
  rewrite Nat.add_0_l.
  destruct Hsome as (? & ? & ? & ? & -> & _). done.
Qed.

Section ProcessResults.

Context (TrimSpace : string → string).
Context {R : Type} {resolver : Env.secretResolver R}.

Lemma resolveVariable_static (p : R) v i :
  StaticVariable v →
  Env.resolveVariable TrimSpace p v i
  = (Ok (Env.trimmed TrimSpace v (Env.Value v)), p).
Proof.
  intros [Href Hval]. unfold Env.resolveVariable.
  apply string_nonempty_false in Href. apply string_nonempty_true in Hval.
  by rewrite Href, Hval.
Qed.

Lemma processFrom_static (p : R) i vars res :
  Forall StaticVariable vars →
  Env.processFrom TrimSpace p i vars res
  = (Ok {| Env.Values :=
             foldl (λ m v, <[Env.Name v :=
                               Env.trimmed TrimSpace v (Env.Value v)]> m)
                   (Env.Values res) vars;
           Env.Skipped := Env.Skipped res |}, p).
Proof.
  intros Hall. revert i res.
  induction Hall as [|v vars Hv Hall IH]; intros i res.
  - by destruct res.
  - cbn [Env.processFrom]. rewrite resolveVariable_static by done.
    rewrite IH. reflexivity.
Qed.

(** A variable that passes validation fails to resolve only when the
    resolver fails on its reference. *)
Lemma resolveVariable_error (p p' : R) v i e :
  WellFormedVariable v →
  Env.resolveVariable TrimSpace p v i = (Err e, p') →
  ∃ cause, Env.Reference v ≠ ""
           ∧ Env.ResolveSecret p (Env.Reference v) = (Err cause, p')
           ∧ e = resolutionFailure v cause.
Proof.
  intros [_ Hsrc]. unfold Env.resolveVariable.
  destruct (string_nonempty (Env.Reference v)) eqn:Href.
  - apply string_nonempty_true in Href.
    destruct (Env.ResolveSecret p (Env.Reference v)) as [[value|cause] q];
      [done|].
    intros [= <- <-]. by exists cause.
  - apply string_nonempty_false in Href.
    destruct Hsrc as [[? _]|[_ Hval]]; [done|].
    apply string_nonempty_true in Hval. by rewrite Hval.
Qed.

(** What the loop of [Process] adds to a result. *)
Lemma processFrom_results (p p' : R) i vars res res' :
  Env.processFrom TrimSpace p i vars res = (Ok res', p') →
  (∀ name, is_Some (Env.Values res' !! name) →
           is_Some (Env.Values res !! name)
           ∨ ∃ v, v ∈ vars ∧ Env.Name v = name)
  ∧ (∀ name, is_Some (Env.Values res !! name) →
             is_Some (Env.Values res' !! name))
  ∧ (∀ v, v ∈ vars → Env.Optional v = false →
          is_Some (Env.Values res' !! Env.Name v))
  ∧ (∀ v, v ∈ vars →
          is_Some (Env.Values res' !! Env.Name v)
          ∨ Env.Name v ∈ Env.SkippedName <$> Env.Skipped res')
  ∧ ∃ sk, Env.Skipped res' = Env.Skipped res ++ sk
          ∧ ∀ s, s ∈ sk →
                 ∃ v q q' j, v ∈ vars ∧ Env.Optional v = true
                   ∧ Env.SkippedName s = Env.Name v
                   ∧ Env.resolveVariable TrimSpace q v j
                     = (Err (Env.SkippedErr s), q').
Proof.
  revert p i res. induction vars as [|v vars IH]; intros p i res.
  - intros [= <- <-]. split_and!; try (intros ? ?%elem_of_nil; done); auto.
    exists []. split; [by rewrite app_nil_r|]. by intros ? ?%elem_of_nil.
  - cbn [Env.processFrom].
    destruct (Env.resolveVariable TrimSpace p v i) as [[value|e] q] eqn:Hv.
    + intros (Hin & Hmono & Hreq & Hcov & sk & Hsk & Hskipped)%IH.
      cbn [Env.Values Env.Skipped] in *.
      assert (Hv' : is_Some (Env.Values res' !! Env.Name v)).
      { apply Hmono. rewrite lookup_insert_eq. by eexists. }
      split_and!.
      * intros name [H|(w & Hw & Hname)]%Hin.
        -- destruct (decide (Env.Name v = name)) as [Hn|Hn].
           ++ right. exists v. split; [by left|done].
           ++ left. by rewrite lookup_insert_ne in H.
        -- right. exists w. split; [by right|done].
      * intros name H. apply Hmono.
        destruct (decide (Env.Name v = name)) as [->|Hn].
        -- rewrite lookup_insert_eq. by eexists.
        -- by rewrite lookup_insert_ne.
      * intros w [->|Hw]%elem_of_cons Hopt; [done|]. by apply Hreq.
      * intros w [->|Hw]%elem_of_cons; [by left|]. by apply Hcov.
      * exists sk. split; [done|]. intros s Hs.
        destruct (Hskipped s Hs) as (w & q1 & q2 & j & Hw & ?).
        exists w, q1, q2, j. split; [by right|done].
    + destruct (Env.Optional v) eqn:Hopt; [|done].
      intros (Hin & Hmono & Hreq & Hcov & sk & Hsk & Hskipped)%IH.
      cbn [Env.Values Env.Skipped] in *.
      split_and!.
      * intros name [H|(w & Hw & Hname)]%Hin; [by left|].
        right. exists w. split; [by right|done].
      * exact Hmono.
      * intros w [->|Hw]%elem_of_cons Hopt'; [congruence|]. by apply Hreq.
      * intros w [->|Hw]%elem_of_cons; [|by apply Hcov].
        right. rewrite Hsk, !fmap_app. simpl.
        apply elem_of_app. left. apply elem_of_app. right. by left.
      * exists ({| Env.SkippedName := Env.Name v; Env.SkippedErr := e |} :: sk).
        split; [by rewrite Hsk, <- app_assoc|].
        intros s [->|Hs]%elem_of_cons.
        -- exists v, p, q, i. split; [by left|done].
        -- destruct (Hskipped s Hs) as (w & q1 & q2 & j & Hw & ?).
           exists w, q1, q2, j. split; [by right|done].
Qed.

(** X5: when [Process] succeeds, every key of [Values] is the name of a
    variable of the configuration; every variable has its name in [Values]
    or in [Skipped], a variable that is not optional in [Values]; and every
    entry of [Skipped] is an optional variable with the error its
    resolution gave. *)
Theorem Process_accounts_for_every_variable (p p' : R)
    (cfg : Env.envConfig) (res : Env.envResult) :
  Env.Process TrimSpace p (Some cfg) = (Ok res, p') →
  (∀ name, is_Some (Env.Values res !! name) →
           ∃ v, v ∈ Env.Vars cfg ∧ Env.Name v = name)
  ∧ (∀ v, v ∈ Env.Vars cfg → Env.Optional v = false →
          is_Some (Env.Values res !! Env.Name v))
  ∧ (∀ v, v ∈ Env.Vars cfg →
          is_Some (Env.Values res !! Env.Name v)
          ∨ Env.Name v ∈ Env.SkippedName <$> Env.Skipped res)
  ∧ (∀ s, s ∈ Env.Skipped res →
          ∃ v q q' j, v ∈ Env.Vars cfg ∧ Env.Optional v = true
            ∧ Env.SkippedName s = Env.Name v
            ∧ Env.resolveVariable TrimSpace q v j
              = (Err (Env.SkippedErr s), q')).
Proof.
  unfold Env.Process.
  intros (Hin & _ & Hreq & Hcov & sk & Hsk & Hskipped)%processFrom_results.
  cbn [Env.Values Env.Skipped] in *. split_and!; [|done|done|].
  - intros name [H|H]%Hin; [|done].
    rewrite lookup_empty in H. by destruct H.
  - intros s Hs. apply Hskipped. by rewrite Hsk in Hs.
Qed.

Lemma validated_variables cfg :
  Env.validateEnvConfig cfg = None →
  ∀ v, v ∈ Env.Vars cfg → WellFormedVariable v.
Proof.
  intros Hvalid. apply Forall_forall.
  unfold Env.validateEnvConfig in Hvalid.
  destruct (Env.Vars cfg) as [|v vars]; [done|].
  by apply validateFrom_None in Hvalid.
Qed.

Lemma Process_validated_error (p p' : R) cfg e :
  Env.validateEnvConfig cfg = None →
  Env.Process TrimSpace p (Some cfg) = (Err e, p') →
  ∃ v cause, v ∈ Env.Vars cfg ∧ Env.Optional v = false
             ∧ Env.Reference v ≠ "" ∧ e = resolutionFailure v cause.
Proof.
  intros Hvalid. pose proof (validated_variables cfg Hvalid) as Hall.
  unfold Env.Process.
  intros (pre & v & post & res1 & p1 & Hvars & Hopt & _ & Hv)
    %processFrom_error.
  assert (Hin : v ∈ Env.Vars cfg).
  { rewrite Hvars. apply elem_of_app. right. by left. }
  destruct (resolveVariable_error _ _ _ _ _ (Hall v Hin) Hv)
    as (cause & Href & _ & ->).
  by exists v, cause.
Qed.

(** X6: a configuration [validateEnvConfig] accepts makes [Process] fail,
    or skip a variable, only for a reference the resolver has failed on:
    the error is that of the resolver with the suggestions of
    [resolveVariable] around it, the variable has a reference, and the error
    for a variable with neither reference nor value never comes up. *)
Theorem validated_config_fails_only_in_resolver (p : R)
    (cfg : Env.envConfig) :
  Env.validateEnvConfig cfg = None →
  (∀ e p', Env.Process TrimSpace p (Some cfg) = (Err e, p') →
     ∃ v cause, v ∈ Env.Vars cfg ∧ Env.Optional v = false
                ∧ Env.Reference v ≠ "" ∧ e = resolutionFailure v cause)
  ∧ (∀ res p', Env.Process TrimSpace p (Some cfg) = (Ok res, p') →
     ∀ s, s ∈ Env.Skipped res →
       ∃ v cause, v ∈ Env.Vars cfg ∧ Env.Optional v = true
                  ∧ Env.Reference v ≠ ""
                  ∧ s = {| Env.SkippedName := Env.Name v;
                           Env.SkippedErr := resolutionFailure v cause |}).
Proof.
  intros Hvalid. pose proof (validated_variables cfg Hvalid) as Hall.
  split.
  - intros e p'. by apply Process_validated_error.
  - unfold Env.Process.
    intros res p' (_ & _ & _ & _ & sk & Hsk & Hskipped)%processFrom_results
      s Hs.
    cbn [Env.Skipped] in Hsk. rewrite Hsk in Hs.
    destruct (Hskipped s Hs) as (v & q & q' & j & Hin & Hopt & Hname & Hv).
    destruct (resolveVariable_error _ _ _ _ _ (Hall v Hin) Hv)
      as (cause & Href & _ & Herr).
    exists v, cause. split_and!; [done..|].
    destruct s as [n err]. simpl in *. by subst.
Qed.

(** X7: variables with a static value never reach the resolver: whatever
    the resolver, [Process] succeeds and leaves it as it was, skips
    nothing, and gives every name the value of the last variable of that
    name, trimmed unless [preserveWhitespace] is set; [buildResolver]
    answers with the [staticResolver] without making a client. *)
Theorem static_variables_need_no_resolver (p : R)
    (e : EnvCommand.envCommand R) (cfg : Env.envConfig) :
  Forall StaticVariable (Env.Vars cfg) →
  EnvCommand.buildResolver e cfg = Ok EnvCommand.Static
  ∧ ∃ res,
      Env.Process TrimSpace p (Some cfg) = (Ok res, p)
      ∧ Env.Skipped res = []
      ∧ ∀ name,
          Env.Values res !! name
          = (λ v, Env.trimmed TrimSpace v (Env.Value v))
            <$> lastNamed name (Env.Vars cfg).
Proof.
  intros Hall. split.
  - unfold EnvCommand.buildResolver.
    induction Hall as [|v vars [Href _] Hall IH]; [done|].
    cbn [EnvCommand.buildResolverFrom].
    apply string_nonempty_false in Href. by rewrite Href.
  - unfold Env.Process. rewrite processFrom_static by done.
    eexists. split; [reflexivity|]. split; [done|].
    intros name. cbn [Env.Values]. rewrite assignments_lookup.
    by destruct (lastNamed name (Env.Vars cfg)).
Qed.

(** X8: for a configuration [validateEnvConfig] accepts, the dotenv
    output of what [Process] has resolved has one line for every key of
    [Values], whatever the values hold; every key is a name of the shape
    [^[A-Z][A-Z0-9_]*$]. *)
Theorem dotenv_output_has_one_line_per_variable (p p' : R)
    (cfg : Env.envConfig) (res : Env.envResult) (order : list string) :
  Env.validateEnvConfig cfg = None →
  Env.Process TrimSpace p (Some cfg) = (Ok res, p') →
  Env.rangeOrder (Env.Values res) order →
  (∀ k, is_Some (Env.Values res !! k) → EnvName k)
  ∧ lineCount (Env.renderDotenv order (Env.Values res))
    = size (Env.Values res).
Proof.
  intros Hvalid Hres Ho.
  assert (Hall : Forall WellFormedVariable (Env.Vars cfg)).
  { unfold Env.validateEnvConfig in Hvalid.
    destruct (Env.Vars cfg) as [|v vars]; [done|].
    by apply validateFrom_None in Hvalid. }
  rewrite Forall_forall in Hall.
  assert (Hnames : ∀ k, is_Some (Env.Values res !! k) → EnvName k).
  { unfold Env.Process in Hres.
    apply processFrom_results in Hres as (Hin & _).
    intros k [H|(v & Hv & <-)]%Hin.
    - cbn [Env.Values] in H. rewrite lookup_empty in H. by destruct H.
    - by destruct (Hall v Hv). }
  split; [exact Hnames|].
  unfold Env.rangeOrder in Ho.
  rewrite renderDotenv_eq, lineCount_concat, <- list_fmap_compose.
  rewrite (sum_list_const _ _ 1).
  - rewrite sortStrings_perm, Ho, length_fmap, length_map_to_list. lia.
  - intros k Hk. unfold compose. rewrite lineCount_dotenvLine.
    rewrite sortStrings_perm, Ho, list_elem_of_fmap in Hk.
    destruct Hk as ([k' v] & -> & Hkv%elem_of_map_to_list).
    assert (Hk : lineCount k' = 0).
    { apply EnvName_singleLine, Hnames. by exists v. }
    cbn [fst]. by rewrite Hk.
Qed.

End ProcessResults.

(** ** The [env] command: [Run] *)

Lemma isSupportedFormat_cases format :
  Env.isSupportedFormat format = true
  ↔ format = "shell" ∨ format = "dotenv" ∨ format = "json".
Proof.
  unfold Env.isSupportedFormat.
  rewrite !orb_true_iff, !bool_decide_eq_true. tauto.
Qed.

Section RunFacts.

Context (TrimSpace ToLower : string → string).
Context (Stat : string → option EnvCommand.osError).
Context (MarshalIndent : gmap string string → result Env.error string).
Context (errorText : Env.error → string).
Context (range : gmap string string → list string).
Context {R : Type} {resolver : Env.secretResolver R}.

Local Abbreviation renderOutput :=
  (EnvCommand.renderOutput MarshalIndent range).
Local Abbreviation Run :=
  (EnvCommand.Run TrimSpace ToLower Stat MarshalIndent errorText range).

(** The formats [isSupportedFormat] accepts are those [renderOutput] has
    a case for. *)
Lemma renderOutput_unknown values format :
  Env.isSupportedFormat format = false
  ↔ renderOutput values format = Err (EnvCommand.UnknownFormat format).
Proof.
  unfold EnvCommand.renderOutput, Env.isSupportedFormat.
  destruct (bool_decide (format = "shell")); [done|].
  destruct (bool_decide (format = "dotenv")); [done|].
  destruct (bool_decide (format = "json")); [|done].
  simpl. by destruct (MarshalIndent values).
Qed.

(** [Run], once the configuration is loaded, the format accepted, the
    resolver built and the variables processed. *)
Lemma Run_output (e : EnvCommand.envCommand R) cfg r r' res :
  Stat (EnvCommand.configPath e) = None →
  EnvCommand.loadConfig e (EnvCommand.configPath e) = Ok cfg →
  Env.isSupportedFormat (EnvCommand.selectFormat ToLower e cfg) = true →
  EnvCommand.buildResolver e cfg = Ok r →
  Env.Process TrimSpace r (Some cfg) = (Ok res, r') →
  Run e
  = match renderOutput (Env.Values res)
            (EnvCommand.selectFormat ToLower e cfg) with
    | Ok output =>
        {| EnvCommand.err := None; EnvCommand.stdout := output;
           EnvCommand.stderr :=
             EnvCommand.warnings errorText (Env.Skipped res);
           EnvCommand.built := Some r' |}
    | Err err =>
        EnvCommand.failed err
          (EnvCommand.warnings errorText (Env.Skipped res)) (Some r')
    end.
Proof.
  intros Hstat Hload Hformat Hbuild Hres.
  unfold EnvCommand.Run, EnvCommand.validateConfigFile.
  rewrite Hstat, Hload. cbv zeta. rewrite Hformat. cbn [negb].
  by rewrite Hbuild, Hres.
Qed.

(** X9: once the variables are processed, [Run] fails only when the
    format is [json] and the encoder fails: [isSupportedFormat] has let
    through the formats [renderOutput] has a case for and no other, so the
    error for an unknown format never comes up.  In the formats [shell] and
    [dotenv] the standard output is the rendering of the resolved values
    and the standard error holds the warnings for the skipped variables. *)
Theorem Run_renders_what_Process_resolved (e : EnvCommand.envCommand R)
    (cfg : Env.envConfig) (r r' : EnvCommand.builtResolver R)
    (res : Env.envResult) :
  Stat (EnvCommand.configPath e) = None →
  EnvCommand.loadConfig e (EnvCommand.configPath e) = Ok cfg →
  Env.isSupportedFormat (EnvCommand.selectFormat ToLower e cfg) = true →
  EnvCommand.buildResolver e cfg = Ok r →
  Env.Process TrimSpace r (Some cfg) = (Ok res, r') →
  let format := EnvCommand.selectFormat ToLower e cfg in
  let values := Env.Values res in
  (∀ f vs, Env.isSupportedFormat f = false
           ↔ renderOutput vs f = Err (EnvCommand.UnknownFormat f))
  ∧ (∀ f, EnvCommand.err (Run e) ≠ Some (EnvCommand.UnknownFormat f))
  ∧ EnvCommand.stderr (Run e)
    = EnvCommand.warnings errorText (Env.Skipped res)
  ∧ EnvCommand.built (Run e) = Some r'
  ∧ (format = "shell" →
     EnvCommand.err (Run e) = None
     ∧ EnvCommand.stdout (Run e) = Env.renderShell (range values) values)
  ∧ (format = "dotenv" →
     EnvCommand.err (Run e) = None
     ∧ EnvCommand.stdout (Run e) = Env.renderDotenv (range values) values)
  ∧ (format = "json" →
     match MarshalIndent values with
     | Ok data =>
         EnvCommand.err (Run e) = None
         ∧ EnvCommand.stdout (Run e) = data +:+ Cli.nl
     | Err cause =>
         EnvCommand.err (Run e)
         = Some (EnvCommand.EnvError
                   (Env.ConfigError "Rendering environment variables"
                      "Failed to marshal JSON output" (Some cause)))
         ∧ EnvCommand.stdout (Run e) = ""
     end).
Proof.
  intros Hstat Hload Hformat Hbuild Hres format values.
  split; [intros f vs; apply renderOutput_unknown|].
  rewrite (Run_output e cfg r r' res) by done.
  fold format values.
  apply isSupportedFormat_cases in Hformat. fold format in Hformat.
  unfold EnvCommand.renderOutput.
  destruct Hformat as [Hf|[Hf|Hf]]; rewrite Hf; simpl.
  - split_and!; try done.
  - split_and!; try done.
  - destruct (MarshalIndent values); split_and!; try done.
Qed.

(** X10: [Run] writes to the standard output only when it returns no
    error, and builds a resolver only after it has found the configuration
    file, loaded it and accepted the format: a missing file, a
    configuration that does not load and a format that is not supported
    end the command before a client is made. *)
Theorem Run_output_is_all_or_nothing (e : EnvCommand.envCommand R) :
  (EnvCommand.err (Run e) = None ∨ EnvCommand.stdout (Run e) = "")
  ∧ (is_Some (EnvCommand.built (Run e)) →
     Stat (EnvCommand.configPath e) = None
     ∧ ∃ cfg, EnvCommand.loadConfig e (EnvCommand.configPath e) = Ok cfg
              ∧ Env.isSupportedFormat
                  (EnvCommand.selectFormat ToLower e cfg) = true
              ∧ is_ok (EnvCommand.buildResolver e cfg) = true).
Proof.
  unfold EnvCommand.Run, EnvCommand.validateConfigFile.
  destruct (Stat (EnvCommand.configPath e)) as [err|] eqn:Hstat.
  { destruct (EnvCommand.IsNotExist err); simpl;
      (split; [by right|by intros [? [=]]]). }
  destruct (EnvCommand.loadConfig e (EnvCommand.configPath e))
    as [cfg|err] eqn:Hload; [|split; [by right|by intros [? [=]]]].
  cbv zeta.
  destruct (Env.isSupportedFormat (EnvCommand.selectFormat ToLower e cfg))
    eqn:Hformat; cbn [negb]; [|split; [by right|by intros [? [=]]]].
  destruct (EnvCommand.buildResolver e cfg) as [r|err] eqn:Hbuild;
    [|split; [by right|by intros [? [=]]]].
  assert (Hlate : (None : option EnvCommand.osError) = None
            ∧ ∃ cfg0,
                Ok (E := EnvCommand.runError) cfg = Ok cfg0
                ∧ Env.isSupportedFormat
                    (EnvCommand.selectFormat ToLower e cfg0) = true
                ∧ is_ok (EnvCommand.buildResolver e cfg0) = true).
  { split; [done|]. exists cfg. by rewrite Hbuild. }
  destruct (Env.Process TrimSpace r (Some cfg)) as [[result|failure] r'];
    [|split; [by right|by intros _]].
  destruct (EnvCommand.renderOutput MarshalIndent range (Env.Values result)
              (EnvCommand.selectFormat ToLower e cfg));
    (split; [by (left + right)|by intros _]).
Qed.

(** X11: a configuration of static values is rendered without the token
    file and without a client: whatever [tokenFile] and [newClient] are,
    [Run] gives the same outcome, with the [staticResolver] as the
    resolver and no warning, and the values it renders are those of the
    configuration, for every name that of the last variable of the name. *)
Theorem Run_static_needs_no_token (e : EnvCommand.envCommand R)
    (cfg : Env.envConfig) (tokenFile' : string)
    (newClient' : string → result EnvCommand.runError R) :
  Stat (EnvCommand.configPath e) = None →
  EnvCommand.loadConfig e (EnvCommand.configPath e) = Ok cfg →
  Env.isSupportedFormat (EnvCommand.selectFormat ToLower e cfg) = true →
  Forall StaticVariable (Env.Vars cfg) →
  Run {| EnvCommand.configPath := EnvCommand.configPath e;
         EnvCommand.tokenFile := tokenFile';
         EnvCommand.format := EnvCommand.format e;
         EnvCommand.loadConfig := EnvCommand.loadConfig e;
         EnvCommand.newClient := newClient' |}
  = Run e
  ∧ EnvCommand.built (Run e) = Some EnvCommand.Static
  ∧ EnvCommand.stderr (Run e) = ""
  ∧ ∃ values,
      (∀ name, values !! name
               = (λ v, Env.trimmed TrimSpace v (Env.Value v))
                 <$> lastNamed name (Env.Vars cfg))
      ∧ match renderOutput values
                (EnvCommand.selectFormat ToLower e cfg) with
        | Ok output =>
            EnvCommand.err (Run e) = None
            ∧ EnvCommand.stdout (Run e) = output
        | Err err => EnvCommand.err (Run e) = Some err
        end.
Proof.
  intros Hstat Hload Hformat Hall.
  set (values :=
         foldl (λ m v, <[Env.Name v :=
                           Env.trimmed TrimSpace v (Env.Value v)]> m)
               (∅ : gmap string string) (Env.Vars cfg)).
  assert (Hbuild : ∀ e0 : EnvCommand.envCommand R,
            EnvCommand.buildResolver e0 cfg = Ok EnvCommand.Static).
  { intros e0. unfold EnvCommand.buildResolver.
    induction Hall as [|v vars [Href _] Hall IH]; [done|].
    cbn [EnvCommand.buildResolverFrom].
    apply string_nonempty_false in Href. by rewrite Href. }
  assert (Hres : Env.Process TrimSpace (EnvCommand.Static (R := R)) (Some cfg)
                 = (Ok {| Env.Values := values; Env.Skipped := [] |},
                    EnvCommand.Static)).
  { unfold Env.Process. by rewrite processFrom_static. }
  set (e' := {| EnvCommand.configPath := EnvCommand.configPath e;
                EnvCommand.tokenFile := tokenFile';
                EnvCommand.format := EnvCommand.format e;
                EnvCommand.loadConfig := EnvCommand.loadConfig e;
                EnvCommand.newClient := newClient' |}).
  rewrite (Run_output e' cfg _ _ _ Hstat Hload Hformat (Hbuild e') Hres).
  rewrite (Run_output e cfg _ _ _ Hstat Hload Hformat (Hbuild e) Hres).
  cbn [Env.Values Env.Skipped].
  change (EnvCommand.selectFormat ToLower _ cfg)
    with (EnvCommand.selectFormat ToLower e cfg).
  split; [done|].
  destruct (renderOutput values (EnvCommand.selectFormat ToLower e cfg))
    as [output|err] eqn:Hout.
  - split_and!; [done|done|]. exists values. split.
    + intros name. unfold values. rewrite assignments_lookup.
      by destruct (lastNamed name (Env.Vars cfg)).
    + by rewrite Hout.
  - split_and!; [done|done|]. exists values. split.
    + intros name. unfold values. rewrite assignments_lookup.
      by destruct (lastNamed name (Env.Vars cfg)).
    + by rewrite Hout.
Qed.

(** X12: with the loader [loadEnvConfig], every error of [Run] is one of:
    a file error for the configuration file, from [os.Stat] or
    [os.ReadFile]; the error for a file that is not an [envConfig] in JSON;
    a validation error, of the configuration or of the format; the error of
    [newClient]; the resolver's error for a variable that has a reference
    and is not optional, with the suggestions around it; the error of the
    JSON encoder.  The error of [Process] for a variable with neither
    reference nor value and the error of [renderOutput] for an unknown
    format never leave [Run]. *)
Theorem Run_errors_with_default_loader (e : EnvCommand.envCommand R)
    (ReadFile : string → result EnvCommand.osError string)
    (Unmarshal : string → result Env.error Env.envConfig)
    (err : EnvCommand.runError) :
  EnvCommand.loadConfig e = EnvCommand.loadEnvConfig ReadFile Unmarshal →
  EnvCommand.err (Run e) = Some err →
  (∃ operation msg cause,
     err = EnvCommand.FileOperationError operation (EnvCommand.configPath e)
             msg cause)
  ∨ (∃ cause,
       err = EnvCommand.EnvError
               (Env.ConfigError "Parsing environment configuration"
                  "Invalid JSON format in environment config file"
                  (Some cause)))
  ∨ (∃ field value msg suggestions,
       err = EnvCommand.EnvError
               (Env.ConfigValidationError field value msg suggestions))
  ∨ EnvCommand.newClient e (EnvCommand.tokenFile e) = Err err
  ∨ (∃ cfg v cause,
       EnvCommand.loadConfig e (EnvCommand.configPath e) = Ok cfg
       ∧ v ∈ Env.Vars cfg ∧ Env.Optional v = false
       ∧ Env.Reference v ≠ ""
       ∧ err = EnvCommand.EnvError (resolutionFailure v cause))
  ∨ (∃ cause,
       err = EnvCommand.EnvError
               (Env.ConfigError "Rendering environment variables"
                  "Failed to marshal JSON output" (Some cause))).
Proof.
  intros Hloader.
  unfold EnvCommand.Run, EnvCommand.validateConfigFile.
  destruct (Stat (EnvCommand.configPath e)) as [cause|].
  { destruct (EnvCommand.IsNotExist cause); intros [= <-];
      left; by eexists _, _, _. }
  destruct (EnvCommand.loadConfig e (EnvCommand.configPath e))
    as [cfg|failure] eqn:Hload.
  2: { intros [= <-]. rewrite Hloader in Hload.
       unfold EnvCommand.loadEnvConfig in Hload.
       destruct (ReadFile (EnvCommand.configPath e)) as [data|cause].
       - destruct (Unmarshal data) as [cfg|cause].
         + destruct (Env.validateEnvConfig cfg) as [invalid|] eqn:Hv;
             [|done].
           simplify_eq. right. right. left.
           unfold Env.validateEnvConfig in Hv.
           assert (Hk : Env.isConfigValidationError invalid = true).
           { destruct (Env.Vars cfg); [by simplify_eq|].
             by eapply validateFrom_error. }
           destruct invalid; try done. by eexists _, _, _, _.
         + simplify_eq. right. left. by eexists.
       - simplify_eq. left. by eexists _, _, _. }
  assert (Hvalid : Env.validateEnvConfig cfg = None).
  { rewrite Hloader in Hload. unfold EnvCommand.loadEnvConfig in Hload.
    destruct (ReadFile (EnvCommand.configPath e)) as [data|cause]; [|done].
    destruct (Unmarshal data) as [cfg'|cause]; [|done].
    destruct (Env.validateEnvConfig cfg') eqn:Hv; by simplify_eq. }
  cbv zeta.
  destruct (Env.isSupportedFormat (EnvCommand.selectFormat ToLower e cfg))
    eqn:Hformat; cbn [negb].
  2: { intros [= <-]. right. right. left. by eexists _, _, _, _. }
  unfold EnvCommand.buildResolver.
  destruct (EnvCommand.buildResolverFrom e (Env.Vars cfg))
    as [r|failure] eqn:Hbuild.
  2: { intros [= <-]. right. right. right. left.
       induction (Env.Vars cfg) as [|v vars IH]; [done|].
       cbn [EnvCommand.buildResolverFrom] in Hbuild.
       destruct (string_nonempty (Env.Reference v)); [|by apply IH].
       destruct (EnvCommand.newClient e (EnvCommand.tokenFile e));
         congruence. }
  destruct (Env.Process TrimSpace r (Some cfg)) as [[result|failure] r']
    eqn:Hprocess.
  2: { intros [= <-]. do 4 right. left.
       destruct (Process_validated_error TrimSpace _ _ _ _ Hvalid Hprocess)
         as (v & cause & Hin & Hopt & Href & ->).
       by exists cfg, v, cause. }
  pose proof (isSupportedFormat_cases
                (EnvCommand.selectFormat ToLower e cfg)) as [Hcases _].
  unfold EnvCommand.renderOutput.
  destruct (Hcases Hformat) as [Hf|[Hf|Hf]]; rewrite Hf; simpl; [done..|].
  destruct (MarshalIndent (Env.Values result)) as [data|cause]; [done|].
  intros [= <-]. do 5 right. by eexists.
Qed.

End RunFacts.

(** ** The command line *)

Lemma append_nonempty a c b : a +:+ String c b ≠ "".
Proof. by destruct a. Qed.

Lemma handleError_nonempty err : Cli.handleError (Some err) ≠ "".
Proof.
  unfold Cli.handleError, Cli.nl, str1.
  destruct err as [rendered|msg|prefix cause];
    [apply append_nonempty|..];
    repeat match goal with
           | |- context [if ?b then _ else _] => destruct b
           end;
    by rewrite app_cons.
Qed.

Section Dispatch.

Context {W : Type}.

Lemma runFrom_skip (skipped cmds : list (Cli.command W)) subcommand rest w :
  Forall (λ c, Cli.Name c ≠ subcommand) skipped →
  Cli.runFrom (skipped ++ cmds) subcommand rest w
  = Cli.runFrom cmds subcommand rest w.
Proof.
  induction 1 as [|c skipped Hc Hall IH]; [done|].
  cbn [app Cli.runFrom]. by rewrite bool_decide_eq_false_2.
Qed.

Lemma runFrom_code (cmds : list (Cli.command W)) subcommand rest w :
  let r := Cli.runFrom cmds subcommand rest w in
  (Cli.code r = 0 ∨ Cli.code r = 1)
  ∧ (Cli.code r = 0 ↔ Cli.report r = "").
Proof.
  induction cmds as [|cmd cmds IH]; cbn [Cli.runFrom].
  - split; [by right|]. split; [done|].
    cbn [Cli.report]. unfold Cli.nl, str1. by rewrite app_cons.
  - case_bool_decide as Hname; [|exact IH].
    destruct (Cli.Init cmd rest w) as [[err|] w1].
    { split; [by right|]. split; [done|].
      intros Hrep. cbn [Cli.report] in Hrep.
      by apply handleError_nonempty in Hrep. }
    destruct (Cli.Run cmd w1) as [[err|] w2].
    { split; [by right|]. split; [done|].
      intros Hrep. cbn [Cli.report] in Hrep.
      by apply handleError_nonempty in Hrep. }
    split; [by left|done].
Qed.

Lemma runFrom_success (cmds : list (Cli.command W)) subcommand rest w :
  Cli.code (Cli.runFrom cmds subcommand rest w) = 0
  ↔ ∃ skipped cmd later w1,
      cmds = skipped ++ cmd :: later
      ∧ Forall (λ c, Cli.Name c ≠ subcommand) skipped
      ∧ Cli.Name cmd = subcommand
      ∧ Cli.Init cmd rest w = (None, w1)
      ∧ Cli.Run cmd w1
        = (None, Cli.world (Cli.runFrom cmds subcommand rest w)).
Proof.
  induction cmds as [|cmd cmds IH]; cbn [Cli.runFrom].
  - split; [done|]. intros (skipped & ? & ? & ? & H & _).
    by destruct skipped.
  - case_bool_decide as Hname.
    + split.
      * intros Hcode. exists [], cmd, cmds.
        destruct (Cli.Init cmd rest w) as [[err|] w1]; [done|].
        destruct (Cli.Run cmd w1) as [[err|] w2] eqn:Hrun; [done|].
        exists w1. split_and!; [done|constructor|done..].
      * intros (skipped & cmd' & later & w1 & Hcmds & Hskip & _ & Hinit & Hrun).
        destruct skipped as [|c skipped].
        -- simplify_eq/=. rewrite Hinit in Hrun |- *.
           by destruct (Cli.Run cmd' w1) as [[err|] w2].
        -- simplify_eq/=. by apply Forall_cons in Hskip as [? _].
    + rewrite IH. split.
      * intros (skipped & cmd' & later & w1 & -> & Hskip & ? & ? & ?).
        exists (cmd :: skipped), cmd', later, w1.
        split_and!; [done|by constructor|done..].
      * intros (skipped & cmd' & later & w1 & Hcmds & Hskip & Hn & ? & ?).
        destruct skipped as [|c skipped]; simplify_eq/=.
        apply Forall_cons in Hskip as [_ Hskip].
        by exists skipped, cmd', later, w1.
Qed.

(** X13: [run] returns 0 or 1, and 0 exactly when the first command with
    the name of the subcommand initialises and runs without an error; then
    it reports nothing, and in every other case it writes a report to
    the standard error.  Only that command is initialised and run: the
    commands before it and after it, and every command when the name is
    unknown or the subcommand is missing, leave the world as it was. *)
Theorem run_exit_code (args : list string) (cmds : list (Cli.command W))
    (w : W) :
  let r := Cli.run args cmds w in
  (Cli.code r = 0 ∨ Cli.code r = 1)
  ∧ (Cli.code r = 0 ↔ Cli.report r = "")
  ∧ (Cli.code r = 0
     ↔ ∃ program subcommand rest skipped cmd later w1,
         args = program :: subcommand :: rest
         ∧ cmds = skipped ++ cmd :: later
         ∧ Forall (λ c, Cli.Name c ≠ subcommand) skipped
         ∧ Cli.Name cmd = subcommand
         ∧ Cli.Init cmd rest w = (None, w1)
         ∧ Cli.Run cmd w1 = (None, Cli.world r))
  ∧ (∀ program subcommand rest skipped cmd later,
       args = program :: subcommand :: rest →
       cmds = skipped ++ cmd :: later →
       Forall (λ c, Cli.Name c ≠ subcommand) skipped →
       Cli.Name cmd = subcommand →
       r = Cli.run args [cmd] w)
  ∧ ((∀ subcommand, args !! 1 = Some subcommand →
        Forall (λ c, Cli.Name c ≠ subcommand) cmds) →
     Cli.code r = 1 ∧ Cli.world r = w).
Proof.
  cbv zeta. unfold Cli.run.
  destruct args as [|program [|subcommand rest]].
  - split_and!; try done.
    + by right.
    + split; [done|]. by intros (?&?&?&?&?&?&?&?&?).
  - split_and!; try done.
    + by right.
    + split; [done|]. by intros (?&?&?&?&?&?&?&?&?).
  - pose proof (runFrom_code cmds subcommand rest w) as [Hcode Hreport].
    split_and!; [done|done|..].
    + rewrite runFrom_success. split.
      * intros (skipped & cmd & later & w1 & ?).
        by exists program, subcommand, rest, skipped, cmd, later, w1.
      * intros (? & ? & ? & skipped & cmd & later & w1 & [= <- <- <-] & ?).
        by exists skipped, cmd, later, w1.
    + intros ? ? ? skipped cmd later [= <- <- <-] -> Hskip Hname.
      rewrite runFrom_skip by done. cbn [Cli.runFrom].
      rewrite !bool_decide_eq_true_2 by done. done.
    + intros Hnone. specialize (Hnone subcommand eq_refl).
      rewrite <- (app_nil_r cmds), runFrom_skip by done. done.
Qed.

End Dispatch.

(** ** The [token] command *)

Lemma lineCount_snoc line c :
  lineCount (line +:+ String c "")
  = lineCount line + (if bool_decide (c = ch_newline) then 1 else 0).
Proof. rewrite lineCount_app. simpl. lia. Qed.

Lemma endsLine_app a c b : endsLine (a +:+ String c b) = endsLine (String c b).
Proof.
  induction a as [|x a IH]; [done|].
  rewrite app_cons. cbn [endsLine].
  destruct (a +:+ String c b) eqn:Happ; [|done].
  by apply append_nonempty in Happ.
Qed.

Lemma concatStrings_foldl (l : list string) acc :
  foldl (λ b line, b +:+ line) acc l = acc +:+ concatStrings l.
Proof.
  revert acc. induction l as [|s l IH]; intros acc; simpl.
  - by rewrite app_empty_r.
  - by rewrite IH, app_assoc_string.
Qed.

(** What [ReadString] returns without an error is the input up to its
    last newline. *)
Lemma readStrings_lines s line :
  lineCount line = 0 →
  line +:+ s
  = concatStrings (Token.readStrings line s).1 +:+ (Token.readStrings line s).2
  ∧ lineCount (Token.readStrings line s).2 = 0
  ∧ endsLine (concatStrings (Token.readStrings line s).1) = true.
Proof.
  revert line. induction s as [|c s IH]; intros line Hline.
  - by rewrite app_empty_r.
  - cbn [Token.readStrings]. case_bool_decide as Hc.
    + destruct (IH "" eq_refl) as (Hs & Hlast & Hends).
      destruct (Token.readStrings "" s) as [lines last].
      cbn [fst snd concatStrings] in *. unfold str1. split_and!.
      * rewrite !app_assoc_string, <- Hs. done.
      * done.
      * destruct (concatStrings lines) as [|d rest] eqn:Hlines.
        -- rewrite app_empty_r, endsLine_app. subst c. done.
        -- rewrite app_assoc_string. change (String c "" +:+ String d rest)
             with (String c (String d rest)).
           rewrite endsLine_app. exact Hends.
    + unfold str1.
      destruct (IH (line +:+ String c "")) as (Hs & Hlast & Hends).
      { rewrite lineCount_snoc, Hline. by rewrite bool_decide_eq_false_2. }
      rewrite app_assoc_string in Hs. done.
Qed.

Lemma endsLine_no_newline s : endsLine s = true → lineCount s = 0 → s = "".
Proof.
  induction s as [|c s IH]; [done|].
  cbn [endsLine lineCount]. destruct s as [|d s].
  - intros Hc%bool_decide_eq_true. rewrite bool_decide_eq_true_2 by done.
    simpl. lia.
  - intros Hends Hcount. case_bool_decide; [lia|].
    by specialize (IH Hends Hcount).
Qed.

Section TokenFacts.

Context {F : Type}.
Context (Dir : string → string).
Context (MkdirAll : string → N → F → option Cli.goError * F).
Context (WriteFile : string → string → N → F → option Cli.goError * F).
Context (TrimSpace : string → string).

Local Abbreviation setToken := (Token.setToken Dir MkdirAll WriteFile TrimSpace).

(** X14: [setToken] takes as the token the input up to and including its
    last newline; the bytes after it, which the reader returns together
    with the end of the input, are dropped, so that an input without a
    newline gives the empty token.  The token is trimmed; an empty one is
    refused and nothing is written; any other is written, trimmed, to the
    token path with the mode 0600, in one call that follows the making of
    the directory. *)
Theorem setToken_stores_the_complete_lines (t : Token.tokenCommand)
    (stdin : Token.input) (fs fs1 : F) :
  MkdirAll (Dir (Token.path t)) Token.directoryMode fs = (None, fs1) →
  Token.ending stdin = None →
  ∃ token tail,
    Token.data stdin = token +:+ tail
    ∧ lineCount tail = 0
    ∧ endsLine token = true
    ∧ (lineCount (Token.data stdin) = 0 → token = "")
    ∧ (TrimSpace token = "" →
       setToken t stdin fs
       = {| Token.err := Some (Cli.PlainError "token cannot be empty");
            Token.files := fs1; Token.stderr := Token.prompt |})
    ∧ (TrimSpace token ≠ "" →
       Token.files (setToken t stdin fs)
       = (WriteFile (Token.path t) (TrimSpace token) Token.tokenFileMode
            fs1).2
       ∧ (Token.err (setToken t stdin fs) = None
          ↔ (WriteFile (Token.path t) (TrimSpace token) Token.tokenFileMode
               fs1).1 = None)).
Proof.
  intros Hmkdir Hend.
  destruct (readStrings_lines (Token.data stdin) "" eq_refl)
    as (Hdata & Htail & Hends).
  rewrite app_empty_l in Hdata.
  exists (concatStrings (Token.readStrings "" (Token.data stdin)).1),
         (Token.readStrings "" (Token.data stdin)).2.
  split_and!; [done..| | |].
  - intros Hcount. apply endsLine_no_newline; [done|].
    rewrite Hdata, lineCount_app in Hcount. lia.
  - intros Hempty. unfold Token.setToken.
    rewrite Hmkdir, Hend, concatStrings_foldl, app_empty_l, Hempty. done.
  - intros Hfull. unfold Token.setToken.
    rewrite Hmkdir, Hend, concatStrings_foldl, app_empty_l.
    apply string_nonempty_true in Hfull. rewrite Hfull. cbn [negb].
    destruct (WriteFile _ _ _ fs1) as [[e|] fs2]; done.
Qed.

End TokenFacts.

(** ** The NixOS module: what an evaluation reports *)

Lemma failedAssertions_app l1 l2 :
  Nix.failedAssertions (l1 ++ l2)
  = Nix.failedAssertions l1 ++ Nix.failedAssertions l2.
Proof.
  unfold Nix.failedAssertions. by rewrite List.filter_app, fmap_app.
Qed.

Lemma failedAssertions_cons a l :
  Nix.failedAssertions (a :: l)
  = (if Nix.assertion a then [] else [Nix.message a])
    ++ Nix.failedAssertions l.
Proof. unfold Nix.failedAssertions. simpl. by destruct (Nix.assertion a). Qed.

Lemma configCount_pos cfg :
  0 < Nix.configCount cfg
  ↔ Nix.configFiles cfg ≠ [] ∨ Nix.secrets cfg ≠ ∅.
Proof.
  unfold Nix.configCount, Nix.hasMultipleConfigs, Nix.hasDeclarativeSecrets.
  do 2 case_bool_decide; simpl; split; try lia; try tauto.
Qed.

(** The failed mode assertions, as the names of the secrets they are
    about. *)
Lemma failed_modes (m : gmap string Nix.secretOptions) (l : list string) :
  Nix.failedAssertions
    (mjoin (omap (λ name,
              (λ secret,
                 [ {| Nix.assertion := Nix.modeAssertion (Nix.mode secret);
                      Nix.message := modeMessage name (Nix.mode secret) |} ])
              <$> m !! name) l))
  = omap (λ n, (λ s, modeMessage n (Nix.mode s)) <$> m !! n)
      (omap (λ n, m !! n ≫= λ s,
               if Nix.modeAssertion (Nix.mode s) then None else Some n) l).
Proof.
  induction l as [|n l IH]; [done|].
  cbn [omap list_omap]. destruct (m !! n) as [s|] eqn:Hn; simpl; [|done].
  rewrite failedAssertions_cons, IH. cbn [Nix.assertion Nix.message].
  destruct (Nix.modeAssertion (Nix.mode s)) eqn:Hs; simpl; [done|].
  by rewrite Hn.
Qed.

Lemma omap_sublist {A} (f : A → option A) (l : list A) :
  (∀ x y, f x = Some y → y = x) → omap f l `sublist_of` l.
Proof.
  intros Hf. induction l as [|x l IH]; [done|].
  cbn [omap list_omap]. destruct (f x) as [y|] eqn:Hx.
  - apply Hf in Hx as ->. by apply sublist_skip.
  - by apply sublist_cons.
Qed.

(** X15: a module that is not enabled contributes nothing, whatever else it
    holds.  An enabled module is rejected with the message that a source is
    missing when it has no configuration file and no declared secret, and
    otherwise with one message for every declared secret whose mode is not
    three or four octal digits, in the order of the names of the secrets;
    it is built exactly when there is no such message.  Nothing else of the
    configuration is checked. *)
Theorem evaluation_reports (cfg : Nix.moduleConfig) :
  (Nix.enable cfg = false → Nix.evaluate cfg = Nix.Disabled)
  ∧ (Nix.enable cfg = true →
     ∃ names,
       names `sublist_of` Nix.attrNames (Nix.secrets cfg)
       ∧ (∀ n, n ∈ names
               ↔ ∃ s, Nix.secrets cfg !! n = Some s
                      ∧ ¬ OctalMode (Nix.mode s))
       ∧ Nix.evaluate cfg
         = match (if bool_decide (Nix.configFiles cfg = []
                                  ∧ Nix.secrets cfg = ∅)
                  then [noSourceMessage] else [])
                 ++ omap (λ n, (λ s, modeMessage n (Nix.mode s))
                               <$> Nix.secrets cfg !! n) names with
           | [] => Nix.Built (Nix.script cfg) (Nix.secretPaths cfg)
           | msgs => Nix.Rejected msgs
           end).
Proof.
  unfold Nix.evaluate, Nix.config. split; [by intros ->|]. intros ->.
  cbn [Nix.out_assertions Nix.out_script Nix.out_secretPaths].
  set (bad := λ n, Nix.secrets cfg !! n ≫= λ s,
                if Nix.modeAssertion (Nix.mode s) then None else Some n).
  exists (omap bad (Nix.attrNames (Nix.secrets cfg))). split_and!.
  - apply omap_sublist. intros x y. unfold bad.
    destruct (Nix.secrets cfg !! x) as [s|]; simpl; [|done].
    by destruct (Nix.modeAssertion (Nix.mode s)); intros [=].
  - intros n. rewrite list_elem_of_omap. unfold bad. split.
    + intros (x & _ & Hx).
      destruct (Nix.secrets cfg !! x) as [s|] eqn:Hs; simpl in Hx; [|done].
      destruct (Nix.modeAssertion (Nix.mode s)) eqn:Hm; simplify_eq.
      exists s. split; [done|]. unfold Nix.modeAssertion in Hm.
      rewrite <- octal_mode_matches. by rewrite Hm.
    + intros (s & Hs & Hm). exists n. split.
      * apply attrNames_elem_of. by rewrite Hs.
      * rewrite Hs. simpl. unfold Nix.modeAssertion.
        rewrite <- octal_mode_matches in Hm.
        by destruct (Regex.matches Regex.octal_mode (Nix.mode s)).
  - unfold Nix.assertions. rewrite failedAssertions_app.
    unfold Nix.mapAttrsToList.
    change (Nix.failedAssertions (mjoin _))
      with (Nix.failedAssertions
              (mjoin (omap (λ name,
                 (λ secret,
                    [ {| Nix.assertion :=
                           Nix.modeAssertion (Nix.mode secret);
                         Nix.message :=
                           modeMessage name (Nix.mode secret) |} ])
                 <$> Nix.secrets cfg !! name)
                 (Nix.attrNames (Nix.secrets cfg))))).
    rewrite failed_modes. fold bad.
    unfold Nix.failedAssertions at 1. simpl.
    assert (Hcount : bool_decide (0 < Nix.configCount cfg)
                     = negb (bool_decide (Nix.configFiles cfg = []
                                          ∧ Nix.secrets cfg = ∅))).
    { pose proof (configCount_pos cfg) as Hpos.
      do 2 case_bool_decide; simpl; try done.
      - destruct Hpos as [[?|?] _]; [done|tauto..].
      - destruct (decide (Nix.configFiles cfg = [])),
                 (decide (Nix.secrets cfg = ∅)); tauto. }
    rewrite Hcount, negb_involutive.
    by destruct (bool_decide (Nix.configFiles cfg = []
                              ∧ Nix.secrets cfg = ∅)).
Qed.

Lemma length_mapAttrsToList {A B} (f : string → A → B) (m : gmap string A) :
  length (Nix.mapAttrsToList f m) = size m.
Proof.
  unfold Nix.mapAttrsToList.
  assert (Hall : ∀ l, Forall (λ k, is_Some (m !! k)) l →
            length (omap (λ name, f name <$> m !! name) l) = length l).
  { induction 1 as [|k l [a Hk] Hl IH]; [done|].
    cbn [omap list_omap]. rewrite Hk. simpl. by rewrite IH. }
  rewrite Hall.
  - unfold Nix.attrNames.
    rewrite merge_sort_Permutation. rewrite <- size_dom. done.
  - apply Forall_forall. intros k. apply attrNames_elem_of.
Qed.

(** X16: the manifest generated from the declared secrets and
    [secretPaths] cover the same secrets: no manifest is generated when none
    is declared; otherwise the manifest carries the path template and the
    defaults of the module and has one entry for every declared secret,
    and [secretPaths] has an entry for the declared names and no other,
    which is the path of the manifest entry when the secret declares a path
    and that path under the output directory when it declares none. *)
Theorem declared_secrets_reach_manifest_and_paths (cfg : Nix.moduleConfig) :
  (∀ name, is_Some (Nix.secretPaths cfg !! name)
           ↔ is_Some (Nix.secrets cfg !! name))
  ∧ (Nix.secrets cfg = ∅ → Nix.declarativeConfigFile cfg = None)
  ∧ (Nix.secrets cfg ≠ ∅ →
     ∃ content,
       Nix.declarativeConfigFile cfg
       = Some (Nix.StoreFile "opnix-declarative-secrets.json" content)
       ∧ Nix.m_pathTemplate content = Nix.pathTemplate cfg
       ∧ Nix.m_defaults content = Nix.defaults cfg
       ∧ length (Nix.m_secrets content) = size (Nix.secrets cfg)
       ∧ ∀ name secret,
           Nix.secrets cfg !! name = Some secret →
           Nix.declarativeEntry name secret ∈ Nix.m_secrets content
           ∧ Nix.secretPaths cfg !! name
             = Some (match Nix.path secret with
                     | Some _ =>
                         Nix.ms_path (Nix.declarativeEntry name secret)
                     | None =>
                         Nix.outputDir cfg +:+ "/"
                         +:+ Nix.ms_path (Nix.declarativeEntry name secret)
                     end)).
Proof.
  split_and!.
  - intros name. rewrite secretPaths_lookup, fmap_is_Some. done.
  - intros Hnone. unfold Nix.declarativeConfigFile, Nix.hasDeclarativeSecrets.
    by rewrite bool_decide_eq_false_2 by (by intros []).
  - intros Hsome. unfold Nix.declarativeConfigFile, Nix.hasDeclarativeSecrets.
    rewrite bool_decide_eq_true_2 by done.
    eexists. split; [reflexivity|]. cbn [Nix.m_pathTemplate Nix.m_defaults
      Nix.m_secrets]. split_and!; [done|done|apply length_mapAttrsToList|].
    intros name secret Hname. split.
    + apply elem_of_mapAttrsToList. by exists name, secret.
    + rewrite secretPaths_lookup, Hname. simpl.
      by destruct (Nix.path secret).
Qed.

(** ** The unit script on a host *)

Section ScriptFacts.

Context (errexit : bool) (h : Script.host).

Lemma command_result c sh :
  match Script.command errexit h c sh with
  | Script.Running sh' =>
      Script.toolRuns sh' = Script.toolRuns sh ++ Script.started c
  | Script.Exited s sh' =>
      Script.toolRuns sh' = Script.toolRuns sh ++ Script.started c
      ∧ errexit = true ∧ s ≠ 0 ∧ ∃ n c', Script.status h n c' = s
  | Script.Unread => False
  end.
Proof.
  unfold Script.command.
  destruct errexit; simpl; [|done].
  destruct (Nat.eqb_spec (Script.status h (Script.count sh) c) 0); simpl;
    [done|].
  split_and!; [done..|]. by eexists _, _.
Qed.

Lemma commands_result cs sh :
  (∀ c, c ∈ cs → Script.started c = []) ∨ (∃ c, cs = [c]) →
  match Script.commands errexit h cs sh with
  | Script.Running sh' =>
      Script.toolRuns sh' = Script.toolRuns sh ++ (cs ≫= Script.started)
  | Script.Exited s sh' =>
      Script.toolRuns sh' = Script.toolRuns sh ++ (cs ≫= Script.started)
      ∧ errexit = true ∧ s ≠ 0 ∧ ∃ n c', Script.status h n c' = s
  | Script.Unread => False
  end.
Proof.
  intros [Hnone|[c ->]].
  - assert (Hbind : cs ≫= Script.started = []).
    { induction cs as [|c cs IH]; [done|].
      rewrite bind_cons, (Hnone c), IH; [done| |by left].
      intros c' Hc'. apply Hnone. by right. }
    rewrite Hbind, app_nil_r. clear Hbind.
    revert sh. induction cs as [|c cs IH]; intros sh; [done|].
    cbn [Script.commands].
    pose proof (command_result c sh) as Hc.
    rewrite (Hnone c), app_nil_r in Hc by (by left).
    destruct (Script.command errexit h c sh) as [sh'|s sh'|].
    + rewrite <- Hc. apply IH. intros c' Hc'. apply Hnone. by right.
    + done.
    + done.
  - cbn [Script.commands]. pose proof (command_result c sh) as Hc.
    rewrite bind_cons.
    change ([] ≫= Script.started) with (@nil (list Script.argument)).
    rewrite app_nil_r.
    by destruct (Script.command errexit h c sh).
Qed.

Lemma quiet_commands cs sh :
  (∀ c, c ∈ cs → Script.started c = []) →
  match Script.commands errexit h cs sh with
  | Script.Running sh' => Script.toolRuns sh' = Script.toolRuns sh
  | Script.Exited s sh' =>
      Script.toolRuns sh' = Script.toolRuns sh
      ∧ errexit = true ∧ s ≠ 0 ∧ ∃ n c', Script.status h n c' = s
  | Script.Unread => False
  end.
Proof.
  intros Hnone. pose proof (commands_result cs sh (or_introl Hnone)) as Hc.
  assert (Hbind : cs ≫= Script.started = []).
  { clear Hc. induction cs as [|c cs IH]; [done|].
    rewrite bind_cons, (Hnone c), IH; [done| |by left].
    intros c' Hc'. apply Hnone. by right. }
  by rewrite Hbind, app_nil_r in Hc.
Qed.

Lemma step_result st sh :
  match Script.step errexit h st sh with
  | Script.Running sh' =>
      Script.toolRuns sh' = Script.toolRuns sh ++ toolArguments [st]
      ∧ passes h st
  | Script.Exited s sh' =>
      Script.toolRuns sh' = Script.toolRuns sh ++ toolArguments [st]
      ∧ (stops h st s
         ∨ errexit = true ∧ s ≠ 0 ∧ ∃ n c, Script.status h n c = s)
  | Script.Unread => readable st = false
  end.
Proof.
  destruct st as [dir|token grp|token|token|token|line|inv];
    cbn [Script.step passes stops readable].
  - destruct (Script.isWord dir); [|done].
    pose proof (quiet_commands
                  [Script.MkdirP dir; Script.Chmod "750" dir] sh) as Hc.
    destruct (Script.commands errexit h _ sh) as [sh'|s sh'|].
    + split; [|done].
      change (toolArguments _) with (@nil (list Script.argument)).
      rewrite app_nil_r. apply Hc. intros c Hc'.
      repeat (apply elem_of_cons in Hc' as [->|Hc']; [done|]).
      by apply elem_of_nil in Hc'.
    + destruct Hc as (Hruns & Hrest).
      { intros c Hc'.
        repeat (apply elem_of_cons in Hc' as [->|Hc']; [done|]).
        by apply elem_of_nil in Hc'. }
      split; [|by right].
      change (toolArguments _) with (@nil (list Script.argument)).
      by rewrite app_nil_r.
    + exfalso. apply Hc. intros c Hc'.
      repeat (apply elem_of_cons in Hc' as [->|Hc']; [done|]).
      by apply elem_of_nil in Hc'.
  - destruct (Script.isWord token && Script.isWord grp); [|done].
    change (toolArguments _) with (@nil (list Script.argument)).
    rewrite app_nil_r.
    destruct (Script.isFile h token); [|done].
    pose proof (quiet_commands
                  [Script.Chown ("root:" +:+ grp) token;
                   Script.Chmod "640" token] sh) as Hc.
    destruct (Script.commands errexit h _ sh) as [sh'|s sh'|].
    + split; [|done]. apply Hc. intros c Hc'.
      repeat (apply elem_of_cons in Hc' as [->|Hc']; [done|]).
      by apply elem_of_nil in Hc'.
    + destruct Hc as (Hruns & Hrest).
      { intros c Hc'.
        repeat (apply elem_of_cons in Hc' as [->|Hc']; [done|]).
        by apply elem_of_nil in Hc'. }
      split; [done|by right].
    + exfalso. apply Hc. intros c Hc'.
      repeat (apply elem_of_cons in Hc' as [->|Hc']; [done|]).
      by apply elem_of_nil in Hc'.
  - destruct (Script.isWord token); [|done].
    destruct (Script.isFile h token); simpl; rewrite app_nil_r; [done|].
    split; [done|by left].
  - destruct (Script.isWord token); [|done].
    destruct (Script.isReadable h token); simpl; rewrite app_nil_r; [done|].
    split; [done|by left].
  - destruct (Script.isWord token); [|done].
    destruct (Script.hasSize h token); simpl; rewrite app_nil_r; [done|].
    split; [done|by left].
  - destruct (Script.isQuotable line); [|done].
    simpl. by rewrite app_nil_r.
  - unfold toolArguments. cbn [Nix.invocations omap list_omap].
    destruct (Script.arguments inv) as [args|] eqn:Hargs.
    + pose proof (commands_result [Script.OpnixSecret args] sh) as Hc.
      rewrite bind_cons in Hc.
      change ([] ≫= Script.started)
        with (@nil (list Script.argument)) in Hc.
      cbn [Script.started] in Hc.
      destruct (Script.commands errexit h _ sh) as [sh'|s sh'|].
      * split; [|done]. apply Hc. right. by eexists.
      * destruct Hc as (Hruns & Hrest); [right; by eexists|].
        split; [done|by right].
      * exfalso. apply Hc. right. by eexists.
    + apply bool_decide_eq_false_2. by intros [? [=]].
Qed.

(** A script that reaches its end has passed every guard and started
    every tool run. *)
Lemma steps_Running l sh sh' :
  Script.steps errexit h l sh = Script.Running sh' →
  Script.toolRuns sh' = Script.toolRuns sh ++ toolArguments l
  ∧ Forall (passes h) l.
Proof.
  revert sh. induction l as [|st l IH]; intros sh.
  - intros [= <-]. by rewrite app_nil_r.
  - cbn [Script.steps]. pose proof (step_result st sh) as Hst.
    destruct (Script.step errexit h st sh) as [sh1|s sh1|]; [|done..].
    destruct Hst as [Hruns Hpass].
    intros [Hrest Hall]%IH. split; [|by constructor].
    rewrite Hrest, Hruns, <- app_assoc.
    by rewrite <- toolArguments_app.
Qed.

(** A script that ends early ends in one of its steps: a guard the host
    does not pass, or, with [errexit], a command that fails. *)
Lemma steps_Exited l sh s sh' :
  Script.steps errexit h l sh = Script.Exited s sh' →
  ∃ pre st post,
    l = pre ++ st :: post
    ∧ Forall (passes h) pre
    ∧ Script.toolRuns sh'
      = Script.toolRuns sh ++ toolArguments (pre ++ [st])
    ∧ (stops h st s
       ∨ errexit = true ∧ s ≠ 0 ∧ ∃ n c, Script.status h n c = s).
Proof.
  revert sh. induction l as [|st l IH]; intros sh; [done|].
  cbn [Script.steps]. pose proof (step_result st sh) as Hst.
  destruct (Script.step errexit h st sh) as [sh1|s1 sh1|]; [| |done].
  - destruct Hst as [Hruns Hpass].
    intros (pre & st' & post & -> & Hall & Hrest & Hwhy)%IH.
    exists (st :: pre), st', post. split_and!; [done|by constructor| |done].
    rewrite Hrest, Hruns, <- app_assoc.
    by rewrite <- toolArguments_app.
  - intros [= <- <-]. destruct Hst as [Hruns Hwhy].
    by exists [], st, l.
Qed.

(** The model reads a script all of whose steps it reads. *)
Lemma steps_read l sh :
  Forall (λ st, readable st = true) l →
  Script.steps errexit h l sh ≠ Script.Unread.
Proof.
  intros Hall. revert sh. induction Hall as [|st l Hst _ IH]; intros sh;
    [done|].
  cbn [Script.steps]. pose proof (step_result st sh) as Hres.
  destruct (Script.step errexit h st sh) as [sh1|s1 sh1|];
    [apply IH|done|congruence].
Qed.

Lemma secretToolRuns_no_guard cfg :
  Forall (λ st, ∀ s', ¬ stops h st s') (Nix.secretToolRuns cfg).
Proof.
  unfold Nix.secretToolRuns.
  induction (Nix.allConfigFiles cfg) as [|f fs IH]; [constructor|].
  rewrite bind_cons. repeat constructor; try (intros ? []). exact IH.
Qed.

(** X17: for a token file, an output directory and configuration files
    whose paths are single plain words (letters, digits, [/], [.], [_] and
    [-], not starting with [-]), the unit script starts the secret tool
    only on a host where the token file exists, can be read and is not
    empty, and then with the command lines of the script, in their order.
    Without a token file it ends with status 0 and runs nothing, unless
    [errexit] is set and a command before the check has failed; with a
    token file that cannot be read or is empty it ends with a status other
    than 0 and runs nothing.  With [errexit], a script that has a token
    file and ends with status 0 has run the tool for every configuration
    file; without [errexit] it runs the tool for every configuration file
    as soon as the three checks pass.  Paths that are not such words are
    pasted into the script unquoted and are outside this statement. *)
Theorem script_runs_tool_only_with_token (cfg : Nix.moduleConfig) :
  plainPaths cfg →
  ∃ r, Script.execute errexit h (Nix.script cfg) = Some r
  ∧ r.2 `prefix_of` (commandLine cfg <$> Nix.allConfigFiles cfg)
  ∧ (r.2 ≠ [] →
     Script.isFile h (Nix.tokenFile cfg) = true
     ∧ Script.isReadable h (Nix.tokenFile cfg) = true
     ∧ Script.hasSize h (Nix.tokenFile cfg) = true)
  ∧ (Script.isFile h (Nix.tokenFile cfg) = false →
     r.2 = []
     ∧ (errexit = false ∨ (∀ n c, Script.status h n c = 0) → r.1 = 0))
  ∧ (Script.isFile h (Nix.tokenFile cfg) = true →
     Script.isReadable h (Nix.tokenFile cfg) = false
     ∨ Script.hasSize h (Nix.tokenFile cfg) = false →
     r.2 = [] ∧ r.1 ≠ 0)
  ∧ (errexit = true → Script.isFile h (Nix.tokenFile cfg) = true →
     r.1 = 0 →
     r.2 = commandLine cfg <$> Nix.allConfigFiles cfg)
  ∧ (errexit = false →
     Script.isFile h (Nix.tokenFile cfg) = true →
     Script.isReadable h (Nix.tokenFile cfg) = true →
     Script.hasSize h (Nix.tokenFile cfg) = true →
     r.2 = commandLine cfg <$> Nix.allConfigFiles cfg).
Proof.
  intros Hplain. rewrite <- (toolArguments_script cfg Hplain).
  pose proof (steps_read (Nix.script cfg)
                {| Script.count := 0; Script.last := 0;
                   Script.toolRuns := [] |}
                (script_readable cfg Hplain)) as Hread.
  clear Hplain. unfold Script.execute.
  set (sh0 := {| Script.count := 0; Script.last := 0;
                 Script.toolRuns := [] |}) in *.
  destruct (Script.steps errexit h (Nix.script cfg) sh0) as [sh'|s sh'|]
    eqn:Hrun; [| |done]; clear Hread; (eexists; split; [reflexivity|]).
  - apply steps_Running in Hrun as [Hruns Hall].
    unfold sh0 in Hruns. cbn [Script.toolRuns app] in Hruns. cbn [fst snd].
    unfold Nix.script in Hall. cbn [app] in Hall.
    apply Forall_cons in Hall as [_ Hall].
    apply Forall_cons in Hall as [_ Hall].
    apply Forall_cons in Hall as [Hfile Hall].
    apply Forall_cons in Hall as [Hread Hall].
    apply Forall_cons in Hall as [Hsize Hall].
    cbn [passes] in Hfile, Hread, Hsize.
    split_and!.
    + by rewrite Hruns.
    + done.
    + intros Hno. congruence.
    + intros _ [Hno|Hno]; congruence.
    + done.
    + done.
  - apply steps_Exited in Hrun
      as (pre & st & post & Hscript & Hall & Hruns & Hwhy).
    unfold sh0 in Hruns. cbn [Script.toolRuns app] in Hruns. cbn [fst snd].
    assert (Hprefix : sh'.(Script.toolRuns)
                      `prefix_of` toolArguments (Nix.script cfg)).
    { rewrite Hruns, Hscript.
      rewrite (toolArguments_app pre (st :: post)),
        (toolArguments_app pre [st]).
      apply prefix_app. exists (toolArguments post).
      by rewrite <- toolArguments_app. }
    generalize dependent (toolArguments (Nix.script cfg)). intros all Hprefix.
    clear sh0.
    unfold Nix.script in Hscript. cbn [app] in Hscript.
    destruct pre as [|g1 pre]; simplify_eq/=.
    { (* the output directory *)
      destruct Hwhy as [[]|(Herr & Hs & n & c & Hst)].
      split_and!; try done.
      - intros Hno. split; [done|]. intros [->|Hok]; [done|].
        by rewrite <- Hst, Hok in Hs.
      - congruence. }
    destruct pre as [|g2 pre]; simplify_eq/=.
    { (* the ownership of the token file *)
      destruct Hwhy as [[]|(Herr & Hs & n & c & Hst)].
      split_and!; try done.
      - intros Hno. split; [done|]. intros [->|Hok]; [done|].
        by rewrite <- Hst, Hok in Hs.
      - congruence. }
    destruct pre as [|g3 pre]; simplify_eq/=.
    { (* the token file is missing *)
      destruct Hwhy as [[Hno ->]|(Herr & Hs & n & c & Hst)].
      - split_and!; try done; congruence.
      - split_and!; try done.
        + intros Hno. split; [done|]. intros [->|Hok]; [done|].
          by rewrite <- Hst, Hok in Hs.
        + congruence. }
    apply Forall_cons in Hall as [_ Hall].
    apply Forall_cons in Hall as [_ Hall].
    apply Forall_cons in Hall as [Hfile Hall]. cbn [passes] in Hfile.
    destruct pre as [|g4 pre]; simplify_eq/=.
    { (* the token file cannot be read *)
      destruct Hwhy as [[Hno ->]|(Herr & Hs & n & c & Hst)].
      - split_and!; try done; congruence.
      - split_and!; try done; congruence. }
    apply Forall_cons in Hall as [Hread Hall]. cbn [passes] in Hread.
    destruct pre as [|g5 pre]; simplify_eq/=.
    { (* the token file is empty *)
      destruct Hwhy as [[Hno ->]|(Herr & Hs & n & c & Hst)].
      - split_and!; try done; congruence.
      - split_and!; try done; congruence. }
    apply Forall_cons in Hall as [Hsize Hall]. cbn [passes] in Hsize.
    (* a run of the tool has failed *)
    assert (Hst : ∀ s', ¬ stops h st s').
    { pose proof (secretToolRuns_no_guard cfg) as Htools.
      match goal with
      | Hx : Nix.secretToolRuns cfg = _ |- _ => rewrite Hx in Htools
      end.
      apply Forall_app in Htools as [_ Htools].
      by apply Forall_cons in Htools as [? _]. }
    destruct Hwhy as [Hstop|(Herr & Hs & n & c & Hstatus)];
      [by apply Hst in Hstop|].
    split_and!; try done; try congruence.
    intros _ [?|?]; congruence.
Qed.

End ScriptFacts.

(** ** The statements on the inputs *)

Lemma Process_accounts_for_every_variable_witness :
  (∀ name, is_Some (Env.Values mixed_result !! name) →
           ∃ v, v ∈ Env.Vars mixed_config ∧ Env.Name v = name)
  ∧ (∀ v, v ∈ Env.Vars mixed_config → Env.Optional v = false →
          is_Some (Env.Values mixed_result !! Env.Name v))
  ∧ (∀ v, v ∈ Env.Vars mixed_config →
          is_Some (Env.Values mixed_result !! Env.Name v)
          ∨ Env.Name v ∈ Env.SkippedName <$> Env.Skipped mixed_result)
  ∧ (∀ s, s ∈ Env.Skipped mixed_result →
          ∃ v (q q' : list string) j,
            v ∈ Env.Vars mixed_config ∧ Env.Optional v = true
            ∧ Env.SkippedName s = Env.Name v
            ∧ Env.resolveVariable (resolver := loggingResolver)
                (λ s, s) q v j
              = (Err (Env.SkippedErr s), q')).
Proof.
  apply (Process_accounts_for_every_variable (resolver := loggingResolver)
           (λ s, s) []
           ["op://Homelab/API/token"; "op://Homelab/Database/password"]
           mixed_config mixed_result).
  reflexivity.
Defined.

Lemma validated_config_fails_only_in_resolver_witness :
  ∃ v cause,
    v ∈ Env.Vars failing_config ∧ Env.Optional v = false
    ∧ Env.Reference v ≠ ""
    ∧ Env.Process (resolver := loggingResolver) (λ s, s) []
        (Some failing_config)
      = (Err (resolutionFailure v cause),
         ["op://Homelab/Database/password"]).
Proof.
  destruct (validated_config_fails_only_in_resolver
              (resolver := loggingResolver) (λ s, s) [] failing_config
              eq_refl) as [Herr _].
  destruct (Herr
              (resolutionFailure
                 (envVar "DB_PASSWORD" "op://Homelab/Database/password" ""
                    false)
                 (Env.ResolverFailure "item not found"))
              ["op://Homelab/Database/password"] eq_refl)
    as (v & cause & Hin & Hopt & Href & Heq).
  exists v, cause. split_and!; [done..|]. rewrite <- Heq. reflexivity.
Defined.

Lemma static_variables_need_no_resolver_witness :
  EnvCommand.buildResolver static_command static_config
  = Ok EnvCommand.Static
  ∧ ∃ res,
      Env.Process (resolver := loggingResolver) trimBlanks ["kept"]
        (Some static_config) = (Ok res, ["kept"])
      ∧ Env.Values res !! "STAGE" = Some "prod"
      ∧ Env.Values res !! "REGION" = Some "eu".
Proof.
  destruct (static_variables_need_no_resolver (resolver := loggingResolver)
              trimBlanks ["kept"] static_command static_config)
    as (Hbuild & res & Hres & _ & Hvalues).
  { repeat constructor; done. }
  split; [exact Hbuild|]. exists res. split; [exact Hres|].
  rewrite !Hvalues. split; reflexivity.
Defined.

Lemma dotenv_output_has_one_line_per_variable_witness :
  lineCount (Env.renderDotenv ["STAGE"; "API_TOKEN"]
               (Env.Values mixed_result)) = 2.
Proof.
  assert (Ho : Env.rangeOrder (Env.Values mixed_result)
                 ["STAGE"; "API_TOKEN"]).
  { apply (bool_decide_unpack
             (["STAGE"; "API_TOKEN"]
              ≡ₚ (map_to_list (Env.Values mixed_result)).*1)).
    vm_compute. exact I. }
  destruct (dotenv_output_has_one_line_per_variable
              (resolver := loggingResolver) (λ s, s) []
              ["op://Homelab/API/token"; "op://Homelab/Database/password"]
              mixed_config mixed_result ["STAGE"; "API_TOKEN"]
              eq_refl eq_refl Ho) as [_ Hlines].
  rewrite Hlines. reflexivity.
Defined.

Lemma Run_renders_what_Process_resolved_witness :
  let run :=
    EnvCommand.Run (resolver := loggingResolver) (λ s, s) lowerFormat
      (λ _, None) (λ _, Ok "{}") (λ _, "item not found")
      (λ m, (map_to_list m).*1) mixed_command in
  EnvCommand.err run = None
  ∧ EnvCommand.stdout run
    = Env.renderShell (map_to_list (Env.Values mixed_result)).*1
        (Env.Values mixed_result)
  ∧ EnvCommand.stderr run
    = "WARNING: Skipped optional env var DB_PASSWORD: item not found"
      +:+ Cli.nl.
Proof.
  intros run.
  destruct (Run_renders_what_Process_resolved (resolver := loggingResolver)
              (λ s, s) lowerFormat (λ _, None) (λ _, Ok "{}")
              (λ _, "item not found") (λ m, (map_to_list m).*1)
              mixed_command mixed_config (EnvCommand.Client [])
              (EnvCommand.Client
                 ["op://Homelab/API/token";
                  "op://Homelab/Database/password"])
              mixed_result eq_refl eq_refl eq_refl eq_refl eq_refl)
    as (_ & _ & Hwarn & _ & Hshell & _).
  destruct (Hshell eq_refl) as [Herr Hout].
  split_and!; [exact Herr|exact Hout|]. unfold run. rewrite Hwarn. reflexivity.
Defined.

Lemma Run_static_needs_no_token_witness :
  let run :=
    EnvCommand.Run (resolver := loggingResolver) trimBlanks lowerFormat
      (λ _, None) (λ _, Ok "{}") (λ _, "item not found")
      (λ m, (map_to_list m).*1) in
  run {| EnvCommand.configPath := "opnix-env.json";
         EnvCommand.tokenFile := "/nowhere";
         EnvCommand.format := "";
         EnvCommand.loadConfig := λ _, Ok static_config;
         EnvCommand.newClient := λ _, Ok [] |}
  = run static_command
  ∧ EnvCommand.built (run static_command) = Some EnvCommand.Static
  ∧ EnvCommand.stderr (run static_command) = "".
Proof.
  intros run.
  destruct (Run_static_needs_no_token (resolver := loggingResolver)
              trimBlanks lowerFormat (λ _, None) (λ _, Ok "{}")
              (λ _, "item not found") (λ m, (map_to_list m).*1)
              static_command static_config "/nowhere" (λ _, Ok [])
              eq_refl eq_refl eq_refl)
    as (Hsame & Hbuilt & Hwarn & _).
  { repeat constructor; done. }
  split_and!; [exact Hsame|exact Hbuilt|exact Hwarn].
Defined.

Lemma setToken_stores_the_complete_lines_witness :
  let setToken :=
    Token.setToken etcDir recordMkdirAll recordWriteFile trimBlanks in
  ∃ token tail,
    Token.data pasted_token = token +:+ tail
    ∧ lineCount tail = 0
    ∧ endsLine token = true
    ∧ (lineCount (Token.data pasted_token) = 0 → token = "")
    ∧ (trimBlanks token = "" →
       setToken set_token pasted_token []
       = {| Token.err := Some (Cli.PlainError "token cannot be empty");
            Token.files := [MadeDir "/etc" Token.directoryMode];
            Token.stderr := Token.prompt |})
    ∧ (trimBlanks token ≠ "" →
       Token.files (setToken set_token pasted_token [])
       = (recordWriteFile "/etc/opnix-token" (trimBlanks token)
            Token.tokenFileMode [MadeDir "/etc" Token.directoryMode]).2
       ∧ (Token.err (setToken set_token pasted_token []) = None
          ↔ (recordWriteFile "/etc/opnix-token" (trimBlanks token)
               Token.tokenFileMode
               [MadeDir "/etc" Token.directoryMode]).1 = None)).
Proof.
  intros setToken.
  apply (setToken_stores_the_complete_lines etcDir recordMkdirAll
           recordWriteFile trimBlanks set_token pasted_token []
           [MadeDir "/etc" Token.directoryMode]); reflexivity.
Defined.

Lemma validateEnvConfig_reports_first_invalid_witness :
  ∃ value msg suggestions,
    Env.validateEnvConfig
      {| Env.Vars := [ envVar "API_TOKEN" "op://Homelab/API/token" "" false;
                       lower_case_name;
                       envVar "" "" "" false ];
         Env.Format := "" |}
    = Some (Env.ConfigValidationError "env.vars[1].name" value msg
              suggestions).
Proof.
  destruct (validateEnvConfig_reports_first_invalid
              [envVar "API_TOKEN" "op://Homelab/API/token" "" false]
              [envVar "" "" "" false] lower_case_name "") as [Heq _].
  - constructor; [|constructor]. by apply (validateVariable_None 0).
  - intros Hv. by apply (validateVariable_None 0) in Hv.
  - eexists _, _, _. etrans; [exact Heq|]. reflexivity.
Defined.

Lemma Run_errors_with_default_loader_witness :
  ∃ cfg v cause,
    EnvCommand.loadConfig default_loader_command
      (EnvCommand.configPath default_loader_command) = Ok cfg
    ∧ v ∈ Env.Vars cfg ∧ Env.Optional v = false
    ∧ Env.Reference v ≠ ""
    ∧ EnvCommand.err
        (EnvCommand.Run (resolver := loggingResolver) (λ s, s) lowerFormat
           (λ _, None) (λ _, Ok "{}") (λ _, "item not found")
           (λ m, (map_to_list m).*1) default_loader_command)
      = Some (EnvCommand.EnvError (resolutionFailure v cause)).
Proof.
  destruct (Run_errors_with_default_loader (resolver := loggingResolver)
              (λ s, s) lowerFormat (λ _, None) (λ _, Ok "{}")
              (λ _, "item not found") (λ m, (map_to_list m).*1)
              default_loader_command (λ _, Ok "{}") (λ _, Ok failing_config)
              (EnvCommand.EnvError
                 (resolutionFailure
                    (envVar "DB_PASSWORD" "op://Homelab/Database/password"
                       "" false)
                    (Env.ResolverFailure "item not found")))
              eq_refl eq_refl)
    as [(?&?&?&[=])|[(?&[=])|[(?&?&?&?&[=])|[[=]|[H|(?&[=])]]]]].
  destruct H as (cfg & v & cause & Hload & Hin & Hopt & Href & Herr).
  exists cfg, v, cause. split_and!; [done..|]. by rewrite <- Herr.
Defined.

(** ** The definitions on the inputs *)

(** The second line of the pasted token, which no newline ends, is not
    stored. *)
Example setToken_on_pasted_token :
  Token.setToken etcDir recordMkdirAll recordWriteFile trimBlanks
    set_token pasted_token []
  = {| Token.err := None;
       Token.files := [ MadeDir "/etc" Token.directoryMode;
                        Wrote "/etc/opnix-token" "ops_abc"
                          Token.tokenFileMode ];
       Token.stderr := Token.prompt +:+ "Token successfully stored at "
                       +:+ "/etc/opnix-token" +:+ Cli.nl |}.
Proof. reflexivity. Qed.

(** Only the command that is named is initialised and run. *)
Example run_on_counting_commands :
  Cli.run ["opnix"; "token"; "set"]
    [ countingCommand "secret" false; countingCommand "token" false;
      countingCommand "env" false ] []
  = {| Cli.code := 0; Cli.report := "";
       Cli.world := ["init token"; "run token"] |}
  ∧ Cli.code (Cli.run ["opnix"; "env"]
                [countingCommand "token" false; countingCommand "env" true]
                []) = 1
  ∧ Cli.code (Cli.run ["opnix"] [countingCommand "token" false] []) = 1
  ∧ Cli.run ["opnix"; "get"] [countingCommand "token" false] []
    = {| Cli.code := 1;
         Cli.report := "Unknown command: get" +:+ Cli.nl +:+ Cli.printUsage;
         Cli.world := [] |}.
Proof. split_and!; reflexivity. Qed.

Lemma script_runs_tool_only_with_token_witness :
  plainPaths several_sources_config
  ∧ ∃ r, Script.execute false readyHost (Nix.script several_sources_config)
         = Some r
         ∧ r.2 = commandLine several_sources_config
                 <$> Nix.allConfigFiles several_sources_config.
Proof.
  assert (Hplain : plainPaths several_sources_config).
  { split_and!; [reflexivity..|]. repeat constructor. }
  split; [exact Hplain|].
  destruct (script_runs_tool_only_with_token false readyHost
              several_sources_config Hplain)
    as (r & Hr & _ & _ & _ & _ & _ & Hall).
  exists r. split; [exact Hr|]. by apply Hall.
Defined.

(** The script on a host without a token, and on one with a token; a
    script with a blank in a path is not read. *)
Example script_on_hosts :
  Script.execute true freshHost (Nix.script several_sources_config)
  = Some (0, [])
  ∧ Script.execute true readyHost (Nix.script several_sources_config)
    = Some (0, commandLine several_sources_config
               <$> Nix.allConfigFiles several_sources_config)
  ∧ length (Nix.allConfigFiles several_sources_config) = 3
  ∧ Script.isWord "/etc/my secrets.json" = false
  ∧ Script.execute true readyHost
      (Nix.script {| Nix.enable := true; Nix.tokenFile := "/etc/opnix-token";
                     Nix.configFiles := ["/etc/my secrets.json"];
                     Nix.outputDir := "/var/lib/opnix/secrets";
                     Nix.users := []; Nix.secrets := ∅;
                     Nix.pathTemplate := None; Nix.defaults := ∅ |})
    = None.
Proof. split_and!; by vm_compute. Qed.

Example quoting_of_values :
  Env.shellQuote "it's" = "'it'" +:+ str1 ch_dquote +:+ "'" +:+ str1 ch_dquote
                           +:+ "'s'"
  ∧ Env.dotenvValue ("a b" +:+ str1 ch_newline)
    = str1 ch_dquote +:+ "a b" +:+ str1 ch_backslash +:+ "n"
      +:+ str1 ch_dquote
  ∧ Env.dotenvValue "plain" = "plain".
Proof. split_and!; reflexivity. Qed.

(** A value with a NUL byte, as the development shell receives it. *)
Example substitution_drops_nul :
  let v := String "x" (String ch_nul "y") in
  Env.shellQuote v = String "'" (String "x" (String ch_nul "y'"))
  ∧ readWord Unquoted (dropNUL (Env.shellQuote v)) = Some "xy"
  ∧ commandSubstitution (Env.renderShell ["K"] {["K" := v]})
    = "export K='xy'".
Proof. split_and!; by vm_compute. Qed.
